(** * april-ivy music updater: a shallow embedding of [src/index.ts]

    The program polls a scrobbling service, decides whether the README of a
    repository has to change, renders a snippet, patches the README between
    two markers and remembers what it wrote in a cache file.

    Conventions of the embedding:
    - a JavaScript string is a [string]; the regular expression of the
      program and [String.prototype.replace] are interpreted character by
      character (the expression has no [u] flag, and its case folding never
      identifies a character above 127 with an ASCII one);
    - a JavaScript number holding milliseconds or seconds is a [Z]
      ([Math.floor (a / b)] is [Z.div] for a positive [b]);
    - an optional field ([album?: string]) is an [option string], [undefined]
      being [None];
    - each [Date.now()] is an explicit clock reading;
    - the built-ins of the runtime the program calls without defining them
      ([Date] parsing and printing, [Number], [JSON], [Buffer], [path]) are
      the fields of the class [Runtime]. *)

From Stdlib Require Import ZArith List Bool Lia String Ascii DecimalString.
Import ListNotations.

Local Open Scope string_scope.
Local Open Scope Z_scope.

Set Implicit Arguments.

(** ** Data model *)

Record TrackInfo : Type := mkTrackInfo {
  title : string;
  artist : string;
  album : option string;
  albumArt : option string;
  nowPlaying : bool;
  playedAt : Z
}.

Record CacheEntry : Type := mkCacheEntry {
  cache_title : string;
  cache_artist : string;
  cache_album : option string;
  cache_albumArt : option string;
  cache_nowPlaying : bool;
  lastUpdatedIso : string
}.

Record EnvConfig : Type := mkEnvConfig {
  lastfmApiKey : string;
  lastfmUsername : string;
  githubToken : string;
  githubOwner : string;
  githubRepo : string;
  githubBranch : string;
  readmePath : string;
  placeholder : string;
  cacheFile : string;
  updateIntervalMs : Z;
  cacheTtlMs : Z;
  userAgent : string
}.

(** The built-ins of the JavaScript runtime that the program uses.
    [Date_parse s] is [new Date(s).getTime()], with [None] for [NaN];
    [JSON_parse_cache s] is [None] when [JSON.parse] throws and [Some None]
    when it returns [null]; [Buffer_decode content encoding] is
    [Buffer.from(content, encoding).toString("utf-8")] and [Buffer_base64 s]
    is [Buffer.from(s, "utf-8").toString("base64")]. *)
Class Runtime : Type := {
  Date_parse : string -> option Z;
  Date_toISOString : Z -> string;
  Number_of_string : string -> Z;
  JSON_stringify_cache : CacheEntry -> string;
  JSON_parse_cache : string -> option (option CacheEntry);
  Buffer_decode : string -> string -> string;
  Buffer_base64 : string -> string;
  path_dirname : string -> string
}.

(** ** JavaScript values *)

(** The double quote character, for the attribute values of the markup. *)
Definition dq : string := String "034"%char EmptyString.

(** Truthiness of a value of type [string | undefined]. *)
Definition truthy (o : option string) : bool :=
  match o with
  | Some s => negb (s =? "")%string
  | None => false
  end.

(** [a || b] on values of type [string | undefined]. *)
Definition js_or (a b : option string) : option string :=
  if truthy a then a else b.

(** [a ?? b]. *)
Definition nullish (a : option string) (b : string) : string :=
  match a with
  | Some s => s
  | None => b
  end.

(** A value of type [string | undefined] inside a template literal. *)
Definition tmpl (o : option string) : string :=
  match o with
  | Some s => s
  | None => "undefined"
  end.

(** An integer inside a template literal. *)
Definition string_of_Z (z : Z) : string :=
  NilZero.string_of_int (Z.to_int z).

(** [a !== b] on strings and on optional strings. *)
Definition str_neq (a b : string) : bool := negb (a =? b)%string.

Definition opt_neq (a b : option string) : bool :=
  match a, b with
  | Some x, Some y => str_neq x y
  | None, None => false
  | _, _ => true
  end.

(** [lines.push(x)]. *)
Definition push (lines : list string) (x : string) : list string :=
  List.app lines [x].

(** ** Snippet renderer *)

Definition getTimeAgo (now timestamp : Z) : string :=
  let seconds := (now - timestamp) / 1000 in
  if seconds <? 60 then "just now"
  else if seconds <? 3600 then string_of_Z (seconds / 60) ++ " minutes ago"
  else if seconds <? 86400 then string_of_Z (seconds / 3600) ++ " hours ago"
  else string_of_Z (seconds / 86400) ++ " days ago".

Definition formatTrack (now : Z) (track : TrackInfo) : string :=
  let timeAgo := getTimeAgo now (playedAt track) in
  if truthy (albumArt track) then
    let lines :=
      [ "<strong>" ++ title track ++ "</strong>";
        "by " ++ artist track ] in
    let lines :=
      if truthy (album track)
      then push lines ("from " ++ tmpl (album track))
      else lines in
    let lines := push lines "" in
    let lines :=
      if nowPlaying track
      then push lines "<em>now playing</em>"
      else push lines timeAgo in
    let info := String.concat "<br/>" lines in
    "<img src=" ++ dq ++ tmpl (albumArt track) ++ dq
      ++ " alt=" ++ dq ++ dq
      ++ " width=" ++ dq ++ "128" ++ dq
      ++ " height=" ++ dq ++ "128" ++ dq
      ++ " align=" ++ dq ++ "left" ++ dq
      ++ " /><samp>" ++ info ++ "</samp>"
  else
    "<samp><strong>" ++ title track ++ "</strong><br/>by "
      ++ artist track ++ "</samp>".

(** ** Change decision engine *)

Section Decision.
Context {rt : Runtime}.
Variable config : EnvConfig.

Definition shouldUpdate (now : Z) (track : TrackInfo)
    (cache : option CacheEntry) : bool :=
  match cache with
  | None => true
  | Some cache =>
      if str_neq (cache_title cache) (title track)
         || str_neq (cache_artist cache) (artist track)
         || opt_neq (cache_album cache) (album track)
         || opt_neq (cache_albumArt cache) (albumArt track)
         || negb (Bool.eqb (cache_nowPlaying cache) (nowPlaying track))
      then true
      else
        match Date_parse (lastUpdatedIso cache) with
        | None => true
        | Some last => now - last >? cacheTtlMs config
        end
  end.
End Decision.

(** ** Strings *)

Local Open Scope nat_scope.

(** [s.substring(0, n)] and [s.substring(n)]. *)
Fixpoint take (n : nat) (s : string) : string :=
  match n, s with
  | S n', String c s' => String c (take n' s')
  | _, _ => EmptyString
  end.

Fixpoint skip (n : nat) (s : string) : string :=
  match n, s with
  | S n', String _ s' => skip n' s'
  | _, _ => s
  end.

(** The part of [s] that a matcher consumed when it stopped at the suffix
    [rest] of [s]. *)
Definition taken (s rest : string) : string :=
  take (String.length s - String.length rest) s.

(** [s.indexOf(pat)], with [None] for [-1]. *)
Fixpoint indexOf (pat s : string) : option nat :=
  if String.prefix pat s then Some 0
  else match s with
       | String _ s' => option_map S (indexOf pat s')
       | EmptyString => None
       end.

(** [s.includes(pat)]. *)
Definition includes (s pat : string) : bool :=
  match indexOf pat s with
  | Some _ => true
  | None => false
  end.

(** ** Regular expressions

    The fragment of the regular expressions of JavaScript that
    [spanPattern] is written in, with the backtracking matcher of the
    language: alternatives are tried in priority order and the first complete
    match wins.  All of it is under the [i] flag. *)

Inductive cclass : Type :=
| CAny                (* [\s\S] *)
| CNot (c : ascii).   (* [^c] *)

Inductive regex : Type :=
| Empty
| Chr (c : ascii)                      (* a pattern character *)
| Cls (cl : cclass)                    (* a character class *)
| Seq (r1 r2 : regex)
| Star (greedy : bool) (cl : cclass)   (* cl* and cl*? *)
| Group (n : nat) (r : regex).         (* the n-th capturing group *)

(** Canonicalisation of a character under the [i] flag: an ASCII letter is
    compared in upper case, any other character as it is. *)
Definition upcase (c : ascii) : ascii :=
  let n := nat_of_ascii c in
  if (97 <=? n) && (n <=? 122) then ascii_of_nat (n - 32) else c.

Definition eq_ci (a b : ascii) : bool := Ascii.eqb (upcase a) (upcase b).

Definition in_class (cl : cclass) (a : ascii) : bool :=
  match cl with
  | CAny => true
  | CNot c => negb (eq_ci a c)
  end.

(** A sequence of pattern characters. *)
Fixpoint lit (s : string) : regex :=
  match s with
  | EmptyString => Empty
  | String c s' => Seq (Chr c) (lit s')
  end.

Definition captures_t : Type := list (option string).

Fixpoint set_cap (n : nat) (v : string) (cs : captures_t) : captures_t :=
  match n, cs with
  | O, _ :: cs' => Some v :: cs'
  | S n', c :: cs' => c :: set_cap n' v cs'
  | _, [] => []
  end.

Section Matcher.
Variable R : Type.

(** Greedy star: the longest run first, then shorter ones. *)
Fixpoint starG (p : ascii -> bool) (s : string)
    (k : string -> option R) : option R :=
  match s with
  | String c s' =>
      if p c
      then match starG p s' k with
           | Some r => Some r
           | None => k s
           end
      else k s
  | EmptyString => k s
  end.

(** Lazy star: the empty run first, then longer ones. *)
Fixpoint starL (p : ascii -> bool) (s : string)
    (k : string -> option R) : option R :=
  match k s with
  | Some r => Some r
  | None =>
      match s with
      | String c s' => if p c then starL p s' k else None
      | EmptyString => None
      end
  end.

(** [matchR r s cs k]: match [r] at the front of [s], then continue with
    [k] on what is left; [None] makes the matcher backtrack. *)
Fixpoint matchR (r : regex) (s : string) (cs : captures_t)
    (k : string -> captures_t -> option R) : option R :=
  match r with
  | Empty => k s cs
  | Chr c =>
      match s with
      | String a s' => if eq_ci a c then k s' cs else None
      | EmptyString => None
      end
  | Cls cl =>
      match s with
      | String a s' => if in_class cl a then k s' cs else None
      | EmptyString => None
      end
  | Seq r1 r2 => matchR r1 s cs (fun s1 cs1 => matchR r2 s1 cs1 k)
  | Star true cl => starG (in_class cl) s (fun s' => k s' cs)
  | Star false cl => starL (in_class cl) s (fun s' => k s' cs)
  | Group n r1 =>
      matchR r1 s cs (fun s1 cs1 => k s1 (set_cap (n - 1) (taken s s1) cs1))
  end.
End Matcher.

Record MatchResult : Type := mkMatch {
  index : nat;
  matched : string;
  captures : captures_t
}.

(** [RegExp.prototype.exec] for an expression without the [g] and [y]
    flags: the first start position, from the left, at which the expression
    matches.  [ngroups] is the number of capturing groups. *)
Fixpoint exec_from (r : regex) (ngroups : nat) (pos : nat) (s : string)
    : option MatchResult :=
  match matchR r s (repeat None ngroups) (fun s' cs => Some (s', cs)) with
  | Some (s', cs) => Some (mkMatch pos (taken s s') cs)
  | None =>
      match s with
      | String _ s' => exec_from r ngroups (S pos) s'
      | EmptyString => None
      end
  end.

Definition exec (r : regex) (ngroups : nat) (s : string) : option MatchResult :=
  exec_from r ngroups 0 s.

(** [r.test(s)]. *)
Definition test (r : regex) (ngroups : nat) (s : string) : bool :=
  match exec r ngroups s with
  | Some _ => true
  | None => false
  end.

(** ** [String.prototype.replace]

    The replacement is a string, so the language expands the patterns that
    start with a dollar sign in it (the operation GetSubstitution of the
    language definition, for an expression without named groups): [$$] is
    a dollar sign, [$&] the matched text, [$`] and [$'] the text before and
    after it, [$n] and [$nn] the capture of that number when there is one;
    two digits that number no capture are read as one digit and a
    character. *)

Definition is_digit (c : ascii) : bool :=
  let n := nat_of_ascii c in (48 <=? n) && (n <=? 57).

Definition digit_val (c : ascii) : nat := nat_of_ascii c - 48.

Definition dollar : ascii := "$"%char.

(** The replacement of [$n] for the capture index [n], [ref] being the text
    of the reference itself. *)
Definition capture_ref (captures : captures_t) (n : nat) (ref : string)
    : string :=
  if (1 <=? n) && (n <=? List.length captures)
  then match nth (n - 1) captures None with
       | Some c => c
       | None => ""
       end
  else ref.

Fixpoint getSubstitution (matched str : string) (position : nat)
    (captures : captures_t) (template : string) : string :=
  match template with
  | EmptyString => ""
  | String c t1 =>
      if negb (Ascii.eqb c dollar) then
        String c (getSubstitution matched str position captures t1)
      else
        match t1 with
        | EmptyString => "$"
        | String d t2 =>
            if Ascii.eqb d dollar then
              "$" ++ getSubstitution matched str position captures t2
            else if Ascii.eqb d "`"%char then
              take position str
                ++ getSubstitution matched str position captures t2
            else if Ascii.eqb d "&"%char then
              matched ++ getSubstitution matched str position captures t2
            else if Ascii.eqb d "'"%char then
              skip (Nat.min (position + String.length matched)
                            (String.length str)) str
                ++ getSubstitution matched str position captures t2
            else if is_digit d then
              let one :=
                capture_ref captures (digit_val d) (String dollar (String d ""))
                  ++ getSubstitution matched str position captures t2 in
              match t2 with
              | String d2 t3 =>
                  if is_digit d2 then
                    let index := 10 * digit_val d + digit_val d2 in
                    if List.length captures <? index then one
                    else
                      capture_ref captures index
                          (String dollar (String d (String d2 "")))
                        ++ getSubstitution matched str position captures t3
                  else one
              | EmptyString => one
              end
            else
              "$" ++ getSubstitution matched str position captures t1
        end
  end.

(** [str.replace(r, template)] for a regular expression [r] without the
    [g] flag. *)
Definition replace_regex (str : string) (r : regex) (ngroups : nat)
    (template : string) : string :=
  match exec r ngroups str with
  | None => str
  | Some m =>
      take (index m) str
        ++ getSubstitution (matched m) str (index m) (captures m) template
        ++ skip (index m + String.length (matched m)) str
  end.

(** [str.replace(pat, template)] for a string [pat]: its first occurrence
    is replaced, and there are no captures. *)
Definition replace_string (str pat template : string) : string :=
  match indexOf pat str with
  | None => str
  | Some pos =>
      take pos str
        ++ getSubstitution pat str pos [] template
        ++ skip (pos + String.length pat) str
  end.

(** ** Document patcher: the text of the new README *)

(** [<span[^>]*data-music[^>]*>], the expression of the first group. *)
Definition openingMarker : regex :=
  Seq (lit "<span")
 (Seq (Star true (CNot ">"))
 (Seq (lit "data-music")
 (Seq (Star true (CNot ">"))
      (Chr ">")))).

(** [/(<span[^>]*data-music[^>]*>)[\s\S]*?(<\/span>)/i] *)
Definition spanPattern : regex :=
  Seq (Group 1 openingMarker)
 (Seq (Star false CAny)
      (Group 2 (lit "</span>"))).

Definition spanGroups : nat := 2.

(** Lines 141 to 153 of [updateReadme]: the new text of the README, or
    [None] when neither the span nor the placeholder is found. *)
Definition nextReadme (config : EnvConfig) (decoded formatted : string)
    : option string :=
  if test spanPattern spanGroups decoded then
    Some (replace_regex decoded spanPattern spanGroups
            ("$1" ++ formatted ++ "$2"))
  else if includes decoded (placeholder config) then
    let replacement := "<span data-music>" ++ formatted ++ "</span>" in
    Some (replace_string decoded (placeholder config) replacement)
  else None.

(** ** The outside world

    What the program exchanges with the network, the file system, the clock
    and the console. *)

Local Open Scope Z_scope.

Record JsError : Type := mkJsError {
  message : string;
  code : option string
}.

(** [new Error(msg)]. *)
Definition Error (msg : string) : JsError := mkJsError msg None.

(** A response of [fetch]; [json] is [None] when [response.json()]
    rejects. *)
Record Response (T : Type) : Type := mkResponse {
  ok : bool;
  status : Z;
  json : option T
}.

Record HashText : Type := mkHashText { hash_text : option string }.
Record LastFmImage : Type := mkLastFmImage {
  image_text : option string;
  size : option string
}.
Record LastFmDate : Type := mkLastFmDate { uts : option string }.
Record LastFmAttr : Type := mkLastFmAttr { nowplaying : option string }.

Record LastFmTrack : Type := mkLastFmTrack {
  name : option string;
  track_artist : option HashText;
  track_album : option HashText;
  image : option (list LastFmImage);
  date : option LastFmDate;
  attr : option LastFmAttr
}.

Record RecentTracks : Type := mkRecentTracks {
  track : option (list LastFmTrack)
}.

Record LastFmResponse : Type := mkLastFmResponse {
  recenttracks : option RecentTracks
}.

Record GithubContentResponse : Type := mkGithubContentResponse {
  type : option string;
  sha : string;
  content : option string;
  encoding : option string
}.

Record Headers : Type := mkHeaders {
  Authorization : option string;
  Accept : option string;
  User_Agent : string
}.

Record PutBody : Type := mkPutBody {
  put_message : string;
  put_content : string;
  put_sha : string;
  put_branch : string
}.

Inductive Eff : Type -> Type :=
| Date_now : Eff Z
| Fetch_lastfm (api_key user : string) (headers : Headers)
    : Eff (JsError + Response LastFmResponse)
| Fetch_get (url : string) (headers : Headers)
    : Eff (JsError + Response GithubContentResponse)
| Fetch_put (url : string) (headers : Headers) (body : PutBody)
    : Eff (JsError + Response unit)
| ReadFile (path : string) : Eff (JsError + string)
| Mkdir (path : string) : Eff (JsError + unit)
| WriteFile (path data : string) : Eff (JsError + unit)
| Console_log (msg : string) : Eff unit
| Console_warn (msg : string) : Eff unit.

(** A program: it returns, throws, or performs an effect and goes on with
    the answer. *)
Inductive Prog (A : Type) : Type :=
| Ret (a : A)
| Throw (e : JsError)
| Do (X : Type) (eff : Eff X) (k : X -> Prog A).

Arguments Ret {A} a.
Arguments Throw {A} e.
Arguments Do {A X} eff k.

Fixpoint bind {A B : Type} (p : Prog A) (f : A -> Prog B) : Prog B :=
  match p with
  | Ret a => f a
  | Throw e => Throw e
  | Do eff k => Do eff (fun x => bind (k x) f)
  end.

(** [try { p } catch (error) { h error }]. *)
Fixpoint catch {A : Type} (p : Prog A) (h : JsError -> Prog A) : Prog A :=
  match p with
  | Ret a => Ret a
  | Throw e => h e
  | Do eff k => Do eff (fun x => catch (k x) h)
  end.

Notation "x <- p ;; q" := (bind p (fun x => q))
  (at level 61, p at next level, right associativity).
Notation "p ;;; q" := (bind p (fun _ => q))
  (at level 61, right associativity).

Definition perform {X : Type} (eff : Eff X) : Prog X := Do eff Ret.

(** [await] on a promise that may reject. *)
Definition await {X : Type} (eff : Eff (JsError + X)) : Prog X :=
  Do eff (fun r => match r with
                   | inl e => Throw e
                   | inr x => Ret x
                   end).

(** [await response.json()]. *)
Definition response_json {T : Type} (r : Response T) : Prog T :=
  match json r with
  | Some v => Ret v
  | None => Throw (mkJsError "Unexpected end of JSON input" None)
  end.

(** ** The program *)

(** [payload.recenttracks?.track?.[0]]. *)
Definition most_recent (payload : LastFmResponse) : option LastFmTrack :=
  match recenttracks payload with
  | Some rts =>
      match track rts with
      | Some l => List.nth_error l 0
      | None => None
      end
  | None => None
  end.

(** [recent.date?.uts]. *)
Definition date_uts (recent : LastFmTrack) : option string :=
  match date recent with
  | Some d => uts d
  | None => None
  end.

Section Program.
Context {rt : Runtime}.
Variable config : EnvConfig.

(** [images.find(img => img.size === wanted)?.["#text"]]. *)
Definition find_image (images : list LastFmImage) (wanted : string)
    : option string :=
  match List.find (fun img => negb (opt_neq (size img) (Some wanted))) images with
  | Some img => image_text img
  | None => None
  end.

Definition fetchRecentTrack : Prog (option TrackInfo) :=
  response <- await (Fetch_lastfm (lastfmApiKey config)
                       (lastfmUsername config)
                       (mkHeaders None None (userAgent config))) ;;
  if negb (ok response) then
    Throw (Error ("Last.fm request failed ("
                    ++ string_of_Z (status response) ++ ")"))
  else
    payload <- response_json response ;;
    match most_recent payload with
    | None => Ret None
    | Some recent =>
        let images :=
          match image recent with
          | Some l => l
          | None => []
          end in
        let albumArt :=
          js_or (find_image images "extralarge")
            (js_or (find_image images "large")
                   (find_image images "medium")) in
        let nowPlaying :=
          negb (opt_neq
                  (match attr recent with
                   | Some a => nowplaying a
                   | None => None
                   end)
                  (Some "true")) in
        uts <- (if truthy (date_uts recent)
                then Ret (Number_of_string (tmpl (date_uts recent)) * 1000)
                else perform Date_now) ;;
        Ret (Some
               (mkTrackInfo
                  (nullish (name recent) "Unknown track")
                  (nullish (match track_artist recent with
                            | Some a => hash_text a
                            | None => None
                            end) "Unknown artist")
                  (match track_album recent with
                   | Some a => hash_text a
                   | None => None
                   end)
                  albumArt
                  nowPlaying
                  uts))
    end.

(** The constants [endpoint] and [headers] of [updateReadme], and its
    [decoded], the text of the README that the host sent. *)
Definition endpoint : string :=
  "https://api.github.com/repos/" ++ githubOwner config ++ "/"
    ++ githubRepo config ++ "/contents/" ++ readmePath config.

Definition headers : Headers :=
  mkHeaders (Some ("Bearer " ++ githubToken config))
            (Some "application/vnd.github+json")
            (userAgent config).

Definition decoded (data : GithubContentResponse) : string :=
  Buffer_decode (tmpl (content data)) (nullish (encoding data) "base64").

Definition updateReadme (track : TrackInfo) : Prog bool :=
  response <- await (Fetch_get (endpoint ++ "?ref=" ++ githubBranch config)
                       headers) ;;
  if negb (ok response) then
    Throw (Error ("GitHub README fetch failed ("
                    ++ string_of_Z (status response) ++ ")"))
  else
    data <- response_json response ;;
    if opt_neq (type data) (Some "file") || negb (truthy (content data))
    then Throw (Error "README content missing in GitHub response")
    else
      let decoded := decoded data in
      now <- perform Date_now ;;
      let formatted := formatTrack now track in
      match nextReadme config decoded formatted with
      | None =>
          perform (Console_warn
                     ("[music] Placeholder " ++ placeholder config
                        ++ " or data-music span not found – skipping update")) ;;;
          Ret false
      | Some nextReadme =>
          if (nextReadme =? decoded)%string then
            perform (Console_log "[music] README already up-to-date") ;;;
            Ret false
          else
            putResponse <-
              await (Fetch_put endpoint headers
                       (mkPutBody
                          ("docs(readme): music -> " ++ title track
                             ++ " by " ++ artist track)
                          (Buffer_base64 nextReadme)
                          (sha data)
                          (githubBranch config))) ;;
            if negb (ok putResponse) then
              Throw (Error ("GitHub README update failed ("
                              ++ string_of_Z (status putResponse) ++ ")"))
            else Ret true
      end.

Definition loadCache : Prog (option CacheEntry) :=
  catch
    (raw <- await (ReadFile (cacheFile config)) ;;
     match JSON_parse_cache raw with
     | Some cache => Ret cache
     | None => Throw (mkJsError "Unexpected token in JSON" None)
     end)
    (fun error =>
       (if opt_neq (code error) (Some "ENOENT")
        then perform (Console_warn "[music] Unable to read cache")
        else Ret tt) ;;;
       Ret None).

Definition saveCache (track : TrackInfo) : Prog unit :=
  await (Mkdir (path_dirname (cacheFile config))) ;;;
  now <- perform Date_now ;;
  let entry :=
    mkCacheEntry (title track) (artist track) (album track)
                 (albumArt track) (nowPlaying track)
                 (Date_toISOString now) in
  await (WriteFile (cacheFile config) (JSON_stringify_cache entry)).

(** One poll cycle.  [shouldUpdate] reads the clock in its last line
    only; here the clock is read before the call, which no other effect
    can tell apart. *)
Definition tick : Prog unit :=
  track <- fetchRecentTrack ;;
  match track with
  | None => perform (Console_warn "[music] No recent tracks found")
  | Some track =>
      cache <- loadCache ;;
      now <- perform Date_now ;;
      if negb (shouldUpdate config now track cache) then
        perform (Console_log ("[music] No change (" ++ title track
                                ++ " - " ++ artist track ++ ")"))
      else
        updated <- updateReadme track ;;
        if updated : bool then
          saveCache track ;;;
          perform (Console_log ("[music] README updated -> "
                                  ++ title track ++ " - " ++ artist track))
        else Ret tt
  end.
End Program.

(** ** Executions *)

(** One exchange with the outside world: the effect and its answer. *)
Inductive Entry : Type :=
| entry (X : Type) (eff : Eff X) (answer : X).

Arguments entry {X} eff answer.

Inductive Outcome (A : Type) : Type :=
| Returned (a : A)
| Threw (e : JsError).

Arguments Returned {A} a.
Arguments Threw {A} e.

(** [runs p tr o]: when the outside world answers as [tr] records, [p]
    performs exactly the effects of [tr], in this order, and ends in [o]. *)
Inductive runs {A : Type} : Prog A -> list Entry -> Outcome A -> Prop :=
| runs_Ret (a : A) : runs (Ret a) [] (Returned a)
| runs_Throw (e : JsError) : runs (Throw e) [] (Threw e)
| runs_Do (X : Type) (eff : Eff X) (k : X -> Prog A) (x : X)
    (tr : list Entry) (o : Outcome A) :
    runs (k x) tr o -> runs (Do eff k) (entry eff x :: tr) o.

(** The outside world as a state machine that answers effects. *)
Definition World (S : Type) : Type := forall X : Type, Eff X -> S -> X * S.

Fixpoint run {A S : Type} (w : World S) (p : Prog A) (s : S)
    : list Entry * Outcome A * S :=
  match p with
  | Ret a => ([], Returned a, s)
  | Throw e => ([], Threw e, s)
  | Do eff k =>
      let (x, s') := w _ eff s in
      let '(tr, o, s'') := run w (k x) s' in
      (entry eff x :: tr, o, s'')
  end.

Definition is_put (en : Entry) : bool :=
  match en with
  | entry (Fetch_put _ _ _) _ => true
  | _ => false
  end.

Definition is_writeFile (en : Entry) : bool :=
  match en with
  | entry (WriteFile _ _) _ => true
  | _ => false
  end.

(** The runs of a program, computed from its text. *)
Fixpoint behaves {A : Type} (p : Prog A) (tr : list Entry) (o : Outcome A)
    : Prop :=
  match p with
  | Ret a => tr = [] /\ o = Returned a
  | Throw e => tr = [] /\ o = Threw e
  | Do eff k =>
      exists x tr', tr = entry eff x :: tr' /\ behaves (k x) tr' o
  end.

(** The write to the README was answered, and not with a success. *)
Definition put_rejected (en : Entry) : bool :=
  match en with
  | entry eff answer =>
      match eff in Eff X return X -> bool with
      | Fetch_put _ _ _ =>
          fun a => match a with
                   | inr r => negb (ok r)
                   | inl _ => false
                   end
      | _ => fun _ => false
      end answer
  end.

(** An effect that writes neither to the README nor to the cache file. *)
Definition quiet (en : Entry) : bool :=
  negb (is_put en || is_writeFile en).

(** Every effect that a program can perform satisfies [P]. *)
Inductive effects_in {A : Type} (P : Entry -> bool) : Prog A -> Prop :=
| effects_Ret (a : A) : effects_in P (Ret a)
| effects_Throw (e : JsError) : effects_in P (Throw e)
| effects_Do (X : Type) (eff : Eff X) (k : X -> Prog A) :
    (forall x : X, P (entry eff x) = true) ->
    (forall x : X, effects_in P (k x)) ->
    effects_in P (Do eff k).

(** ** A runtime for the examples

    Dates are those of the language for the format that [toISOString]
    prints ([YYYY-MM-DDTHH:mm:ss.sssZ]); base64 is replaced by the identity
    encoding and the only JSON text that is read back is [null]. *)

Definition digit_at (s : string) (i : nat) : option Z :=
  match String.get i s with
  | Some c => if is_digit c then Some (Z.of_nat (digit_val c)) else None
  | None => None
  end.

Fixpoint number_at (s : string) (i len : nat) (acc : Z) : option Z :=
  match len with
  | O => Some acc
  | S len' =>
      match digit_at s i with
      | Some d => number_at s (S i) len' (10 * acc + d)
      | None => None
      end
  end.

Definition char_is (s : string) (i : nat) (c : ascii) : bool :=
  match String.get i s with
  | Some a => Ascii.eqb a c
  | None => false
  end.

(** Days from 1970-01-01 to the day [d] of the month [m] of the year [y]. *)
Definition days_from_civil (y m d : Z) : Z :=
  let y' := if m <=? 2 then y - 1 else y in
  let era := y' / 400 in
  let yoe := y' - era * 400 in
  let doy := (153 * ((m + 9) mod 12) + 2) / 5 + d - 1 in
  let doe := yoe * 365 + yoe / 4 - yoe / 100 + doy in
  era * 146097 + doe - 719468.

Definition parse_iso (s : string) : option Z :=
  if (String.length s =? 24)%nat
     && char_is s 4 "-" && char_is s 7 "-" && char_is s 10 "T"
     && char_is s 13 ":" && char_is s 16 ":" && char_is s 19 "."
     && char_is s 23 "Z"
  then
    match number_at s 0 4 0, number_at s 5 2 0, number_at s 8 2 0,
          number_at s 11 2 0, number_at s 14 2 0, number_at s 17 2 0,
          number_at s 20 3 0 with
    | Some y, Some mo, Some d, Some h, Some mi, Some sec, Some ms =>
        if (1 <=? mo) && (mo <=? 12) && (1 <=? d) && (d <=? 31)
           && (h <=? 23) && (mi <=? 59) && (sec <=? 59)
        then Some ((((days_from_civil y mo d * 24 + h) * 60 + mi) * 60 + sec)
                     * 1000 + ms)
        else None
    | _, _, _, _, _, _, _ => None
    end
  else None.

(** [n] in decimal, padded with zeros to [width] digits. *)
Definition pad (width : nat) (n : Z) : string :=
  let s := string_of_Z n in
  String.concat "" (repeat "0" (width - String.length s)) ++ s.

Definition print_iso (ms : Z) : string :=
  let days := ms / 86400000 in
  let rest := ms mod 86400000 in
  let z := days + 719468 in
  let era := z / 146097 in
  let doe := z - era * 146097 in
  let yoe := (doe - doe / 1460 + doe / 36524 - doe / 146096) / 365 in
  let doy := doe - (365 * yoe + yoe / 4 - yoe / 100) in
  let mp := (5 * doy + 2) / 153 in
  let d := doy - (153 * mp + 2) / 5 + 1 in
  let m := if mp <? 10 then mp + 3 else mp - 9 in
  let y := yoe + era * 400 + (if m <=? 2 then 1 else 0) in
  pad 4 y ++ "-" ++ pad 2 m ++ "-" ++ pad 2 d ++ "T"
    ++ pad 2 (rest / 3600000) ++ ":" ++ pad 2 (rest / 60000 mod 60) ++ ":"
    ++ pad 2 (rest / 1000 mod 60) ++ "." ++ pad 3 (rest mod 1000) ++ "Z".

Definition sampleRuntime : Runtime := {|
  Date_parse := parse_iso;
  Date_toISOString := print_iso;
  Number_of_string := fun s =>
    match NilZero.int_of_string s with
    | Some d => Z.of_int d
    | None => 0
    end;
  JSON_stringify_cache := fun c =>
    "{ title: " ++ cache_title c ++ ", artist: " ++ cache_artist c
      ++ ", lastUpdatedIso: " ++ lastUpdatedIso c ++ " }";
  JSON_parse_cache := fun s => if (s =? "null")%string then Some None else None;
  Buffer_decode := fun content _ => content;
  Buffer_base64 := fun s => s;
  path_dirname := fun _ => ".cache"
|}.

Definition sampleConfig : EnvConfig :=
  mkEnvConfig "key" "user" "token" "april-ivy" "april-ivy" "main"
    "README.md" "%music%" ".cache/music.json" 30000 600000 "april-ivy".

(** ** A document host for the examples

    A host that keeps one README under a revision counter and accepts a
    write only when it carries the current revision.  When [racing] is
    set, somebody else commits right after each read of the README. *)

Record HostState : Type := mkHostState {
  readme : string;
  revision : nat;
  racing : bool;
  clock : Z;
  scrobbles : LastFmResponse;
  cache_file : option string
}.

Definition sha_of (revision : nat) : string :=
  "rev" ++ string_of_Z (Z.of_nat revision).

Definition sampleWorld : World HostState :=
  fun X eff =>
    match eff in Eff X return HostState -> X * HostState with
    | Date_now => fun s => (clock s, s)
    | Fetch_lastfm _ _ _ =>
        fun s => (inr (mkResponse true 200 (Some (scrobbles s))), s)
    | Fetch_get _ _ =>
        fun s =>
          (inr (mkResponse true 200
                  (Some (mkGithubContentResponse (Some "file")
                           (sha_of (revision s)) (Some (readme s))
                           (Some "base64")))),
           if racing s
           then mkHostState (readme s) (S (revision s)) (racing s) (clock s)
                  (scrobbles s) (cache_file s)
           else s)
    | Fetch_put _ _ body =>
        fun s =>
          if (put_sha body =? sha_of (revision s))%string
          then (inr (mkResponse true 200 (Some tt)),
                mkHostState (put_content body) (S (revision s)) (racing s)
                  (clock s) (scrobbles s) (cache_file s))
          else (inr (mkResponse false 409 None), s)
    | ReadFile _ =>
        fun s =>
          match cache_file s with
          | Some data => (inr data, s)
          | None => (inl (mkJsError "no such file" (Some "ENOENT")), s)
          end
    | Mkdir _ => fun s => (inr tt, s)
    | WriteFile _ data =>
        fun s =>
          (inr tt,
           mkHostState (readme s) (revision s) (racing s) (clock s)
             (scrobbles s) (Some data))
    | Console_log _ => fun s => (tt, s)
    | Console_warn _ => fun s => (tt, s)
    end.

(** The scrobbles of a user whose most recent track is playing now: the
    record has no date. *)
Definition sampleScrobbles : LastFmResponse :=
  mkLastFmResponse
    (Some (mkRecentTracks
             (Some [ mkLastFmTrack (Some "Song A")
                       (Some (mkHashText (Some "Artist X")))
                       (Some (mkHashText (Some "Album Y")))
                       (Some [ mkLastFmImage (Some "https://x/s.jpg") (Some "small");
                               mkLastFmImage (Some "https://x/a.jpg") (Some "extralarge") ])
                       None
                       (Some (mkLastFmAttr (Some "true"))) ]))).


Definition sampleHost (doc : string) (racing : bool) : HostState :=
  mkHostState doc 7 racing 1704067200000 sampleScrobbles None.


(** ** Notions of the specification *)

(** The five compared fields of a status and of a cache entry agree. *)
Definition same_fields (track : TrackInfo) (cache : CacheEntry) : Prop :=
  cache_title cache = title track
  /\ cache_artist cache = artist track
  /\ cache_album cache = album track
  /\ cache_albumArt cache = albumArt track
  /\ cache_nowPlaying cache = nowPlaying track.

(** [w] is the pattern text [t], up to the case of the letters. *)
Fixpoint ci_eq (w t : string) : bool :=
  match w, t with
  | EmptyString, EmptyString => true
  | String a w', String c t' => eq_ci a c && ci_eq w' t'
  | _, _ => false
  end.

(** [s] starts with the pattern text [t], up to the case of the letters. *)
Fixpoint prefix_ci (t s : string) : bool :=
  match t, s with
  | EmptyString, _ => true
  | String c t', String a s' => eq_ci a c && prefix_ci t' s'
  | String _ _, EmptyString => false
  end.

(** The pattern text [t] occurs in [s], up to the case of the letters. *)
Fixpoint occurs_ci (t s : string) : bool :=
  prefix_ci t s
  || match s with
     | String _ s' => occurs_ci t s'
     | EmptyString => false
     end.

(** Every character of [s] satisfies [p]. *)
Fixpoint all_chars (p : ascii -> bool) (s : string) : bool :=
  match s with
  | EmptyString => true
  | String a s' => p a && all_chars p s'
  end.

(** [s] cut at its first character that [p] rejects: what is before it and
    what is after it. *)
Fixpoint split_at (p : ascii -> bool) (s : string) : option (string * string) :=
  match s with
  | EmptyString => None
  | String a s' =>
      if p a
      then match split_at p s' with
           | Some (u, v) => Some (String a u, v)
           | None => None
           end
      else Some (EmptyString, s')
  end.

(** A character other than [>]. *)
Definition not_gt : ascii -> bool := in_class (CNot ">").

(** The replacement text has no dollar sign. *)
Definition no_dollar (s : string) : bool :=
  all_chars (fun a => negb (Ascii.eqb a dollar)) s.

(** The text of an opening marker: [<span], then characters other than
    [>] among which [data-music] occurs, then [>]. *)
Definition open_marker (g : string) : Prop :=
  exists w u : string,
    g = w ++ u ++ ">"
    /\ ci_eq w "<span" = true
    /\ all_chars not_gt u = true
    /\ occurs_ci "data-music" u = true.

(** No closing marker starts in [mid] when [tail] follows it. *)
Definition first_closing (mid tail : string) : Prop :=
  forall a b : string,
    mid = a ++ b -> b <> "" -> prefix_ci "</span>" (b ++ tail) = false.

(** The image element of the rendered snippet, with its fixed dimensions. *)
Definition img_tag (url : string) : string :=
  "<img src=" ++ dq ++ url ++ dq ++ " alt=" ++ dq ++ dq
    ++ " width=" ++ dq ++ "128" ++ dq ++ " height=" ++ dq ++ "128" ++ dq
    ++ " align=" ++ dq ++ "left" ++ dq ++ " />".

(** The line of the album, when the status has one. *)
Definition album_line (track : TrackInfo) : string :=
  if truthy (album track) then "<br/>from " ++ tmpl (album track) else "".

(** The reduced block of a status without artwork. *)
Definition text_block (title artist : string) : string :=
  "<samp><strong>" ++ title ++ "</strong><br/>by " ++ artist ++ "</samp>".

(** The marker of a track that is playing now. *)
Definition now_playing_marker : string := "<em>now playing</em>".

Definition set_playedAt (track : TrackInfo) (p : Z) : TrackInfo :=
  mkTrackInfo (title track) (artist track) (album track) (albumArt track)
    (nowPlaying track) p.

(** ** Sample data *)

(** The state of the outside world after a run. *)
Definition final {A S : Type} (r : list Entry * Outcome A * S) : S := snd r.
Definition trace {A S : Type} (r : list Entry * Outcome A * S) : list Entry :=
  fst (fst r).
Definition outcome {A S : Type} (r : list Entry * Outcome A * S) : Outcome A :=
  snd (fst r).

Definition sampleTrack : TrackInfo :=
  mkTrackInfo "Song A" "Artist X" (Some "Album Y") (Some "https://x/a.jpg")
    false 1704067000000.

Definition sampleCache : CacheEntry :=
  mkCacheEntry "Song A" "Artist X" (Some "Album Y") (Some "https://x/a.jpg")
    false "2024-01-01T00:00:00.000Z".

(** ** Process configuration

    [process.env] is a function from the names of the variables to their
    values.  [Number] on the text of a variable is [Number_parse], with
    [None] for [NaN]; the numbers of the configuration are integers of
    milliseconds. *)

Definition ProcessEnv : Type := string -> option string.

(** [a || b] for a default [b] that is a string. *)
Definition or_default (a : option string) (b : string) : string :=
  if truthy a then tmpl a else b.

Definition requireEnv (name : string) (value : option string)
    : Outcome string :=
  if negb (truthy value)
  then Threw (Error ("Missing required env var " ++ name))
  else Returned (tmpl value).

Section Configuration.
Variable Number_parse : string -> option Z.
Variable path_resolve : string -> string.

Definition toNumber (value : option string) (fallback min : Z) : Z :=
  let parsed := if truthy value then Number_parse (tmpl value)
                else Some fallback in
  match parsed with
  | None => fallback
  | Some parsed => Z.max min parsed
  end.

(** The fields of the object are evaluated in the order in which they are
    written, so the first required variable that is missing is the one that
    throws. *)
Definition getConfig (env : ProcessEnv) : Outcome EnvConfig :=
  match requireEnv "LASTFM_API_KEY" (env "LASTFM_API_KEY") with
  | Threw e => Threw e
  | Returned lastfmApiKey =>
  match requireEnv "LASTFM_USERNAME" (env "LASTFM_USERNAME") with
  | Threw e => Threw e
  | Returned lastfmUsername =>
  match requireEnv "GITHUB_TOKEN" (env "GITHUB_TOKEN") with
  | Threw e => Threw e
  | Returned githubToken =>
  match requireEnv "GITHUB_OWNER" (env "GITHUB_OWNER") with
  | Threw e => Threw e
  | Returned githubOwner =>
  match requireEnv "GITHUB_REPO" (env "GITHUB_REPO") with
  | Threw e => Threw e
  | Returned githubRepo =>
      Returned
        (mkEnvConfig lastfmApiKey lastfmUsername githubToken githubOwner
           githubRepo
           (or_default (env "GITHUB_BRANCH") "main")
           (or_default (env "README_PATH") "README.md")
           (or_default (env "MUSIC_PLACEHOLDER") "%music%")
           (path_resolve
              (or_default (env "MUSIC_CACHE_FILE") ".cache/music.json"))
           (toNumber (env "UPDATE_INTERVAL_MS") 30000 5000)
           (toNumber (env "CACHE_TTL_MS") (10 * 60 * 1000) 60000)
           (or_default (env "APP_USER_AGENT") "april-ivy"))
  end end end end end.
End Configuration.

(** The required variables, in the order in which [getConfig] reads them. *)
Definition required_vars : list string :=
  [ "LASTFM_API_KEY"; "LASTFM_USERNAME"; "GITHUB_TOKEN"; "GITHUB_OWNER";
    "GITHUB_REPO" ].

(** An environment for the examples, as a list of bindings. *)
Fixpoint env_of (bindings : list (string * string)) : ProcessEnv :=
  fun name =>
    match bindings with
    | [] => None
    | (k, v) :: rest => if (k =? name)%string then Some v else env_of rest name
    end.

(** [Number] on the decimal integers, [NaN] on any other text. *)
Definition sampleNumber (s : string) : option Z :=
  match NilZero.int_of_string s with
  | Some d => Some (Z.of_int d)
  | None => None
  end.

Definition sampleEnv : ProcessEnv :=
  env_of [ ("LASTFM_API_KEY", "key"); ("LASTFM_USERNAME", "user");
           ("GITHUB_TOKEN", "token"); ("GITHUB_OWNER", "april-ivy");
           ("GITHUB_REPO", "april-ivy"); ("UPDATE_INTERVAL_MS", "1000");
           ("CACHE_TTL_MS", "soon"); ("MUSIC_PLACEHOLDER", "") ].

(** ** Status cache *)

(** The entry that [saveCache] builds for a track at the clock reading
    [now]. *)
Definition cache_entry_of {rt : Runtime} (track : TrackInfo) (now : Z)
    : CacheEntry :=
  mkCacheEntry (title track) (artist track) (album track) (albumArt track)
    (nowPlaying track) (Date_toISOString now).

(** What the file system answered to the reads of a file in a run. *)
Definition read_answer (en : Entry) : option (JsError + string) :=
  match en with
  | entry eff answer =>
      match eff in Eff X return X -> option (JsError + string) with
      | ReadFile _ => fun a => Some a
      | _ => fun _ => None
      end answer
  end.

Fixpoint read_answers (tr : list Entry) : list (JsError + string) :=
  match tr with
  | [] => []
  | en :: tr' =>
      match read_answer en with
      | Some a => a :: read_answers tr'
      | None => read_answers tr'
      end
  end.




(** ** A runtime that stores the cache, for the examples

    The text of a cache entry is its six fields on six lines; it is read
    back field by field. *)

Definition nl : string := String "010"%char EmptyString.

Definition print_option (o : option string) : string :=
  match o with
  | Some s => "S" ++ s
  | None => "N"
  end.

Definition parse_option (s : string) : option (option string) :=
  match s with
  | String "S" s' => Some (Some s')
  | String "N" EmptyString => Some None
  | _ => None
  end.

(** The lines of a text. *)
Fixpoint lines_of (s : string) (line : string) : list string :=
  match s with
  | EmptyString => [line]
  | String c s' =>
      if Ascii.eqb c "010" then line :: lines_of s' ""
      else lines_of s' (line ++ String c "")
  end.

Definition print_cache (c : CacheEntry) : string :=
  cache_title c ++ nl ++ cache_artist c ++ nl
    ++ print_option (cache_album c) ++ nl
    ++ print_option (cache_albumArt c) ++ nl
    ++ (if cache_nowPlaying c then "1" else "0") ++ nl
    ++ lastUpdatedIso c.

Definition parse_cache (s : string) : option (option CacheEntry) :=
  if (s =? "null")%string then Some None
  else
    match lines_of s "" with
    | [ t; a; al; art; np; iso ] =>
        match parse_option al, parse_option art with
        | Some al', Some art' =>
            if (np =? "1")%string
            then Some (Some (mkCacheEntry t a al' art' true iso))
            else if (np =? "0")%string
            then Some (Some (mkCacheEntry t a al' art' false iso))
            else None
        | _, _ => None
        end
    | _ => None
    end.

Definition storingRuntime : Runtime := {|
  Date_parse := parse_iso;
  Date_toISOString := print_iso;
  Number_of_string := fun s =>
    match sampleNumber s with
    | Some n => n
    | None => 0
    end;
  JSON_stringify_cache := print_cache;
  JSON_parse_cache := parse_cache;
  Buffer_decode := fun content _ => content;
  Buffer_base64 := fun s => s;
  path_dirname := fun _ => ".cache"
|}.

(** A host whose cache file holds [data]. *)
Definition cachedHost (data : option string) : HostState :=
  mkHostState "# Hi <span data-music>old</span> bye" 7 false 1704067200000
    sampleScrobbles data.

(** ** Status provider *)

(** [recent.image || []]. *)
Definition images_of (recent : LastFmTrack) : list LastFmImage :=
  match image recent with
  | Some l => l
  | None => []
  end.

(** The artwork that [fetchRecentTrack] picks among the images of a
    record. *)
Definition pick_albumArt (images : list LastFmImage) : option string :=
  js_or (find_image images "extralarge")
    (js_or (find_image images "large") (find_image images "medium")).

(** [recent["@attr"]?.nowplaying]. *)
Definition attr_nowplaying (recent : LastFmTrack) : option string :=
  match attr recent with
  | Some a => nowplaying a
  | None => None
  end.

(** The status that [fetchRecentTrack] returns for a record and a played-at
    time. *)
Definition track_of_record (recent : LastFmTrack) (uts : Z) : TrackInfo :=
  mkTrackInfo
    (nullish (name recent) "Unknown track")
    (nullish (match track_artist recent with
              | Some a => hash_text a
              | None => None
              end) "Unknown artist")
    (match track_album recent with
     | Some a => hash_text a
     | None => None
     end)
    (pick_albumArt (images_of recent))
    (negb (opt_neq (attr_nowplaying recent) (Some "true")))
    uts.

Definition is_lastfm (en : Entry) : bool :=
  match en with
  | entry (Fetch_lastfm _ _ _) _ => true
  | _ => false
  end.



Definition emptyHost : HostState :=
  mkHostState "x %music% y" 7 false 1704067200000
    (mkLastFmResponse (Some (mkRecentTracks (Some [])))) None.

(** ** Poll cycle *)

(** The provider answered with a success that has no track record. *)
Definition lastfm_empty (en : Entry) : bool :=
  match en with
  | entry eff answer =>
      match eff in Eff X return X -> bool with
      | Fetch_lastfm _ _ _ =>
          fun a =>
            match a with
            | inr response =>
                ok response
                && match json response with
                   | Some payload =>
                       match most_recent payload with
                       | Some _ => false
                       | None => true
                       end
                   | None => false
                   end
            | inl _ => false
            end
      | _ => fun _ => false
      end answer
  end.

(** The log of a cycle that decides not to update. *)
Definition no_change_log (track : TrackInfo) : string :=
  "[music] No change (" ++ title track ++ " - " ++ artist track ++ ")".

(** The log of a cycle that has updated the README. *)
Definition updated_log (track : TrackInfo) : string :=
  "[music] README updated -> " ++ title track ++ " - " ++ artist track.

(** The body of the write that [updateReadme] sends for a new text of the
    README. *)
Definition put_body {rt : Runtime} (config : EnvConfig) (track : TrackInfo)
    (data : GithubContentResponse) (next : string) : PutBody :=
  mkPutBody
    ("docs(readme): music -> " ++ title track ++ " by " ++ artist track)
    (Buffer_base64 next) (sha data) (githubBranch config).

(** A host whose README has neither a tagged region nor the placeholder. *)
Definition bareHost : HostState :=
  mkHostState "# Hi, nothing to patch here" 7 false 1704067200000
    sampleScrobbles None.

(** ** Main loop

    [main] adds two effects to those of a poll cycle: [console.error] and
    the timer of [sleep]. *)

Inductive MainEff : Type -> Type :=
| Of_tick (X : Type) (eff : Eff X) : MainEff X
| Console_error (msg : string) : MainEff unit
| SetTimeout (ms : Z) : MainEff unit.

Arguments Of_tick {X} eff.

Inductive MainProg (A : Type) : Type :=
| MRet (a : A)
| MThrow (e : JsError)
| MDo (X : Type) (eff : MainEff X) (k : X -> MainProg A).

Arguments MRet {A} a.
Arguments MThrow {A} e.
Arguments MDo {A X} eff k.

Fixpoint mbind {A B : Type} (p : MainProg A) (f : A -> MainProg B)
    : MainProg B :=
  match p with
  | MRet a => f a
  | MThrow e => MThrow e
  | MDo eff k => MDo eff (fun x => mbind (k x) f)
  end.

(** [try { p } catch (error) { h error }]. *)
Fixpoint mcatch {A : Type} (p : MainProg A) (h : JsError -> MainProg A)
    : MainProg A :=
  match p with
  | MRet a => MRet a
  | MThrow e => h e
  | MDo eff k => MDo eff (fun x => mcatch (k x) h)
  end.

(** A program of the poll cycle, run inside [main]. *)
Fixpoint lift {A : Type} (p : Prog A) : MainProg A :=
  match p with
  | Ret a => MRet a
  | Throw e => MThrow e
  | Do eff k => MDo (Of_tick eff) (fun x => lift (k x))
  end.

(** [await sleep(ms)]: the timer fires after [ms] milliseconds. *)
Definition sleep (ms : Z) : MainProg unit := MDo (SetTimeout ms) MRet.

Section Main.
Context {rt : Runtime}.
Variable config : EnvConfig.

(** The text of [ms / 1000] in a template literal. *)
Variable seconds_text : Z -> string.

(** One turn of the loop of [main].  Every value thrown in this program is
    an [Error], so the message that is logged is [error.message]. *)
Definition turn : MainProg unit :=
  mbind (lift (perform Date_now)) (fun startedAt =>
  mbind (mcatch (lift (tick config))
           (fun error =>
              MDo (Console_error ("[music] tick failed: " ++ message error))
                MRet)) (fun _ =>
  mbind (lift (perform Date_now)) (fun finishedAt =>
  let elapsed := finishedAt - startedAt in
  let sleepMs := Z.max 0 (updateIntervalMs config - elapsed) in
  sleep sleepMs))).

(** The first [n] turns of the loop, which has no exit. *)
Fixpoint turns (n : nat) : MainProg unit :=
  match n with
  | O => MRet tt
  | S n' => mbind turn (fun _ => turns n')
  end.

(** [main], up to the end of turn [n] of its loop. *)
Definition main (n : nat) : MainProg unit :=
  mbind (lift (perform
                 (Console_log ("[music] updater started – interval "
                                 ++ seconds_text (updateIntervalMs config)
                                 ++ "s"))))
    (fun _ => turns n).
End Main.

Inductive MainEntry : Type :=
| main_entry (X : Type) (eff : MainEff X) (answer : X).

Arguments main_entry {X} eff answer.

(** An effect of the poll cycle, as [main] performs it. *)
Definition of_tick (en : Entry) : MainEntry :=
  match en with
  | entry eff answer => main_entry (Of_tick eff) answer
  end.

(** The runs of a program of [main], computed from its text. *)
Fixpoint main_runs {A : Type} (p : MainProg A) (tr : list MainEntry)
    (o : Outcome A) : Prop :=
  match p with
  | MRet a => tr = [] /\ o = Returned a
  | MThrow e => tr = [] /\ o = Threw e
  | MDo eff k =>
      exists x tr', tr = main_entry eff x :: tr' /\ main_runs (k x) tr' o
  end.

Definition MainWorld (S : Type) : Type :=
  forall X : Type, MainEff X -> S -> X * S.

Fixpoint main_run {A S : Type} (w : MainWorld S) (p : MainProg A) (s : S)
    : list MainEntry * Outcome A * S :=
  match p with
  | MRet a => ([], Returned a, s)
  | MThrow e => ([], Threw e, s)
  | MDo eff k =>
      let (x, s') := w _ eff s in
      let '(tr, o, s'') := main_run w (k x) s' in
      (main_entry eff x :: tr, o, s'')
  end.

(** The delay of a timer that [main] sets. *)
Definition sleep_ms (en : MainEntry) : option Z :=
  match en with
  | main_entry (SetTimeout ms) _ => Some ms
  | _ => None
  end.

Definition is_sleep (en : MainEntry) : bool :=
  match sleep_ms en with
  | Some _ => true
  | None => false
  end.

(** A request to the provider. *)
Definition is_poll (en : MainEntry) : bool :=
  match en with
  | main_entry (Of_tick (Fetch_lastfm _ _ _)) _ => true
  | _ => false
  end.

(** The sample world with a timer: the clock is advanced by the delay, and
    by 250 ms at each request to the provider. *)
Definition sampleMainWorld : MainWorld HostState :=
  fun X eff =>
    match eff in MainEff X return HostState -> X * HostState with
    | Of_tick eff' =>
        fun s =>
          let (x, s') := @sampleWorld _ eff' s in
          (x, match eff' with
              | Fetch_lastfm _ _ _ =>
                  mkHostState (readme s') (revision s') (racing s')
                    (clock s' + 250) (scrobbles s') (cache_file s')
              | _ => s'
              end)
    | Console_error _ => fun s => (tt, s)
    | SetTimeout ms =>
        fun s =>
          (tt, mkHostState (readme s) (revision s) (racing s)
                 (clock s + ms) (scrobbles s) (cache_file s))
    end.

Definition sampleSeconds (ms : Z) : string := string_of_Z (ms / 1000).
(** * Properties *)

Unset Implicit Arguments.

(** ** Strings *)

Lemma append_assoc (a b c : string) : (a ++ b) ++ c = a ++ b ++ c.
Proof.
  induction a as [|x a IH]; simpl; [reflexivity | now rewrite IH].
Qed.

Lemma append_nil_r (a : string) : a ++ "" = a.
Proof.
  induction a as [|x a IH]; simpl; [reflexivity | now rewrite IH].
Qed.

Lemma str_neq_true (a b : string) : str_neq a b = true <-> a <> b.
Proof.
  unfold str_neq. rewrite negb_true_iff. apply String.eqb_neq.
Qed.

Lemma str_neq_false (a b : string) : str_neq a b = false <-> a = b.
Proof.
  unfold str_neq. rewrite negb_false_iff. apply String.eqb_eq.
Qed.

Lemma opt_neq_true (a b : option string) : opt_neq a b = true <-> a <> b.
Proof.
  destruct a as [x|], b as [y|]; simpl;
    try (split; [discriminate | reflexivity]);
    try (split; [discriminate | congruence]).
  rewrite str_neq_true. split; congruence.
Qed.

Lemma opt_neq_false (a b : option string) : opt_neq a b = false <-> a = b.
Proof.
  destruct a as [x|], b as [y|]; simpl;
    try (split; [reflexivity | congruence]);
    try (split; discriminate).
  rewrite str_neq_false. split; congruence.
Qed.

Lemma bool_neq_true (a b : bool) : negb (Bool.eqb a b) = true <-> a <> b.
Proof. destruct a, b; simpl; split; congruence. Qed.

(** ** Change decision engine *)

Section DecisionProperties.
Context {rt : Runtime}.
Variable config : EnvConfig.

Lemma same_fields_no_change (track : TrackInfo) (cache : CacheEntry) :
  same_fields track cache ->
  str_neq (cache_title cache) (title track)
  || str_neq (cache_artist cache) (artist track)
  || opt_neq (cache_album cache) (album track)
  || opt_neq (cache_albumArt cache) (albumArt track)
  || negb (Bool.eqb (cache_nowPlaying cache) (nowPlaying track)) = false.
Proof.
  intros (Ht & Ha & Hal & Har & Hn).
  rewrite (proj2 (str_neq_false _ _) Ht), (proj2 (str_neq_false _ _) Ha),
    (proj2 (opt_neq_false _ _) Hal), (proj2 (opt_neq_false _ _) Har), Hn.
  now rewrite Bool.eqb_reflx.
Qed.

(** C1. Idempotence with expiry: when the status and the cache entry agree
    on the five compared fields and the time of the last write parses to
    [last], [shouldUpdate] is false as long as the time elapsed since
    [last] is at most the TTL and true once it exceeds the TTL. *)
Theorem shouldUpdate_ttl (now : Z) (track : TrackInfo) (cache : CacheEntry)
    (last : Z) :
  same_fields track cache ->
  Date_parse (lastUpdatedIso cache) = Some last ->
  (now - last <= cacheTtlMs config ->
     shouldUpdate config now track (Some cache) = false)
  /\ (now - last > cacheTtlMs config ->
        shouldUpdate config now track (Some cache) = true).
Proof.
  intros Hsame Hparse. unfold shouldUpdate.
  rewrite (same_fields_no_change track cache Hsame), Hparse.
  split; intros H.
  - rewrite Z.gtb_ltb. apply Z.ltb_ge. lia.
  - rewrite Z.gtb_ltb. apply Z.ltb_lt. lia.
Qed.

(** C7. The rules that short-circuit [shouldUpdate]: no cache, a
    difference in one of the five compared fields, or a time of the last
    write that does not parse, each make it true, whatever the clock. *)
Theorem shouldUpdate_short_circuit (now : Z) (track : TrackInfo) :
  shouldUpdate config now track None = true
  /\ (forall cache : CacheEntry,
        cache_title cache <> title track
        \/ cache_artist cache <> artist track
        \/ cache_album cache <> album track
        \/ cache_albumArt cache <> albumArt track
        \/ cache_nowPlaying cache <> nowPlaying track ->
        shouldUpdate config now track (Some cache) = true)
  /\ (forall cache : CacheEntry,
        Date_parse (lastUpdatedIso cache) = None ->
        shouldUpdate config now track (Some cache) = true).
Proof.
  split; [reflexivity | split].
  - intros cache H. unfold shouldUpdate.
    rewrite <- str_neq_true, <- str_neq_true, <- !opt_neq_true,
      <- bool_neq_true in H.
    destruct H as [H | [H | [H | [H | H]]]]; rewrite H;
      now rewrite ?orb_true_r.
  - intros cache H. unfold shouldUpdate. rewrite H.
    now destruct (_ || _).
Qed.
End DecisionProperties.

Lemma shouldUpdate_ttl_witness :
  shouldUpdate (rt := sampleRuntime) sampleConfig (1704067200000 + 600000)
    sampleTrack (Some sampleCache) = false
  /\ shouldUpdate (rt := sampleRuntime) sampleConfig (1704067200000 + 600001)
       sampleTrack (Some sampleCache) = true.
Proof.
  split.
  - apply (@shouldUpdate_ttl sampleRuntime sampleConfig
             (1704067200000 + 600000) sampleTrack sampleCache 1704067200000).
    + repeat split; reflexivity.
    + vm_compute; reflexivity.
    + simpl; lia.
  - apply (@shouldUpdate_ttl sampleRuntime sampleConfig
             (1704067200000 + 600001) sampleTrack sampleCache 1704067200000).
    + repeat split; reflexivity.
    + vm_compute; reflexivity.
    + simpl; lia.
Defined.

Lemma shouldUpdate_short_circuit_witness :
  shouldUpdate (rt := sampleRuntime) sampleConfig 1704067200001 sampleTrack
    (Some (mkCacheEntry "Song B" "Artist X" (Some "Album Y")
             (Some "https://x/a.jpg") false "2024-01-01T00:00:00.000Z")) = true
  /\ shouldUpdate (rt := sampleRuntime) sampleConfig 1704067200001 sampleTrack
       (Some (mkCacheEntry "Song A" "Artist X" (Some "Album Y")
                (Some "https://x/a.jpg") false "yesterday")) = true.
Proof.
  split.
  - apply (proj1 (proj2 (@shouldUpdate_short_circuit sampleRuntime
                           sampleConfig 1704067200001 sampleTrack))).
    left; simpl; discriminate.
  - apply (proj2 (proj2 (@shouldUpdate_short_circuit sampleRuntime
                           sampleConfig 1704067200001 sampleTrack))).
    vm_compute; reflexivity.
Defined.

(** ** Snippet renderer *)





(** C8. The tiers of the relative-time label, on the time elapsed between
    the played-at timestamp and the clock, both in milliseconds: under 60
    seconds it is "just now"; under an hour, the whole minutes followed by
    " minutes ago"; under a day, the whole hours followed by " hours ago";
    beyond, the whole days followed by " days ago".  The unit is never put
    in the singular: one minute is "1 minutes ago". *)
Theorem getTimeAgo_tiers (now timestamp : Z) :
  let seconds := (now - timestamp) / 1000 in
  (now - timestamp < 60 * 1000 -> getTimeAgo now timestamp = "just now")
  /\ (60 * 1000 <= now - timestamp < 3600 * 1000 ->
        getTimeAgo now timestamp = string_of_Z (seconds / 60) ++ " minutes ago")
  /\ (3600 * 1000 <= now - timestamp < 86400 * 1000 ->
        getTimeAgo now timestamp = string_of_Z (seconds / 3600) ++ " hours ago")
  /\ (86400 * 1000 <= now - timestamp ->
        getTimeAgo now timestamp = string_of_Z (seconds / 86400) ++ " days ago")
  /\ (60 * 1000 <= now - timestamp < 120 * 1000 ->
        getTimeAgo now timestamp = "1 minutes ago").
Proof.
  intros seconds. unfold getTimeAgo. fold seconds.
  assert (Hs : 1000 * seconds <= now - timestamp < 1000 * seconds + 1000).
  { unfold seconds.
    pose proof (Z.mul_div_le (now - timestamp) 1000 ltac:(lia)).
    pose proof (Z.mul_succ_div_gt (now - timestamp) 1000 ltac:(lia)). lia. }
  repeat split; intros H.
  - destruct (Z.ltb_spec seconds 60); [reflexivity | lia].
  - destruct (Z.ltb_spec seconds 60); [lia |].
    destruct (Z.ltb_spec seconds 3600); [reflexivity | lia].
  - destruct (Z.ltb_spec seconds 60); [lia |].
    destruct (Z.ltb_spec seconds 3600); [lia |].
    destruct (Z.ltb_spec seconds 86400); [reflexivity | lia].
  - destruct (Z.ltb_spec seconds 60); [lia |].
    destruct (Z.ltb_spec seconds 3600); [lia |].
    destruct (Z.ltb_spec seconds 86400); [lia | reflexivity].
  - destruct (Z.ltb_spec seconds 60); [lia |].
    destruct (Z.ltb_spec seconds 3600); [| lia].
    replace (seconds / 60) with 1; [reflexivity |].
    apply Z.div_unique with (r := seconds - 60); lia.
Qed.

Lemma getTimeAgo_tiers_witness :
  getTimeAgo 59999 0 = "just now"
  /\ getTimeAgo 125000 0 = string_of_Z (125 / 60) ++ " minutes ago"
  /\ getTimeAgo 7200000 0 = string_of_Z (7200 / 3600) ++ " hours ago"
  /\ getTimeAgo 172800000 0 = string_of_Z (172800 / 86400) ++ " days ago"
  /\ getTimeAgo 60000 0 = "1 minutes ago".
Proof.
  split; [| split; [| split; [| split]]].
  - apply (proj1 (getTimeAgo_tiers 59999 0)); lia.
  - apply (proj1 (proj2 (getTimeAgo_tiers 125000 0))); lia.
  - apply (proj1 (proj2 (proj2 (getTimeAgo_tiers 7200000 0)))); lia.
  - apply (proj1 (proj2 (proj2 (proj2 (getTimeAgo_tiers 172800000 0))))); lia.
  - apply (proj2 (proj2 (proj2 (proj2 (getTimeAgo_tiers 60000 0))))); lia.
Defined.

Lemma formatTrack_text (now : Z) (track : TrackInfo) :
  truthy (albumArt track) = false ->
  formatTrack now track = text_block (title track) (artist track).
Proof.
  intros H. unfold formatTrack. now rewrite H.
Qed.

Lemma formatTrack_image (now : Z) (track : TrackInfo) :
  truthy (albumArt track) = true ->
  formatTrack now track =
    img_tag (tmpl (albumArt track)) ++ "<samp>"
      ++ "<strong>" ++ title track ++ "</strong>"
      ++ "<br/>by " ++ artist track
      ++ album_line track
      ++ "<br/>" ++ "<br/>"
      ++ (if nowPlaying track then now_playing_marker
          else getTimeAgo now (playedAt track))
      ++ "</samp>".
Proof.
  intros H. unfold formatTrack, img_tag, album_line, push. rewrite H.
  destruct (truthy (album track)), (nowPlaying track);
    cbn [List.app String.concat]; rewrite !append_assoc; reflexivity.
Qed.

(** C9. The two branches of the renderer.  Without artwork (the field is
    [undefined] or empty, the test of the code) the markup is the reduced
    block made of the title and the artist alone: the album, the clock, the
    played-at time and the now-playing flag have no part in it.  With
    artwork it is the image element with its fixed dimensions, then the
    title, the artist, the album if there is one, an empty line and the
    time label or the now-playing marker. *)
Theorem formatTrack_branches (now : Z) (track : TrackInfo) :
  (truthy (albumArt track) = false ->
     formatTrack now track = text_block (title track) (artist track)
     /\ forall (now' : Z) (track' : TrackInfo),
          truthy (albumArt track') = false ->
          title track' = title track ->
          artist track' = artist track ->
          formatTrack now' track' = formatTrack now track)
  /\ (truthy (albumArt track) = true ->
        formatTrack now track =
          img_tag (tmpl (albumArt track)) ++ "<samp>"
            ++ "<strong>" ++ title track ++ "</strong>"
            ++ "<br/>by " ++ artist track
            ++ album_line track
            ++ "<br/>" ++ "<br/>"
            ++ (if nowPlaying track then now_playing_marker
                else getTimeAgo now (playedAt track))
            ++ "</samp>").
Proof.
  split.
  - intros H. split; [now apply formatTrack_text |].
    intros now' track' H' Ht Ha.
    rewrite (formatTrack_text now track H), (formatTrack_text now' track' H').
    now rewrite Ht, Ha.
  - apply formatTrack_image.
Qed.

Lemma formatTrack_branches_witness :
  formatTrack 125000
    (mkTrackInfo "Song A" "Artist X" (Some "Album Y") None true 0)
    = "<samp><strong>Song A</strong><br/>by Artist X</samp>"
  /\ formatTrack 125000
       (mkTrackInfo "Song A" "Artist X" (Some "Album Y")
          (Some "https://x/a.jpg") false 0)
     = img_tag "https://x/a.jpg"
         ++ "<samp><strong>Song A</strong><br/>by Artist X<br/>from Album Y<br/><br/>2 minutes ago</samp>".
Proof.
  split.
  - exact (proj1 (proj1 (formatTrack_branches 125000
                            (mkTrackInfo "Song A" "Artist X" (Some "Album Y")
                               None true 0))
                     eq_refl)).
  - apply (proj2 (formatTrack_branches 125000
             (mkTrackInfo "Song A" "Artist X" (Some "Album Y")
                (Some "https://x/a.jpg") false 0))).
    reflexivity.
Defined.




(** ** Strings, continued *)

Lemma length_append (a b : string) :
  String.length (a ++ b) = (String.length a + String.length b)%nat.
Proof.
  induction a as [|x a IH]; simpl; [reflexivity | now rewrite IH].
Qed.

Lemma take_append (a b : string) : take (String.length a) (a ++ b) = a.
Proof.
  induction a as [|x a IH]; simpl; [now destruct b | now rewrite IH].
Qed.

Lemma skip_append (a b : string) : skip (String.length a) (a ++ b) = b.
Proof.
  induction a as [|x a IH]; simpl; [reflexivity | exact IH].
Qed.

Lemma take_skip (n : nat) (s : string) : take n s ++ skip n s = s.
Proof.
  revert s. induction n as [|n IH]; intros [|x s]; simpl; try reflexivity.
  now rewrite IH.
Qed.

Lemma taken_append (a b : string) : taken (a ++ b) b = a.
Proof.
  unfold taken. rewrite length_append.
  replace (String.length a + String.length b - String.length b)%nat
    with (String.length a) by lia.
  apply take_append.
Qed.

(** ** Comparison up to the case of the letters *)

Lemma eq_ci_shift (a b c : ascii) :
  eq_ci a b = true -> eq_ci a c = eq_ci b c.
Proof.
  unfold eq_ci. intros H. apply Ascii.eqb_eq in H. now rewrite H.
Qed.

Lemma ci_eq_length (w t : string) :
  ci_eq w t = true -> String.length w = String.length t.
Proof.
  revert t. induction w as [|a w IH]; intros [|c t]; simpl; try discriminate.
  - reflexivity.
  - intros H. apply andb_true_iff in H. destruct H as [_ H].
    now rewrite (IH t H).
Qed.

Lemma prefix_ci_append (w t s : string) :
  ci_eq w t = true -> prefix_ci t (w ++ s) = true.
Proof.
  revert t. induction w as [|a w IH]; intros [|c t]; simpl; try discriminate.
  - reflexivity.
  - intros H. apply andb_true_iff in H. destruct H as [H1 H2].
    now rewrite H1, (IH t H2).
Qed.

Lemma prefix_ci_take (t s : string) :
  prefix_ci t s = true -> ci_eq (take (String.length t) s) t = true.
Proof.
  revert s. induction t as [|c t IH]; intros [|a s]; simpl; try discriminate;
    try reflexivity.
  intros H. apply andb_true_iff in H. destruct H as [H1 H2].
  now rewrite H1, (IH s H2).
Qed.

Lemma prefix_ci_length (t s : string) :
  prefix_ci t s = true -> (String.length t <= String.length s)%nat.
Proof.
  revert s. induction t as [|c t IH]; intros [|a s]; simpl; try discriminate;
    try lia.
  intros H. apply andb_true_iff in H. destruct H as [_ H].
  apply IH in H. lia.
Qed.

Lemma prefix_ci_long (t a b : string) :
  (String.length t <= String.length a)%nat ->
  prefix_ci t (a ++ b) = prefix_ci t a.
Proof.
  revert a. induction t as [|c t IH]; intros [|x a]; simpl; try reflexivity;
    try lia.
  intros H. rewrite IH by lia. reflexivity.
Qed.

Lemma occurs_ci_append (t a b : string) :
  occurs_ci t b = true -> occurs_ci t (a ++ b) = true.
Proof.
  intros H. induction a as [|x a IH]; [exact H |].
  cbn [append occurs_ci]. rewrite IH. apply orb_true_r.
Qed.

(** ** Cutting a string at its first [>] *)

Lemma split_at_spec (p : ascii -> bool) (s u v : string) :
  split_at p s = Some (u, v) ->
  exists c : ascii, s = u ++ String c v /\ p c = false /\ all_chars p u = true.
Proof.
  revert u v. induction s as [|a s IH]; intros u v; simpl; [discriminate |].
  destruct (p a) eqn:Pa.
  - destruct (split_at p s) as [[u' v']|]; [| discriminate].
    intros H. injection H as <- <-.
    destruct (IH u' v' eq_refl) as (c & -> & Pc & Hu).
    exists c. simpl. now rewrite Pa, Hu.
  - intros H. injection H as <- <-. exists a. auto.
Qed.

Lemma split_at_append (p : ascii -> bool) (u v : string) (c : ascii) :
  all_chars p u = true -> p c = false ->
  split_at p (u ++ String c v) = Some (u, v).
Proof.
  intros Hu Pc. induction u as [|a u IH]; simpl in *.
  - now rewrite Pc.
  - apply andb_true_iff in Hu. destruct Hu as [Pa Hu].
    now rewrite Pa, (IH Hu).
Qed.

Lemma split_at_more (p : ascii -> bool) (s t u v : string) :
  split_at p s = Some (u, v) -> split_at p (s ++ t) = Some (u, v ++ t).
Proof.
  intros H. destruct (split_at_spec p s u v H) as (c & -> & Pc & Hu).
  rewrite append_assoc. cbn [append]. now apply split_at_append.
Qed.

Lemma split_at_none (p : ascii -> bool) (s : string) :
  split_at p s = None <-> all_chars p s = true.
Proof.
  induction s as [|a s IH]; simpl; [tauto |].
  destruct (p a); simpl.
  - rewrite <- IH. destruct (split_at p s) as [[u v]|]; split; congruence.
  - split; discriminate.
Qed.

Lemma split_at_skip_none (p : ascii -> bool) (n : nat) (s : string) :
  split_at p s = None -> split_at p (skip n s) = None.
Proof.
  revert s. induction n as [|n IH]; intros [|a s]; simpl; try tauto.
  destruct (p a); [| discriminate].
  destruct (split_at p s) as [[u v]|] eqn:E; [discriminate |].
  intros _. now apply IH.
Qed.

Lemma split_at_skip (p : ascii -> bool) (n : nat) (s u v : string) :
  split_at p s = Some (u, v) -> (n <= String.length u)%nat ->
  split_at p (skip n s) = Some (skip n u, v).
Proof.
  revert s u. induction n as [|n IH]; intros s u H Hn.
  - now destruct s, u.
  - destruct s as [|a s]; [discriminate |]. simpl in H.
    destruct (p a).
    + destruct (split_at p s) as [[u' v']|] eqn:E; [| discriminate].
      injection H as <- <-. simpl in *. apply IH; [exact E | lia].
    + injection H as <- <-. simpl in Hn. lia.
Qed.

(** A pattern text without [>] that starts [s] lies before the first [>]
    of [s]. *)
Lemma prefix_ci_before_gt (t s u v : string) :
  all_chars (fun c => negb (eq_ci ">" c)) t = true ->
  split_at not_gt s = Some (u, v) ->
  prefix_ci t s = prefix_ci t u.
Proof.
  intros Ht. revert s u. induction t as [|c t IH]; intros s u H;
    [reflexivity |].
  simpl in Ht. apply andb_true_iff in Ht. destruct Ht as [Hc Ht].
  destruct s as [|a s]; [discriminate |]. simpl in H.
  destruct (not_gt a) eqn:Pa.
  - destruct (split_at not_gt s) as [[u' v']|] eqn:E; [| discriminate].
    injection H as <- <-. simpl. now rewrite (IH Ht s u' E).
  - injection H as <- <-. simpl.
    unfold not_gt, in_class in Pa. apply negb_false_iff in Pa.
    rewrite (eq_ci_shift a ">" c Pa).
    apply negb_true_iff in Hc. now rewrite Hc.
Qed.

(** ** The matcher on the pieces of [spanPattern] *)

Section MatcherProperties.
Variable R : Type.
Implicit Types (s : string) (cs : captures_t)
  (K : string -> captures_t -> option R).

Lemma matchR_lit (t s : string) cs K :
  matchR (lit t) s cs K
  = if prefix_ci t s then K (skip (String.length t) s) cs else None.
Proof.
  revert s. induction t as [|c t IH]; intros s.
  - now destruct s.
  - destruct s as [|a s]; [reflexivity |].
    cbn [lit matchR prefix_ci String.length skip].
    destruct (eq_ci a c); [apply IH | reflexivity].
Qed.

Lemma matchR_seq (r1 r2 : regex) s cs K :
  matchR (Seq r1 r2) s cs K
  = matchR r1 s cs (fun s1 cs1 => matchR r2 s1 cs1 K).
Proof. reflexivity. Qed.

Lemma matchR_greedy_cons (cl : cclass) (X : regex) (a : ascii) s cs K :
  matchR (Seq (Star true cl) X) (String a s) cs K
  = if in_class cl a
    then match matchR (Seq (Star true cl) X) s cs K with
         | Some r => Some r
         | None => matchR X (String a s) cs K
         end
    else matchR X (String a s) cs K.
Proof. reflexivity. Qed.

Lemma matchR_greedy_nil (cl : cclass) (X : regex) cs K :
  matchR (Seq (Star true cl) X) "" cs K = matchR X "" cs K.
Proof. reflexivity. Qed.

Lemma matchR_lazy (cl : cclass) (X : regex) s cs K :
  matchR (Seq (Star false cl) X) s cs K
  = match matchR X s cs K with
    | Some r => Some r
    | None =>
        match s with
        | String a s' =>
            if in_class cl a then matchR (Seq (Star false cl) X) s' cs K
            else None
        | EmptyString => None
        end
    end.
Proof. destruct s; reflexivity. Qed.

(** [[^>]*>]: up to the first [>]. *)
Lemma matchR_to_gt s cs K :
  matchR (Seq (Star true (CNot ">")) (Chr ">")) s cs K
  = match split_at not_gt s with
    | Some (_, v) => K v cs
    | None => None
    end.
Proof.
  induction s as [|a s IH]; [reflexivity |].
  rewrite matchR_greedy_cons, IH. cbn [split_at matchR].
  fold (not_gt a). destruct (not_gt a) eqn:Pa.
  - unfold not_gt, in_class in Pa. apply negb_true_iff in Pa. rewrite Pa.
    destruct (split_at not_gt s) as [[u v]|]; [| reflexivity].
    now destruct (K v cs).
  - unfold not_gt, in_class in Pa. apply negb_false_iff in Pa.
    now rewrite Pa.
Qed.

(** [data-music[^>]*>]: the text, then up to the first [>]. *)
Lemma matchR_name_to_gt s cs K :
  matchR (Seq (lit "data-music") (Seq (Star true (CNot ">")) (Chr ">")))
    s cs K
  = match split_at not_gt s with
    | Some (u, v) => if prefix_ci "data-music" u then K v cs else None
    | None => None
    end.
Proof.
  rewrite matchR_seq, matchR_lit, matchR_to_gt.
  destruct (split_at not_gt s) as [[u v]|] eqn:E.
  - rewrite (prefix_ci_before_gt "data-music" s u v eq_refl E).
    destruct (prefix_ci "data-music" u) eqn:P; [| reflexivity].
    rewrite (split_at_skip not_gt _ s u v E (prefix_ci_length _ _ P)).
    reflexivity.
  - rewrite (split_at_skip_none not_gt _ s E).
    now destruct (prefix_ci "data-music" s).
Qed.

(** [[^>]*data-music[^>]*>]: the text occurs before the first [>]. *)
Lemma matchR_attrs s cs K :
  matchR (Seq (Star true (CNot ">"))
            (Seq (lit "data-music") (Seq (Star true (CNot ">")) (Chr ">"))))
    s cs K
  = match split_at not_gt s with
    | Some (u, v) => if occurs_ci "data-music" u then K v cs else None
    | None => None
    end.
Proof.
  induction s as [|a s IH].
  - rewrite matchR_greedy_nil, matchR_name_to_gt. reflexivity.
  - rewrite matchR_greedy_cons, IH, matchR_name_to_gt.
    cbn [split_at]. fold (not_gt a). destruct (not_gt a).
    + destruct (split_at not_gt s) as [[u v]|]; [| reflexivity].
      cbn [occurs_ci].
      destruct (occurs_ci "data-music" u),
        (prefix_ci "data-music" (String a u)), (K v cs); reflexivity.
    + reflexivity.
Qed.

(** The opening marker: [<span], then the attributes. *)
Lemma matchR_openingMarker s cs K :
  matchR openingMarker s cs K
  = if prefix_ci "<span" s
    then match split_at not_gt (skip 5 s) with
         | Some (u, v) => if occurs_ci "data-music" u then K v cs else None
         | None => None
         end
    else None.
Proof.
  unfold openingMarker. rewrite matchR_seq, matchR_lit.
  destruct (prefix_ci "<span" s); [| reflexivity].
  exact (matchR_attrs (skip 5 s) cs K).
Qed.

Lemma matchR_group (n : nat) (r : regex) s cs K :
  matchR (Group n r) s cs K
  = matchR r s cs (fun s1 cs1 => K s1 (set_cap (n - 1) (taken s s1) cs1)).
Proof. reflexivity. Qed.

(** The closing marker, as the second group. *)
Lemma matchR_closing s cs K :
  matchR (Group 2 (lit "</span>")) s cs K
  = if prefix_ci "</span>" s
    then K (skip 7 s) (set_cap 1 (taken s (skip 7 s)) cs)
    else None.
Proof. rewrite matchR_group, matchR_lit. reflexivity. Qed.

(** [[\s\S]*?X]: [X] at the first place where it matches. *)
Lemma matchR_lazy_skip (X : regex) (a b : string) cs K :
  (forall a1 a2, a = a1 ++ a2 -> a2 <> "" ->
                 matchR X (a2 ++ b) cs K = None) ->
  matchR (Seq (Star false CAny) X) (a ++ b) cs K
  = matchR (Seq (Star false CAny) X) b cs K.
Proof.
  induction a as [|x a IH]; intros H; [reflexivity |].
  rewrite matchR_lazy. rewrite (H "" (String x a) eq_refl) by discriminate.
  cbn [append in_class]. apply IH.
  intros a1 a2 -> Ha2. apply (H (String x a1) a2 eq_refl Ha2).
Qed.

Lemma matchR_lazy_inv (X : regex) s cs K (r : R) :
  matchR (Seq (Star false CAny) X) s cs K = Some r ->
  exists a b,
    s = a ++ b
    /\ matchR X b cs K = Some r
    /\ forall a1 a2, a = a1 ++ a2 -> a2 <> "" ->
                     matchR X (a2 ++ b) cs K = None.
Proof.
  induction s as [|x s IH]; rewrite matchR_lazy; intros H.
  - destruct (matchR X "" cs K) eqn:E; [| discriminate].
    exists "", "". split; [reflexivity |]. split; [congruence |].
    intros [|? ?] a2 E' Ha2; [simpl in E'; congruence | discriminate].
  - destruct (matchR X (String x s) cs K) eqn:E.
    + exists "", (String x s). split; [reflexivity |].
      split; [congruence |].
      intros [|? ?] a2 E' Ha2; [simpl in E'; congruence | discriminate].
    + cbn [in_class] in H.
      destruct (IH H) as (a & b & -> & Hb & Hfirst).
      exists (String x a), b. split; [reflexivity |]. split; [exact Hb |].
      intros [|y a1] a2 E' Ha2; simpl in E'.
      * subst a2. exact E.
      * injection E' as -> ->. exact (Hfirst a1 a2 eq_refl Ha2).
Qed.

Lemma matchR_lazy_none (X : regex) (a b : string) cs K :
  matchR (Seq (Star false CAny) X) (a ++ b) cs K = None ->
  matchR X b cs K = None.
Proof.
  induction a as [|x a IH]; rewrite matchR_lazy; cbn [append].
  - now destruct (matchR X b cs K).
  - destruct (matchR X (String x (a ++ b)) cs K); [discriminate |].
    cbn [in_class]. exact IH.
Qed.
End MatcherProperties.

(** [eq_ci] tells [>] from every other character. *)
Lemma eq_ci_gt (a : ascii) : eq_ci a ">" = true -> a = ">"%char.
Proof.
  destruct a as [[] [] [] [] [] [] [] []]; vm_compute; intros H;
    congruence.
Qed.

(** ** [spanPattern] at one position *)

Lemma span_at (s : string) :
  matchR spanPattern s [None; None] (fun s' cs => Some (s', cs))
  = if prefix_ci "<span" s
    then match split_at not_gt (skip 5 s) with
         | Some (u, v) =>
             if occurs_ci "data-music" u
             then matchR (Seq (Star false CAny) (Group 2 (lit "</span>")))
                    v [Some (taken s v); None] (fun s' cs => Some (s', cs))
             else None
         | None => None
         end
    else None.
Proof.
  unfold spanPattern.
  rewrite matchR_seq, matchR_group, matchR_openingMarker.
  reflexivity.
Qed.

Lemma first_closing_fails (mid tail : string) (cs : captures_t) :
  first_closing mid tail <->
  forall a1 a2, mid = a1 ++ a2 -> a2 <> "" ->
    matchR (Group 2 (lit "</span>")) (a2 ++ tail) cs
      (fun s' cs' => Some (s', cs')) = None.
Proof.
  unfold first_closing. split; intros H a1 a2 E Ha2.
  - rewrite matchR_closing, (H a1 a2 E Ha2). reflexivity.
  - specialize (H a1 a2 E Ha2). rewrite matchR_closing in H.
    now destruct (prefix_ci "</span>" (a2 ++ tail)).
Qed.

(** What a match of [spanPattern] at the start of [s] is made of. *)
Lemma span_match_inv (s rest : string) (cs : captures_t) :
  matchR spanPattern s [None; None] (fun s' cs => Some (s', cs))
    = Some (rest, cs) ->
  exists g1 mid g2 : string,
    s = g1 ++ mid ++ g2 ++ rest
    /\ open_marker g1
    /\ ci_eq g2 "</span>" = true
    /\ first_closing mid (g2 ++ rest)
    /\ cs = [Some g1; Some g2].
Proof.
  rewrite span_at.
  destruct (prefix_ci "<span" s) eqn:P; [| discriminate].
  destruct (split_at not_gt (skip 5 s)) as [[u v]|] eqn:E; [| discriminate].
  destruct (occurs_ci "data-music" u) eqn:O; [| discriminate].
  intros H. apply matchR_lazy_inv in H.
  destruct H as (mid & b & -> & Hb & Hfirst).
  rewrite matchR_closing in Hb.
  destruct (prefix_ci "</span>" b) eqn:C; [| discriminate].
  assert (E1 : rest = skip 7 b) by congruence.
  assert (E2 : cs = set_cap 1 (taken b (skip 7 b))
                      [Some (taken s (mid ++ b)); None]) by congruence.
  clear Hb. subst rest cs.
  destruct (split_at_spec _ _ _ _ E) as (c & Es & Pc & Hu).
  unfold not_gt, in_class in Pc. apply negb_false_iff, eq_ci_gt in Pc.
  subst c.
  pose proof (prefix_ci_take "<span" s P) as Hw.
  assert (Hs : s = (take 5 s ++ u ++ ">") ++ mid ++ b).
  { rewrite <- (take_skip 5 s) at 1. rewrite Es, !append_assoc. reflexivity. }
  assert (Hg1 : open_marker (take 5 s ++ u ++ ">")).
  { exists (take 5 s), u. auto. }
  revert Hs Hg1. generalize (take 5 s ++ u ++ ">"). intros g1 Hs Hg1.
  exists g1, mid, (take 7 b).
  split; [| split; [| split; [| split]]].
  - now rewrite (take_skip 7 b).
  - exact Hg1.
  - exact (prefix_ci_take "</span>" b C).
  - rewrite (take_skip 7 b).
    apply (first_closing_fails mid b [Some (taken s (mid ++ b)); None]).
    exact Hfirst.
  - cbn [set_cap]. f_equal; f_equal.
    + rewrite Hs. apply taken_append.
    + f_equal. rewrite <- (take_skip 7 b) at 1. apply taken_append.
Qed.

(** A marked region at the start of a string is matched, with the two
    markers as the captures. *)
Lemma span_match_intro (g1 mid g2 post : string) :
  open_marker g1 ->
  ci_eq g2 "</span>" = true ->
  first_closing mid (g2 ++ post) ->
  matchR spanPattern (g1 ++ mid ++ g2 ++ post) [None; None]
    (fun s' cs => Some (s', cs))
  = Some (post, [Some g1; Some g2]).
Proof.
  intros (w & u & -> & Hw & Hu & Ho) Hg2 Hfirst.
  rewrite span_at.
  rewrite !append_assoc, (prefix_ci_append w "<span" _ Hw).
  replace 5%nat with (String.length w) by (now rewrite (ci_eq_length _ _ Hw)).
  rewrite skip_append. cbn [append].
  rewrite (split_at_append not_gt u _ ">" Hu eq_refl), Ho.
  rewrite matchR_lazy_skip
    by (now apply (first_closing_fails mid (g2 ++ post))).
  rewrite matchR_lazy, matchR_closing,
    (prefix_ci_append g2 "</span>" post Hg2).
  replace 7%nat with (String.length g2) by (now rewrite (ci_eq_length _ _ Hg2)).
  rewrite skip_append, taken_append. cbn [set_cap].
  do 4 f_equal.
  change (String ">" (mid ++ g2 ++ post)) with (">" ++ mid ++ g2 ++ post).
  rewrite <- !(append_assoc _ _ (mid ++ g2 ++ post)).
  rewrite <- (append_assoc w u ">"). apply taken_append.
Qed.

(** ** [exec]: the leftmost match *)

Section ExecProperties.
Variables (r : regex) (ngroups : nat).

Lemma exec_from_eq (pos : nat) (s : string) :
  exec_from r ngroups pos s
  = match matchR r s (repeat None ngroups) (fun s' cs => Some (s', cs)) with
    | Some (s', cs) => Some (mkMatch pos (taken s s') cs)
    | None =>
        match s with
        | String _ s' => exec_from r ngroups (S pos) s'
        | EmptyString => None
        end
    end.
Proof. destruct s; reflexivity. Qed.

Lemma exec_from_inv (pos : nat) (s : string) (m : MatchResult) :
  exec_from r ngroups pos s = Some m ->
  exists pre s2 rest cs,
    s = pre ++ s2
    /\ matchR r s2 (repeat None ngroups) (fun s' cs => Some (s', cs))
       = Some (rest, cs)
    /\ m = mkMatch (pos + String.length pre) (taken s2 rest) cs
    /\ forall a b, pre = a ++ b -> b <> "" ->
         matchR r (b ++ s2) (repeat None ngroups)
           (fun s' cs => Some (s', cs)) = None.
Proof.
  revert pos. induction s as [|x s IH]; intros pos; rewrite exec_from_eq;
    destruct (matchR r _ _ _) as [[rest cs]|] eqn:E; intros H;
    try discriminate.
  - exists "", "", rest, cs. injection H as <-.
    split; [reflexivity |]. split; [exact E |].
    split; [now rewrite Nat.add_0_r |].
    intros [|? ?] b E' Hb; [simpl in E'; congruence | discriminate].
  - exists "", (String x s), rest, cs. injection H as <-.
    split; [reflexivity |]. split; [exact E |].
    split; [now rewrite Nat.add_0_r |].
    intros [|? ?] b E' Hb; [simpl in E'; congruence | discriminate].
  - destruct (IH (S pos) H) as (pre & s2 & rest & cs & -> & Hm & -> & Hfirst).
    exists (String x pre), s2, rest, cs.
    split; [reflexivity |]. split; [exact Hm |].
    split; [cbn [String.length]; now rewrite Nat.add_succ_r |].
    intros [|y a] b E' Hb; simpl in E'.
    + subst b. exact E.
    + injection E' as -> ->. exact (Hfirst a b eq_refl Hb).
Qed.

Lemma exec_from_intro (pos : nat) (pre s2 rest : string) (cs : captures_t) :
  (forall a b, pre = a ++ b -> b <> "" ->
     matchR r (b ++ s2) (repeat None ngroups)
       (fun s' cs => Some (s', cs)) = None) ->
  matchR r s2 (repeat None ngroups) (fun s' cs => Some (s', cs))
    = Some (rest, cs) ->
  exec_from r ngroups pos (pre ++ s2)
  = Some (mkMatch (pos + String.length pre) (taken s2 rest) cs).
Proof.
  revert pos. induction pre as [|x pre IH]; intros pos Hfirst Hm.
  - cbn [append]. rewrite exec_from_eq, Hm. cbn [String.length].
    now rewrite Nat.add_0_r.
  - cbn [append]. rewrite exec_from_eq.
    pose proof (Hfirst "" (String x pre) eq_refl ltac:(discriminate)) as H0.
    cbn [append] in H0. rewrite H0.
    rewrite IH; [cbn [String.length]; now rewrite Nat.add_succ_r | | exact Hm].
    intros a b -> Hb. exact (Hfirst (String x a) b eq_refl Hb).
Qed.

Lemma exec_from_none (pos : nat) (s : string) :
  exec_from r ngroups pos s = None <->
  forall a b, s = a ++ b ->
    matchR r b (repeat None ngroups) (fun s' cs => Some (s', cs)) = None.
Proof.
  revert pos. induction s as [|x s IH]; intros pos; rewrite exec_from_eq;
    destruct (matchR r _ _ _) as [[rest cs]|] eqn:E.
  - split; [discriminate |]. intros H.
    specialize (H "" "" eq_refl). congruence.
  - split; [| reflexivity]. intros _ [|? ?] b E'; [| discriminate].
    simpl in E'. now subst b.
  - split; [discriminate |]. intros H.
    specialize (H "" (String x s) eq_refl). congruence.
  - rewrite IH. split; intros H.
    + intros [|y a] b E'; simpl in E'.
      * now subst b.
      * injection E' as -> ->. exact (H a b eq_refl).
    + intros a b ->. exact (H (String x a) b eq_refl).
Qed.
End ExecProperties.

(** ** The replacement text *)

Lemma all_chars_append (p : ascii -> bool) (a b : string) :
  all_chars p (a ++ b) = all_chars p a && all_chars p b.
Proof.
  induction a as [|x a IH]; simpl; [reflexivity |].
  now rewrite IH, andb_assoc.
Qed.

Lemma getSubstitution_plain (mt s : string) (p : nat) (cs : captures_t)
    (F T : string) :
  no_dollar F = true ->
  getSubstitution mt s p cs (F ++ T) = F ++ getSubstitution mt s p cs T.
Proof.
  induction F as [|c F IH]; intros H; [reflexivity |].
  cbn [no_dollar all_chars] in H. apply andb_true_iff in H.
  destruct H as [Hc HF]. cbn [append getSubstitution].
  rewrite Hc. now rewrite (IH HF).
Qed.

Lemma getSubstitution_no_dollar (mt s : string) (p : nat) (cs : captures_t)
    (T : string) :
  no_dollar T = true -> getSubstitution mt s p cs T = T.
Proof.
  intros H. rewrite <- (append_nil_r T) at 1.
  rewrite (getSubstitution_plain mt s p cs T "" H). apply append_nil_r.
Qed.

Lemma getSubstitution_group1 (mt s : string) (p : nat) (g1 g2 T : string) :
  getSubstitution mt s p [Some g1; Some g2] ("$1" ++ T)
  = g1 ++ getSubstitution mt s p [Some g1; Some g2] T.
Proof.
  destruct T as [|d2 t3]; [reflexivity |].
  cbn [append getSubstitution]. cbn -[getSubstitution Nat.ltb Nat.mul].
  destruct (is_digit d2); [| reflexivity].
  destruct (Nat.ltb_spec 2 (10 * 1 + digit_val d2)); [reflexivity | lia].
Qed.

Lemma getSubstitution_template (mt s : string) (p : nat) (g1 g2 F : string) :
  no_dollar F = true ->
  getSubstitution mt s p [Some g1; Some g2] ("$1" ++ F ++ "$2")
  = g1 ++ F ++ g2.
Proof.
  intros H. rewrite getSubstitution_group1, (getSubstitution_plain _ _ _ _ _ _ H).
  cbn. now rewrite append_nil_r.
Qed.

(** ** [replace] *)

Lemma skip_past (a b c : string) :
  skip (String.length a + String.length b) (a ++ b ++ c) = c.
Proof.
  rewrite <- length_append, <- append_assoc. apply skip_append.
Qed.

Lemma replace_regex_at (d pre post T : string) (r : regex) (n : nat)
    (m : MatchResult) :
  exec r n d = Some m ->
  d = pre ++ matched m ++ post ->
  index m = String.length pre ->
  replace_regex d r n T
  = pre ++ getSubstitution (matched m) d (index m) (captures m) T ++ post.
Proof.
  intros E Hd Hi. unfold replace_regex. rewrite E, Hi.
  rewrite Hd at 1 3. now rewrite take_append, skip_past.
Qed.

(** ** Patching a tagged region *)

Lemma taken_region (g1 mid g2 rest : string) :
  taken (g1 ++ mid ++ g2 ++ rest) rest = g1 ++ mid ++ g2.
Proof.
  rewrite <- (append_assoc mid g2 rest), <- (append_assoc g1 (mid ++ g2) rest).
  rewrite taken_append. reflexivity.
Qed.

(** The frame of the patch of a tagged region, for a rendered content
    without dollar sign: the leftmost region is found, and only what lies
    between its markers is replaced. *)
Lemma span_patch (d F : string) (m : MatchResult) :
  no_dollar F = true ->
  exec spanPattern spanGroups d = Some m ->
  exists pre g1 mid g2 post : string,
    d = pre ++ g1 ++ mid ++ g2 ++ post
    /\ open_marker g1
    /\ ci_eq g2 "</span>" = true
    /\ first_closing mid (g2 ++ post)
    /\ (forall a b, pre = a ++ b -> b <> "" ->
          matchR spanPattern (b ++ g1 ++ mid ++ g2 ++ post) [None; None]
            (fun s' cs => Some (s', cs)) = None)
    /\ replace_regex d spanPattern spanGroups ("$1" ++ F ++ "$2")
       = pre ++ g1 ++ F ++ g2 ++ post.
Proof.
  intros HF E. pose proof E as E'. apply exec_from_inv in E'.
  destruct E' as (pre & s2 & rest & cs & Hd & Hm & -> & Hfirst).
  change (repeat None spanGroups) with (@nil (option string) ++ [None; None])%list
    in Hm, Hfirst.
  cbn [List.app] in Hm, Hfirst.
  destruct (span_match_inv s2 rest cs Hm)
    as (g1 & mid & g2 & -> & Hg1 & Hg2 & Hmid & ->).
  exists pre, g1, mid, g2, rest.
  repeat (split; [assumption |]).
  rewrite (replace_regex_at d pre rest _ spanPattern spanGroups _ E).
  - cbn [matched captures].
    now rewrite (getSubstitution_template _ _ _ _ _ _ HF), !append_assoc.
  - cbn [matched]. rewrite taken_region, Hd, !append_assoc. reflexivity.
  - reflexivity.
Qed.

(** A pattern text that no character of can match the character [g] does
    not start in the last characters of [b] when [g] follows [b]. *)
Lemma prefix_ci_straddle (t b tail : string) (g : ascii) :
  all_chars (fun c => negb (eq_ci g c)) t = true ->
  (String.length b < String.length t)%nat ->
  prefix_ci t (b ++ String g tail) = false.
Proof.
  revert b. induction t as [|c t IH]; intros b Ht Hb; simpl in *; [lia |].
  apply andb_true_iff in Ht. destruct Ht as [Hc Ht].
  destruct b as [|y b]; simpl in *.
  - apply negb_true_iff in Hc. now rewrite Hc.
  - rewrite (IH b Ht) by lia. apply andb_false_r.
Qed.

Lemma occurs_ci_suffix (t a b : string) :
  occurs_ci t (a ++ b) = false -> prefix_ci t b = false.
Proof.
  intros H. destruct (prefix_ci t b) eqn:P; [| reflexivity].
  rewrite occurs_ci_append in H; [discriminate |].
  destruct b; simpl; now rewrite P.
Qed.

(** A content in which no closing marker occurs, followed by a closing
    marker: the first closing marker is the one that follows. *)
Lemma first_closing_of_content (F g2 post : string) :
  occurs_ci "</span>" F = false ->
  ci_eq g2 "</span>" = true ->
  first_closing F (g2 ++ post).
Proof.
  intros HF Hg2 a b -> Hb.
  destruct g2 as [|g g2]; [discriminate |].
  simpl in Hg2. apply andb_true_iff in Hg2. destruct Hg2 as [Hg _].
  destruct b as [|x b]; [congruence |].
  destruct (Nat.lt_ge_cases (String.length b) 6) as [Hlt | Hge].
  - change (prefix_ci "</span>" (String x b ++ String g g2 ++ post))
      with (eq_ci x "<" && prefix_ci "/span>" (b ++ String g (g2 ++ post))).
    rewrite (prefix_ci_straddle "/span>" b (g2 ++ post) g); [apply andb_false_r | | exact Hlt].
    cbn [all_chars]. rewrite !(eq_ci_shift g "<" _ Hg). reflexivity.
  - rewrite prefix_ci_long by (cbn [String.length]; lia).
    exact (occurs_ci_suffix _ _ _ HF).
Qed.

Lemma skip_append_le (n : nat) (a b : string) :
  (n <= String.length a)%nat -> skip n (a ++ b) = skip n a ++ b.
Proof.
  revert a. induction n as [|n IH]; intros [|x a]; simpl; try reflexivity;
    try lia.
  intros H. apply IH. lia.
Qed.

Lemma open_marker_length (g : string) :
  open_marker g -> (6 <= String.length g)%nat.
Proof.
  intros (w & u & -> & Hw & _). rewrite !length_append.
  rewrite (ci_eq_length _ _ Hw). simpl. lia.
Qed.

Lemma open_marker_has_gt (b g : string) :
  open_marker g -> all_chars not_gt (skip 5 (b ++ g)) = false.
Proof.
  intros (w & u & -> & Hw & _).
  rewrite <- !append_assoc.
  rewrite skip_append_le
    by (rewrite !length_append, (ci_eq_length _ _ Hw); simpl; lia).
  rewrite all_chars_append. apply andb_false_r.
Qed.

(** What decides whether [spanPattern] matches at the start of a string is
    in the string up to its first opening marker, once a closing marker
    follows. *)
Lemma span_none_preserved (b g1 Y1 g2 post Y2 : string) :
  open_marker g1 ->
  ci_eq g2 "</span>" = true ->
  matchR spanPattern (b ++ g1 ++ Y1 ++ g2 ++ post) [None; None]
    (fun s' cs => Some (s', cs)) = None ->
  matchR spanPattern (b ++ g1 ++ Y2) [None; None]
    (fun s' cs => Some (s', cs)) = None.
Proof.
  intros Hg1 Hg2. rewrite !span_at.
  pose proof (open_marker_length g1 Hg1) as Hlen.
  rewrite <- !(append_assoc b g1).
  rewrite !(prefix_ci_long "<span" (b ++ g1))
    by (rewrite length_append; simpl; lia).
  destruct (prefix_ci "<span" (b ++ g1)); [| reflexivity].
  rewrite !(skip_append_le 5 (b ++ g1)) by (rewrite length_append; lia).
  destruct (split_at not_gt (skip 5 (b ++ g1))) as [[u v]|] eqn:E.
  - rewrite !(split_at_more not_gt _ _ u v E).
    destruct (occurs_ci "data-music" u); [| reflexivity].
    intros H. exfalso.
    rewrite <- (append_assoc v Y1) in H.
    apply matchR_lazy_none in H.
    rewrite matchR_closing, (prefix_ci_append g2 "</span>" post Hg2) in H.
    discriminate H.
  - apply split_at_none in E.
    rewrite (open_marker_has_gt b g1 Hg1) in E. discriminate E.
Qed.

(** Patching a tagged region twice with the same content, free of dollar
    signs and of closing markers: the second patch changes nothing. *)
Lemma span_patch_twice (d F : string) :
  no_dollar F = true ->
  occurs_ci "</span>" F = false ->
  test spanPattern spanGroups d = true ->
  let d' := replace_regex d spanPattern spanGroups ("$1" ++ F ++ "$2") in
  test spanPattern spanGroups d' = true
  /\ replace_regex d' spanPattern spanGroups ("$1" ++ F ++ "$2") = d'.
Proof.
  intros HF HC Ht d'. unfold test in Ht.
  destruct (exec spanPattern spanGroups d) as [m|] eqn:E; [| discriminate].
  destruct (span_patch d F m HF E)
    as (pre & g1 & mid & g2 & post & Hd & Hg1 & Hg2 & _ & Hleft & Hd').
  fold d' in Hd'.
  assert (E' : exec spanPattern spanGroups d'
               = Some (mkMatch (0 + String.length pre)
                         (taken (g1 ++ F ++ g2 ++ post) post)
                         [Some g1; Some g2])).
  { rewrite Hd'. apply exec_from_intro.
    - intros a b Hpre Hb.
      apply (span_none_preserved b g1 mid g2 post (F ++ g2 ++ post) Hg1 Hg2).
      exact (Hleft a b Hpre Hb).
    - apply span_match_intro; [exact Hg1 | exact Hg2 |].
      now apply first_closing_of_content. }
  split; [unfold test; now rewrite E' |].
  rewrite (replace_regex_at d' pre post _ spanPattern spanGroups _ E').
  - cbn [matched captures].
    now rewrite (getSubstitution_template _ _ _ _ _ _ HF), Hd', !append_assoc.
  - cbn [matched]. rewrite taken_region, Hd', !append_assoc. reflexivity.
  - reflexivity.
Qed.

(** ** Patching a placeholder *)

Lemma prefix_split (p s : string) :
  String.prefix p s = true -> p ++ skip (String.length p) s = s.
Proof.
  revert s. induction p as [|c p IH]; intros [|a s]; simpl; try discriminate;
    try reflexivity.
  destruct (ascii_dec c a) as [-> |]; [| discriminate].
  intros H. now rewrite (IH s H).
Qed.

Lemma indexOf_split (pat s : string) (pos : nat) :
  indexOf pat s = Some pos ->
  s = take pos s ++ pat ++ skip (pos + String.length pat) s.
Proof.
  revert pos. induction s as [|a s IH]; intros pos; cbn [indexOf].
  - destruct (String.prefix pat "") eqn:P; [| discriminate].
    intros H. injection H as <-. cbn [take append Nat.add].
    now rewrite (prefix_split _ _ P).
  - destruct (String.prefix pat (String a s)) eqn:P.
    + intros H. injection H as <-. cbn [take append Nat.add].
      now rewrite (prefix_split _ _ P).
    + destruct (indexOf pat s) as [n|]; [| discriminate].
      intros H. injection H as <-. cbn [take skip Nat.add append].
      now rewrite <- (IH n eq_refl).
Qed.

Lemma replace_string_at (d pat T : string) (pos : nat) :
  indexOf pat d = Some pos ->
  no_dollar T = true ->
  replace_string d pat T
  = take pos d ++ T ++ skip (pos + String.length pat) d.
Proof.
  intros E HT. unfold replace_string. rewrite E.
  now rewrite (getSubstitution_no_dollar _ _ _ _ _ HT).
Qed.

Lemma append_eq_split (a b c d : string) :
  a ++ b = c ++ d ->
  (exists e, c = a ++ e /\ b = e ++ d) \/ (exists e, a = c ++ e /\ d = e ++ b).
Proof.
  revert c. induction a as [|x a IH]; intros c H.
  - left. exists c. auto.
  - destruct c as [|y c].
    + right. exists (String x a). auto.
    + simpl in H. injection H as -> H.
      destruct (IH c H) as [(e & -> & ->) | (e & -> & ->)].
      * left. exists e. auto.
      * right. exists e. auto.
Qed.

(** The opening marker that the patch of a placeholder writes. *)
Lemma open_marker_tag : open_marker "<span data-music>".
Proof. exists "<span", " data-music". repeat split. Qed.

(** A match of [spanPattern] that starts in the text before the tagged
    region that replaced the placeholder, when that text has no opening
    marker, consists of that text from there on and of the region. *)
Lemma span_at_upgrade (b F post rest : string) (cs : captures_t) :
  matchR openingMarker b [] (fun s' cs => Some (s', cs)) = None ->
  occurs_ci "</span>" F = false ->
  matchR spanPattern (b ++ "<span data-music>" ++ F ++ "</span>" ++ post)
    [None; None] (fun s' cs => Some (s', cs)) = Some (rest, cs) ->
  rest = post /\ cs = [Some (b ++ "<span data-music>"); Some "</span>"].
Proof.
  intros Hno HF H.
  assert (G : open_marker (b ++ "<span data-music>")
              \/ matchR spanPattern
                   (b ++ "<span data-music>" ++ F ++ "</span>" ++ post)
                   [None; None] (fun s' cs => Some (s', cs)) = None).
  { destruct (Nat.lt_ge_cases (String.length b) 5) as [Hlt | Hge].
    - destruct b as [|x b]; [left; exact open_marker_tag |].
      right. rewrite span_at.
      change (prefix_ci "<span"
                (String x b ++ "<span data-music>" ++ F ++ "</span>" ++ post))
        with (eq_ci x "<"
              && prefix_ci "span"
                   (b ++ String "<" ("span data-music>" ++ F ++ "</span>" ++ post))).
      rewrite (prefix_ci_straddle "span" b _ "<" eq_refl)
        by (cbn [String.length] in *; lia).
      now rewrite andb_false_r.
    - rewrite matchR_openingMarker in Hno.
      destruct (prefix_ci "<span" b) eqn:P.
      + destruct (split_at not_gt (skip 5 b)) as [[u v]|] eqn:E.
        * right. rewrite span_at.
          rewrite (prefix_ci_long "<span" b) by exact Hge. rewrite P.
          rewrite (skip_append_le 5 b) by exact Hge.
          rewrite (split_at_more not_gt _ _ u v E).
          now destruct (occurs_ci "data-music" u).
        * left. exists (take 5 b), (skip 5 b ++ "<span data-music").
          split; [| split; [| split]].
          -- rewrite <- (take_skip 5 b) at 1. now rewrite !append_assoc.
          -- exact (prefix_ci_take "<span" b P).
          -- apply split_at_none in E. now rewrite all_chars_append, E.
          -- now apply occurs_ci_append.
      + right. rewrite span_at.
        rewrite (prefix_ci_long "<span" b) by exact Hge. now rewrite P. }
  destruct G as [G | G]; [| congruence].
  rewrite <- (append_assoc b "<span data-music>") in H.
  rewrite (span_match_intro (b ++ "<span data-music>") F "</span>" post G
             eq_refl (first_closing_of_content F "</span>" post HF eq_refl))
    in H.
  split; congruence.
Qed.

(** After a placeholder has become a tagged region, with a content free of
    dollar signs and of closing markers and no opening marker before it,
    patching again with the same content changes nothing. *)
Lemma upgrade_patch_twice (pre F post : string) :
  test openingMarker 0 pre = false ->
  no_dollar F = true ->
  occurs_ci "</span>" F = false ->
  let d' := pre ++ "<span data-music>" ++ F ++ "</span>" ++ post in
  test spanPattern spanGroups d' = true
  /\ replace_regex d' spanPattern spanGroups ("$1" ++ F ++ "$2") = d'.
Proof.
  intros Hpre HF HC d'.
  assert (Hno : forall a b, pre = a ++ b ->
            matchR openingMarker b [] (fun s' cs => Some (s', cs)) = None).
  { unfold test in Hpre.
    destruct (exec openingMarker 0 pre) eqn:E; [discriminate |].
    exact (proj1 (exec_from_none openingMarker 0 0 pre) E). }
  assert (Htag : matchR spanPattern
                   ("<span data-music>" ++ F ++ "</span>" ++ post)
                   [None; None] (fun s' cs => Some (s', cs))
                 = Some (post, [Some "<span data-music>"; Some "</span>"])).
  { apply span_match_intro; [exact open_marker_tag | reflexivity |].
    now apply first_closing_of_content. }
  destruct (exec spanPattern spanGroups d') as [m|] eqn:E.
  - split; [unfold test; now rewrite E |].
    pose proof E as E'. apply exec_from_inv in E'.
    destruct E' as (pre' & s2 & rest & cs & Hd & Hm & -> & Hfirst).
    change (repeat None spanGroups) with [@None string; None] in Hm, Hfirst.
    unfold d' in Hd.
    assert (X : exists e, pre = pre' ++ e
                /\ s2 = e ++ "<span data-music>" ++ F ++ "</span>" ++ post).
    { destruct (append_eq_split _ _ _ _ Hd) as [(e & -> & He) | X];
        [| exact X].
      destruct e as [|x e].
      - exists "". now rewrite !append_nil_r.
      - exfalso. specialize (Hfirst pre (String x e) eq_refl ltac:(discriminate)).
        rewrite <- He in Hfirst. congruence. }
    destruct X as (e & -> & ->).
    destruct (span_at_upgrade e F post rest cs (Hno pre' e eq_refl) HC Hm)
      as [-> ->].
    rewrite (replace_regex_at d' pre' post _ spanPattern spanGroups _ E).
    + cbn [matched captures].
      rewrite (getSubstitution_template _ _ _ _ _ _ HF).
      unfold d'. now rewrite !append_assoc.
    + cbn [matched].
      rewrite <- (append_assoc e "<span data-music>"), taken_region.
      unfold d'. now rewrite !append_assoc.
    + reflexivity.
  - exfalso.
    pose proof (proj1 (exec_from_none spanPattern spanGroups 0 d') E pre _ eq_refl)
      as H.
    change (repeat None spanGroups) with [@None string; None] in H.
    congruence.
Qed.

(** ** Executions *)

Lemma runs_behaves {A : Type} (p : Prog A) (tr : list Entry) (o : Outcome A) :
  runs p tr o <-> behaves p tr o.
Proof.
  split.
  - intros H. induction H; simpl; eauto.
  - revert tr. induction p as [a | e | X eff k IH]; simpl; intros tr H.
    + destruct H as [-> ->]. constructor.
    + destruct H as [-> ->]. constructor.
    + destruct H as (x & tr' & -> & H). constructor. now apply IH.
Qed.

(** A program always runs: whatever the outside world answers, [run] gives
    a trace and an outcome, and they are a run of the program. *)
Lemma run_runs {A S : Type} (w : World S) (p : Prog A) (s : S) :
  runs p (fst (fst (run w p s))) (snd (fst (run w p s))).
Proof.
  revert s. induction p as [a | e | X eff k IH]; intros s; simpl.
  - constructor.
  - constructor.
  - destruct (w X eff s) as [x s'] eqn:E.
    specialize (IH x s'). destruct (run w (k x) s') as [[tr o] s''].
    simpl in *. now constructor.
Qed.

Lemma behaves_bind {A B : Type} (p : Prog A) (f : A -> Prog B)
    (tr : list Entry) (o : Outcome B) :
  behaves (bind p f) tr o ->
  (exists a tr1 tr2,
      behaves p tr1 (Returned a) /\ behaves (f a) tr2 o
      /\ tr = (tr1 ++ tr2)%list)
  \/ (exists e, behaves p tr (Threw e) /\ o = Threw e).
Proof.
  revert tr. induction p as [a | e | X eff k IH]; simpl; intros tr H.
  - left. exists a, [], tr. auto.
  - right. exists e. destruct H as [-> ->]. auto.
  - destruct H as (x & tr' & -> & H).
    destruct (IH x tr' H) as [(a & tr1 & tr2 & H1 & H2 & ->) | (e & H1 & ->)].
    + left. exists a, (entry eff x :: tr1), tr2. eauto 6.
    + right. exists e. eauto 6.
Qed.

Lemma effects_in_behaves {A : Type} (P : Entry -> bool) (p : Prog A)
    (tr : list Entry) (o : Outcome A) :
  effects_in P p -> behaves p tr o -> forallb P tr = true.
Proof.
  intros E. revert tr. induction E as [a | e | X eff k HP _ IH];
    simpl; intros tr H.
  - now destruct H as [-> _].
  - now destruct H as [-> _].
  - destruct H as (x & tr' & -> & H). simpl.
    rewrite HP. simpl. now apply (IH x).
Qed.

Lemma effects_in_bind {A B : Type} (P : Entry -> bool) (p : Prog A)
    (f : A -> Prog B) :
  effects_in P p -> (forall a, effects_in P (f a)) -> effects_in P (bind p f).
Proof.
  intros E F. induction E; simpl; auto using effects_in.
Qed.

Lemma effects_in_catch {A : Type} (P : Entry -> bool) (p : Prog A)
    (h : JsError -> Prog A) :
  effects_in P p -> (forall e, effects_in P (h e)) -> effects_in P (catch p h).
Proof.
  intros E F. induction E; simpl; auto using effects_in.
Qed.

Ltac effects :=
  repeat first
    [ apply effects_in_bind
    | apply effects_in_catch
    | apply effects_Ret
    | apply effects_Throw
    | apply effects_Do
    | intro
    | reflexivity
    | match goal with
      | |- effects_in _ (if ?b then _ else _) => destruct b
      | |- effects_in _ (match ?x with _ => _ end) => destruct x
      end ].

Ltac split_forallb :=
  repeat first [ rewrite forallb_app | progress cbn [forallb] ].

(** One step of a run: the program performs its next effect, or the
    proof splits on the value that decides how it goes on. *)
Ltac step H :=
  unfold await, perform, response_json in H;
  cbn [behaves bind catch] in H;
  lazymatch type of H with
  | behaves (match ?x with _ => _ end) _ _ => destruct x eqn:?
  | behaves (bind (match ?x with _ => _ end) _) _ _ => destruct x eqn:?
  | behaves (catch (match ?x with _ => _ end) _) _ _ => destruct x eqn:?
  | behaves (catch (bind (match ?x with _ => _ end) _) _) _ _ =>
      destruct x eqn:?
  | exists _, _ => destruct H as (? & ? & -> & H)
  | _ /\ _ => destruct H as [-> ->]
  end.

Section ProgramProperties.
Context {rt : Runtime}.
Variable config : EnvConfig.

Lemma fetchRecentTrack_quiet : effects_in quiet (fetchRecentTrack config).
Proof. unfold fetchRecentTrack, await, perform, response_json. effects. Qed.

Lemma loadCache_quiet : effects_in quiet (loadCache config).
Proof. unfold loadCache, await, perform. effects. Qed.

(** The runs of [updateReadme]: either it writes nothing, and does not
    return true; or it reads the README, reads the clock and sends one
    write, the last effect of the run, that carries the revision token of
    the read, and the outcome is the answer to that write. *)
Lemma updateReadme_cases (track : TrackInfo) (tr : list Entry)
    (o : Outcome bool) :
  behaves (updateReadme config track) tr o ->
  (forallb quiet tr = true /\ o <> Returned true)
  \/ (exists url hd resp data now url' hd' body ans next,
        tr = [ entry (Fetch_get url hd) (inr resp);
               entry Date_now now;
               entry (Fetch_put url' hd' body) ans ]
        /\ json resp = Some data
        /\ put_sha body = sha data
        /\ nextReadme config (decoded data) (formatTrack now track)
           = Some next
        /\ next <> decoded data
        /\ put_content body = Buffer_base64 next
        /\ o = match ans with
               | inl e => Threw e
               | inr r =>
                   if ok r then Returned true
                   else Threw (Error ("GitHub README update failed ("
                                        ++ string_of_Z (status r) ++ ")"))
               end).
Proof.
  unfold updateReadme. intros H.
  repeat step H; try (left; split; [reflexivity | discriminate]).
  all: right; do 10 eexists; split; [reflexivity |].
  all: split; [eassumption |]; split; [reflexivity |].
  all: split; [eassumption |]; split; [now apply String.eqb_neq |].
  all: split; [reflexivity |].
  all: try reflexivity.
  all: match goal with
       | |- context [if ok ?r then _ else _] => destruct (ok r)
       end; simpl in *; congruence.
Qed.

Lemma saveCache_no_put (track : TrackInfo) :
  effects_in (fun en => negb (is_put en)) (saveCache config track).
Proof. unfold saveCache, await, perform. effects. Qed.

(** The runs of a poll cycle: either it writes nothing at all; or it
    sends one write to the README, with the revision token of the read
    that comes just before, and what follows depends on the answer: a
    success is followed by the write of the cache, anything else ends the
    cycle on the spot with an error. *)
Lemma tick_cases (tr : list Entry) (o : Outcome unit) :
  behaves (tick config) tr o ->
  forallb quiet tr = true
  \/ (exists tr0 url hd resp data now url' hd' body ans after,
        tr = (tr0 ++ [ entry (Fetch_get url hd) (inr resp);
                       entry Date_now now;
                       entry (Fetch_put url' hd' body) ans ] ++ after)%list
        /\ forallb quiet tr0 = true
        /\ json resp = Some data
        /\ put_sha body = sha data
        /\ forallb (fun en => negb (is_put en)) after = true
        /\ match ans with
           | inl e => after = [] /\ o = Threw e
           | inr r =>
               if ok r then True
               else after = []
                    /\ o = Threw (Error ("GitHub README update failed ("
                                           ++ string_of_Z (status r) ++ ")"))
           end).
Proof.
  unfold tick. intros H.
  apply behaves_bind in H.
  destruct H as [(a & tr1 & tr2 & H1 & H2 & ->) | (e & H1 & ->)];
    [| left; exact (effects_in_behaves _ _ _ _ fetchRecentTrack_quiet H1)].
  pose proof (effects_in_behaves _ _ _ _ fetchRecentTrack_quiet H1) as Q1.
  destruct a as [track|];
    [| left; repeat step H2; split_forallb; rewrite Q1; reflexivity].
  apply behaves_bind in H2.
  destruct H2 as [(cache & tr3 & tr4 & H3 & H4 & ->) | (e & H3 & ->)];
    [| left; split_forallb; rewrite Q1;
       exact (effects_in_behaves _ _ _ _ loadCache_quiet H3)].
  pose proof (effects_in_behaves _ _ _ _ loadCache_quiet H3) as Q3.
  step H4. step H4;
    [left; repeat step H4; split_forallb; rewrite Q1, Q3; reflexivity |].
  apply behaves_bind in H4.
  destruct H4 as [(updated & tr5 & tr6 & H5 & H6 & ->) | (e & H5 & ->)];
    apply updateReadme_cases in H5;
    destruct H5 as [[Q5 N5] |
      (url & hd & resp & data & now & url' & hd' & body & ans & next
         & -> & Hj & Hs & _ & _ & _ & Ho)].
  - destruct updated; [congruence |]. step H6.
    left. split_forallb. rewrite Q1, Q3, Q5. reflexivity.
  - right. exists (tr1 ++ tr3 ++ [entry Date_now x])%list.
    exists url, hd, resp, data, now, url', hd', body, ans, tr6.
    split; [now rewrite <- !app_assoc |].
    split; [split_forallb; rewrite Q1, Q3; reflexivity |].
    split; [exact Hj |]. split; [exact Hs |].
    destruct ans as [e | r]; [discriminate Ho |].
    destruct (ok r); [| discriminate Ho].
    injection Ho as ->. split; [| exact I].
    apply behaves_bind in H6.
    destruct H6 as [(u & tr7 & tr8 & H7 & H8 & ->) | (e & H7 & ->)].
    + split_forallb.
      rewrite (effects_in_behaves _ _ _ _ (saveCache_no_put track) H7).
      now repeat step H8.
    + exact (effects_in_behaves _ _ _ _ (saveCache_no_put track) H7).
  - left. split_forallb. rewrite Q1, Q3, Q5. reflexivity.
  - right. exists (tr1 ++ tr3 ++ [entry Date_now x])%list.
    exists url, hd, resp, data, now, url', hd', body, ans, [].
    split; [now rewrite <- !app_assoc |].
    split; [split_forallb; rewrite Q1, Q3; reflexivity |].
    split; [exact Hj |]. split; [exact Hs |]. split; [reflexivity |].
    destruct ans as [e' | r]; [now injection Ho as -> |].
    destruct (ok r); [discriminate Ho |]. now injection Ho as ->.
Qed.

Lemma put_rejected_is_put (en : Entry) :
  put_rejected en = true -> is_put en = true.
Proof.
  destruct en as [X eff a]. destruct eff; simpl; congruence.
Qed.

Lemma no_put_not_rejected (tr : list Entry) :
  forallb (fun en => negb (is_put en)) tr = true ->
  existsb put_rejected tr = false.
Proof.
  induction tr as [|en tr IH]; simpl; [reflexivity |].
  intros H. apply andb_true_iff in H. destruct H as [H1 H2].
  rewrite (IH H2), orb_false_r.
  destruct (put_rejected en) eqn:E; [| reflexivity].
  apply put_rejected_is_put in E. now rewrite E in H1.
Qed.

Lemma no_put_at_all (tr : list Entry) :
  forallb (fun en => negb (is_put en)) tr = true ->
  existsb is_put tr = false.
Proof.
  induction tr as [|en tr IH]; simpl; [reflexivity |].
  intros H. apply andb_true_iff in H. destruct H as [H1 H2].
  rewrite (IH H2). now destruct (is_put en).
Qed.

Lemma quiet_no_put (tr : list Entry) :
  forallb quiet tr = true -> forallb (fun en => negb (is_put en)) tr = true.
Proof.
  induction tr as [|en tr IH]; simpl; [reflexivity |].
  intros H. apply andb_true_iff in H. destruct H as [H1 H2].
  rewrite (IH H2), andb_true_r.
  unfold quiet in H1. now destruct (is_put en).
Qed.

Lemma quiet_no_writeFile (tr : list Entry) :
  forallb quiet tr = true -> existsb is_writeFile tr = false.
Proof.
  induction tr as [|en tr IH]; simpl; [reflexivity |].
  intros H. apply andb_true_iff in H. destruct H as [H1 H2].
  rewrite (IH H2), orb_false_r.
  unfold quiet in H1. destruct (is_writeFile en); [| reflexivity].
  now rewrite orb_true_r in H1.
Qed.

(** C3. In a poll cycle, a write to the README comes right after the read
    of the README and a reading of the clock, carries the revision token of
    that read, and is the only write to the README of the cycle.  When the
    host answers it with anything but a success, the cycle ends there with
    the error "GitHub README update failed": the write is the last effect
    of the cycle, and the cache file is not written.  And a cycle that
    writes the cache file has first had its write to the README answered
    with a success. *)
Theorem tick_write_rejected (tr : list Entry) (o : Outcome unit) :
  runs (tick config) tr o ->
  (existsb is_put tr = true ->
     exists tr0 url hd resp data now url' hd' body answer after,
       tr = (tr0 ++ [ entry (Fetch_get url hd) (inr resp);
                      entry Date_now now;
                      entry (Fetch_put url' hd' body) answer ] ++ after)%list
       /\ json resp = Some data
       /\ put_sha body = sha data
       /\ existsb is_put tr0 = false
       /\ existsb is_put after = false)
  /\ (existsb put_rejected tr = true ->
        exists tr0 url hd resp data now url' hd' body putResponse,
          tr = (tr0 ++ [ entry (Fetch_get url hd) (inr resp);
                         entry Date_now now;
                         entry (Fetch_put url' hd' body) (inr putResponse) ])%list
          /\ json resp = Some data
          /\ put_sha body = sha data
          /\ ok putResponse = false
          /\ o = Threw (Error ("GitHub README update failed ("
                                 ++ string_of_Z (status putResponse) ++ ")"))
          /\ List.length (List.filter is_put tr) = 1%nat
          /\ existsb is_writeFile tr = false)
  /\ (existsb is_writeFile tr = true ->
        exists tr0 url hd body putResponse after,
          tr = (tr0 ++ entry (Fetch_put url hd body) (inr putResponse)
                    :: after)%list
          /\ ok putResponse = true
          /\ existsb is_writeFile tr0 = false).
Proof.
  intros H. apply runs_behaves, tick_cases in H.
  destruct H as [Q |
    (tr0 & url & hd & resp & data & now & url' & hd' & body & ans & after
       & -> & Q0 & Hj & Hs & Qa & Ho)].
  - split; [| split]; intros E.
    + now rewrite (no_put_at_all _ (quiet_no_put _ Q)) in E.
    + now rewrite (no_put_not_rejected _ (quiet_no_put _ Q)) in E.
    + now rewrite (quiet_no_writeFile _ Q) in E.
  - split; [| split]; intros E.
    + exists tr0, url, hd, resp, data, now, url', hd', body, ans, after.
      split; [reflexivity |]. split; [exact Hj |]. split; [exact Hs |].
      split; apply no_put_at_all; [now apply quiet_no_put | exact Qa].
    + rewrite !existsb_app in E.
      rewrite (no_put_not_rejected _ (quiet_no_put _ Q0)),
        (no_put_not_rejected _ Qa) in E.
      destruct ans as [e | r]; [discriminate E |].
      simpl in E. rewrite ?orb_false_r in E.
      apply negb_true_iff in E. rewrite E in Ho. destruct Ho as [-> ->].
      exists tr0, url, hd, resp, data, now, url', hd', body, r.
      repeat (split; [assumption || reflexivity |]).
      rewrite filter_app, length_app, existsb_app,
        (quiet_no_writeFile _ Q0).
      split; [| reflexivity].
      replace (filter is_put tr0) with (@nil Entry); [reflexivity |].
      symmetry. clear - Q0.
      induction tr0 as [|en tr0 IH]; simpl in *; [reflexivity |].
      apply andb_true_iff in Q0. destruct Q0 as [H1 H2].
      unfold quiet in H1. destruct (is_put en); [discriminate H1 |].
      now apply IH.
    + destruct ans as [e | r].
      * destruct Ho as [-> _].
        rewrite existsb_app, (quiet_no_writeFile _ Q0) in E.
        discriminate E.
      * destruct (ok r) eqn:Hok.
        -- exists (tr0 ++ [ entry (Fetch_get url hd) (inr resp);
                            entry Date_now now ])%list.
           exists url', hd', body, r, after.
           split; [now rewrite <- app_assoc |].
           split; [exact Hok |].
           now rewrite existsb_app, (quiet_no_writeFile _ Q0).
        -- destruct Ho as [-> _].
           rewrite existsb_app, (quiet_no_writeFile _ Q0) in E.
           discriminate E.
Qed.

End ProgramProperties.

(** ** Document patcher *)

Section PatchProperties.
Context {rt : Runtime}.
Variable config : EnvConfig.

Lemma nextReadme_span (d F : string) :
  test spanPattern spanGroups d = true ->
  nextReadme config d F
  = Some (replace_regex d spanPattern spanGroups ("$1" ++ F ++ "$2")).
Proof. intros H. unfold nextReadme. now rewrite H. Qed.

(** When the new text of the README is the text that the host sent,
    [updateReadme] returns false and sends no write. *)
Lemma updateReadme_noop (S : Type) (w : World S) (s s1 s2 : S)
    (track : TrackInfo) (resp : Response GithubContentResponse)
    (data : GithubContentResponse) (now : Z) :
  w _ (Fetch_get (endpoint config ++ "?ref=" ++ githubBranch config)
         (headers config)) s = (inr resp, s1) ->
  ok resp = true ->
  json resp = Some data ->
  type data = Some "file" ->
  truthy (content data) = true ->
  w _ Date_now s1 = (now, s2) ->
  nextReadme config (decoded data) (formatTrack now track)
    = Some (decoded data) ->
  outcome (run w (updateReadme config track) s) = Returned false
  /\ existsb is_put (trace (run w (updateReadme config track) s)) = false.
Proof.
  intros Hget Hok Hjson Htype Hcontent Hnow Hnext.
  unfold updateReadme, await, perform, response_json.
  cbn [run bind]. rewrite Hget. cbn [run bind]. rewrite Hok.
  cbn [negb]. rewrite Hjson. cbn [run bind].
  rewrite Htype, Hcontent.
  change (opt_neq (Some "file") (Some "file") || negb true) with false.
  cbn [run]. rewrite Hnow, Hnext, String.eqb_refl. cbn [run].
  destruct (w unit (Console_log "[music] README already up-to-date") s2).
  split; reflexivity.
Qed.

(** C2, amended. Whenever the text computed for the README is the text
    that the host sent, [updateReadme] returns false and sends no write.
    In particular, when the text that the host sends is a document with a
    tagged region after it has been patched with a rendered content, and
    the content rendered now is the same and has neither a dollar sign
    nor a closing marker in it, [updateReadme] returns false and sends no
    write. *)
Theorem no_op_detection (S : Type) (w : World S) (s s1 s2 : S)
    (track : TrackInfo) (resp : Response GithubContentResponse)
    (data : GithubContentResponse) (now : Z) :
  w _ (Fetch_get (endpoint config ++ "?ref=" ++ githubBranch config)
         (headers config)) s = (inr resp, s1) ->
  ok resp = true ->
  json resp = Some data ->
  type data = Some "file" ->
  truthy (content data) = true ->
  w _ Date_now s1 = (now, s2) ->
  (nextReadme config (decoded data) (formatTrack now track)
     = Some (decoded data) ->
   outcome (run w (updateReadme config track) s) = Returned false
   /\ existsb is_put (trace (run w (updateReadme config track) s)) = false)
  /\ (forall d0 : string,
        test spanPattern spanGroups d0 = true ->
        nextReadme config d0 (formatTrack now track) = Some (decoded data) ->
        no_dollar (formatTrack now track) = true ->
        occurs_ci "</span>" (formatTrack now track) = false ->
        outcome (run w (updateReadme config track) s) = Returned false
        /\ existsb is_put (trace (run w (updateReadme config track) s))
           = false).
Proof.
  intros Hget Hok Hjson Htype Hcontent Hnow.
  split; [now apply updateReadme_noop with (s1 := s1) (s2 := s2)
                (resp := resp) (data := data) (now := now) |].
  intros d0 Ht Hd0 HF HC.
  apply updateReadme_noop with (s1 := s1) (s2 := s2) (resp := resp)
    (data := data) (now := now); try assumption.
  rewrite (nextReadme_span d0 _ Ht) in Hd0.
  assert (E : replace_regex d0 spanPattern spanGroups
                ("$1" ++ formatTrack now track ++ "$2") = decoded data)
    by congruence.
  pose proof (span_patch_twice d0 _ HF HC Ht) as H.
  cbv zeta in H. rewrite E in H. destruct H as [Ht' Hsame].
  now rewrite (nextReadme_span _ _ Ht'), Hsame.
Qed.

(** C6, amended. In a document without tagged region, with the
    placeholder and no opening marker before its first occurrence, one
    patch with a rendered content that has neither a dollar sign nor a
    closing marker in it replaces that occurrence with the content
    between the two markers.  The document then has a tagged region, and
    patching it again with the same content gives the same document:
    [updateReadme] returns false and sends no write. *)
Theorem placeholder_upgrade (d F : string) (pos : nat) :
  test spanPattern spanGroups d = false ->
  indexOf (placeholder config) d = Some pos ->
  test openingMarker 0 (take pos d) = false ->
  no_dollar F = true ->
  occurs_ci "</span>" F = false ->
  let d' :=
    take pos d ++ "<span data-music>" ++ F ++ "</span>"
      ++ skip (pos + String.length (placeholder config)) d in
  d = take pos d ++ placeholder config
        ++ skip (pos + String.length (placeholder config)) d
  /\ nextReadme config d F = Some d'
  /\ test spanPattern spanGroups d' = true
  /\ nextReadme config d' F = Some d'
  /\ forall (S : Type) (w : World S) (s s1 s2 : S) (track : TrackInfo)
       (resp : Response GithubContentResponse)
       (data : GithubContentResponse) (now : Z),
       w _ (Fetch_get (endpoint config ++ "?ref=" ++ githubBranch config)
              (headers config)) s = (inr resp, s1) ->
       ok resp = true ->
       json resp = Some data ->
       type data = Some "file" ->
       truthy (content data) = true ->
       w _ Date_now s1 = (now, s2) ->
       decoded data = d' ->
       formatTrack now track = F ->
       outcome (run w (updateReadme config track) s) = Returned false
       /\ existsb is_put (trace (run w (updateReadme config track) s))
          = false.
Proof.
  intros Ht Hi Hpre HF HC d'.
  destruct (upgrade_patch_twice (take pos d) F
              (skip (pos + String.length (placeholder config)) d)
              Hpre HF HC) as [Ht' Hsame].
  fold d' in Ht', Hsame.
  assert (H1 : nextReadme config d F = Some d').
  { unfold nextReadme, includes. rewrite Ht, Hi.
    rewrite (replace_string_at d _ _ pos Hi).
    - unfold d'. now rewrite !append_assoc.
    - unfold no_dollar in *. now rewrite !all_chars_append, HF. }
  assert (H2 : nextReadme config d' F = Some d').
  { now rewrite (nextReadme_span _ _ Ht'), Hsame. }
  split; [exact (indexOf_split _ _ _ Hi) |].
  repeat (split; [assumption |]).
  intros S w s s1 s2 track resp data now Hget Hok Hjson Htype Hcontent
    Hnow Hd HFn.
  apply updateReadme_noop with (s1 := s1) (s2 := s2) (resp := resp)
    (data := data) (now := now); try assumption.
  now rewrite Hd, HFn.
Qed.
End PatchProperties.

Lemma tick_write_rejected_witness :
  let r := run sampleWorld (tick (rt := sampleRuntime) sampleConfig)
             (sampleHost "x %music% y" true) in
  existsb put_rejected (trace r) = true
  /\ exists tr0 url hd resp data now url' hd' body putResponse,
       trace r = (tr0 ++ [ entry (Fetch_get url hd) (inr resp);
                           entry Date_now now;
                           entry (Fetch_put url' hd' body) (inr putResponse) ])%list
       /\ json resp = Some data
       /\ put_sha body = sha data
       /\ ok putResponse = false
       /\ outcome r
          = Threw (Error ("GitHub README update failed ("
                            ++ string_of_Z (status putResponse) ++ ")"))
       /\ List.length (List.filter is_put (trace r)) = 1%nat
       /\ existsb is_writeFile (trace r) = false.
Proof.
  split; [vm_compute; reflexivity |].
  apply (proj1 (proj2 (@tick_write_rejected sampleRuntime sampleConfig _ _
                  (run_runs sampleWorld (tick (rt := sampleRuntime) sampleConfig)
                     (sampleHost "x %music% y" true))))).
  vm_compute; reflexivity.
Defined.



Lemma no_op_detection_witness :
  let d0 := "# Hi <span data-music>old</span> bye" in
  let F := formatTrack 1704067200000 sampleTrack in
  let d1 := replace_regex d0 spanPattern spanGroups ("$1" ++ F ++ "$2") in
  let r := run sampleWorld
             (updateReadme (rt := sampleRuntime) sampleConfig sampleTrack)
             (sampleHost d1 false) in
  outcome r = Returned false /\ existsb is_put (trace r) = false.
Proof.
  intros d0 F d1 r.
  apply (proj2 (@no_op_detection sampleRuntime sampleConfig HostState
                  sampleWorld (sampleHost d1 false) (sampleHost d1 false)
                  (sampleHost d1 false) sampleTrack
                  (mkResponse true 200
                     (Some (mkGithubContentResponse (Some "file") (sha_of 7)
                              (Some d1) (Some "base64"))))
                  (mkGithubContentResponse (Some "file") (sha_of 7) (Some d1)
                     (Some "base64"))
                  1704067200000
                  eq_refl eq_refl eq_refl eq_refl
                  ltac:(vm_compute; reflexivity) eq_refl) d0);
    vm_compute; reflexivity.
Defined.

(** C2, as the claim states it, fails: a document with a tagged region is
    patched for a track whose title is a closing marker, and patched again
    at the same clock reading, so with the same rendered content; the second
    patch sends a write too. *)
Lemma second_patch_writes_again :
  let track := mkTrackInfo "</span>" "Artist X" None None false 0 in
  let d0 := "# Hi <span data-music>old</span> bye" in
  let first := run sampleWorld
                 (updateReadme (rt := sampleRuntime) sampleConfig track)
                 (sampleHost d0 false) in
  let second := run sampleWorld
                  (updateReadme (rt := sampleRuntime) sampleConfig track)
                  (final first) in
  test spanPattern spanGroups d0 = true
  /\ outcome first = Returned true
  /\ clock (final first) = clock (sampleHost d0 false)
  /\ existsb is_put (trace second) = true
  /\ outcome second = Returned true
  /\ readme (final second) <> readme (final first).
Proof.
  vm_compute. repeat split; discriminate.
Qed.

Lemma placeholder_upgrade_witness :
  let d := "# Hi %music% bye" in
  let F := formatTrack 1704067200000 sampleTrack in
  let d' := take 5 d ++ "<span data-music>" ++ F ++ "</span>"
              ++ skip (5 + String.length (placeholder sampleConfig)) d in
  nextReadme sampleConfig d F = Some d'
  /\ test spanPattern spanGroups d' = true
  /\ nextReadme sampleConfig d' F = Some d'.
Proof.
  intros d F d'.
  destruct (@placeholder_upgrade sampleRuntime sampleConfig d F 5
              ltac:(vm_compute; reflexivity) ltac:(vm_compute; reflexivity)
              ltac:(vm_compute; reflexivity) ltac:(vm_compute; reflexivity)
              ltac:(vm_compute; reflexivity)) as (_ & H1 & H2 & H3 & _).
  split; [exact H1 | split; [exact H2 | exact H3]].
Defined.

(** C6, as the claim states it, fails: in a document where an opening
    marker that is never closed comes before the placeholder, the patch of
    the placeholder is followed by a second patch, with the same rendered
    content, that sends a write too. *)
Lemma upgrade_then_write_again :
  let d0 := "<span data-music>%music%" in
  let first := run sampleWorld
                 (updateReadme (rt := sampleRuntime) sampleConfig sampleTrack)
                 (sampleHost d0 false) in
  let second := run sampleWorld
                  (updateReadme (rt := sampleRuntime) sampleConfig sampleTrack)
                  (final first) in
  test spanPattern spanGroups d0 = false
  /\ includes d0 (placeholder sampleConfig) = true
  /\ outcome first = Returned true
  /\ clock (final first) = clock (sampleHost d0 false)
  /\ existsb is_put (trace second) = true
  /\ outcome second = Returned true
  /\ readme (final second) <> readme (final first).
Proof.
  vm_compute. repeat split; discriminate.
Qed.

(** C5: the frame of the patch is broken by a dollar sign in the rendered
    content.  For the track "$$$" the text put between the markers is not
    the rendered content: [replace] expands the first two dollar signs of
    the title to one.  For the title "$1 Coffee" it expands [$1] to the
    opening marker. *)
Theorem dollar_breaks_frame :
  let d := "# Hi <span data-music>old</span> bye" in
  let F := formatTrack 0 (mkTrackInfo "$$$" "XXXTENTACION" None None false 0) in
  let G := formatTrack 0 (mkTrackInfo "$1 Coffee" "Artist X" None None false 0) in
  F = "<samp><strong>$$$</strong><br/>by XXXTENTACION</samp>"
  /\ nextReadme sampleConfig d F
     = Some "# Hi <span data-music><samp><strong>$$</strong><br/>by XXXTENTACION</samp></span> bye"
  /\ nextReadme sampleConfig d F
     <> Some ("# Hi <span data-music>" ++ F ++ "</span> bye")
  /\ nextReadme sampleConfig d G
     = Some "# Hi <span data-music><samp><strong><span data-music> Coffee</strong><br/>by Artist X</samp></span> bye"
  /\ nextReadme sampleConfig d G
     <> Some ("# Hi <span data-music>" ++ G ++ "</span> bye").
Proof.
  vm_compute. repeat split; discriminate.
Qed.

(** * Further properties *)

(** ** Process configuration *)

Lemma truthy_spec (o : option string) :
  truthy o = true <-> exists s, o = Some s /\ s <> "".
Proof.
  destruct o as [s|]; simpl.
  - rewrite negb_true_iff, String.eqb_neq. split.
    + intros H. exists s. auto.
    + intros (s' & E & H). now injection E as ->.
  - split; [discriminate | intros (s & E & _); discriminate].
Qed.

Lemma or_default_nonempty (a : option string) (b : string) :
  b <> "" -> or_default a b <> "".
Proof.
  intros Hb. unfold or_default. destruct (truthy a) eqn:E; [| exact Hb].
  apply truthy_spec in E. destruct E as (s & -> & Hs). exact Hs.
Qed.

Section ConfigurationProperties.
Variable Number_parse : string -> option Z.
Variable path_resolve : string -> string.

Lemma toNumber_at_least (value : option string) (fallback min : Z) :
  min <= fallback -> min <= toNumber Number_parse value fallback min.
Proof.
  intros H. unfold toNumber. destruct (truthy value).
  - destruct (Number_parse (tmpl value)); lia.
  - lia.
Qed.

(** X1. [toNumber] keeps a number at or above its floor: a variable that is
    unset or empty gives the larger of the floor and the fallback, a text
    that [Number] reads as [n] gives the larger of the floor and [n], a
    text that [Number] does not read gives the fallback as it is; so the
    result is at least the floor whenever the fallback is. *)
Theorem toNumber_floor (value : option string) (fallback min : Z) :
  (truthy value = false ->
     toNumber Number_parse value fallback min = Z.max min fallback)
  /\ (forall (text : string) (n : Z),
        value = Some text -> text <> "" -> Number_parse text = Some n ->
        toNumber Number_parse value fallback min = Z.max min n)
  /\ (forall text : string,
        value = Some text -> text <> "" -> Number_parse text = None ->
        toNumber Number_parse value fallback min = fallback)
  /\ (min <= fallback -> min <= toNumber Number_parse value fallback min).
Proof.
  unfold toNumber. split; [| split; [| split]].
  - intros H. now rewrite H.
  - intros text n -> Ht Hn.
    rewrite (proj2 (truthy_spec (Some text))) by eauto.
    cbn [tmpl]. now rewrite Hn.
  - intros text -> Ht Hn.
    rewrite (proj2 (truthy_spec (Some text))) by eauto.
    cbn [tmpl]. now rewrite Hn.
  - intros H. destruct (truthy value).
    + destruct (Number_parse (tmpl value)); lia.
    + lia.
Qed.

(** X2. [getConfig] throws exactly when a required variable is unset or
    empty, and the error names the first such variable in the order
    LASTFM_API_KEY, LASTFM_USERNAME, GITHUB_TOKEN, GITHUB_OWNER,
    GITHUB_REPO. *)
Theorem getConfig_required (env : ProcessEnv) :
  ((forall name, In name required_vars -> truthy (env name) = true) ->
     exists config,
       getConfig Number_parse path_resolve env = Returned config)
  /\ (forall before name after,
        required_vars = (before ++ name :: after)%list ->
        (forall n, In n before -> truthy (env n) = true) ->
        truthy (env name) = false ->
        getConfig Number_parse path_resolve env
        = Threw (Error ("Missing required env var " ++ name))).
Proof.
  split.
  - intros H. unfold getConfig, requireEnv.
    rewrite !H by (simpl; auto 10). cbn [negb]. eauto.
  - intros before name after E Hb Hn.
    unfold required_vars in E.
    destruct before as [|b1 [|b2 [|b3 [|b4 [|b5 before]]]]];
      cbn [List.app] in E; injection E; intros; subst;
      unfold getConfig, requireEnv;
      rewrite ?Hb by (simpl; auto 10); rewrite ?Hn; cbn [negb];
      try reflexivity.
    destruct before; discriminate.
Qed.

(** X3. A configuration that [getConfig] returns has the required variables
    of the environment, none of them empty; a branch, a path of the README,
    a placeholder and a user agent that are not empty, the default standing
    in for a variable that is unset or empty; a poll interval of at least
    5000 ms and a time to live of the cache of at least 60000 ms. *)
Theorem getConfig_invariants (env : ProcessEnv) (config : EnvConfig) :
  getConfig Number_parse path_resolve env = Returned config ->
  (env "LASTFM_API_KEY" = Some (lastfmApiKey config)
   /\ env "LASTFM_USERNAME" = Some (lastfmUsername config)
   /\ env "GITHUB_TOKEN" = Some (githubToken config)
   /\ env "GITHUB_OWNER" = Some (githubOwner config)
   /\ env "GITHUB_REPO" = Some (githubRepo config))
  /\ (lastfmApiKey config <> "" /\ lastfmUsername config <> ""
      /\ githubToken config <> "" /\ githubOwner config <> ""
      /\ githubRepo config <> "")
  /\ (githubBranch config <> "" /\ readmePath config <> ""
      /\ placeholder config <> "" /\ userAgent config <> "")
  /\ (truthy (env "GITHUB_BRANCH") = false -> githubBranch config = "main")
  /\ (truthy (env "README_PATH") = false -> readmePath config = "README.md")
  /\ (truthy (env "MUSIC_PLACEHOLDER") = false ->
      placeholder config = "%music%")
  /\ (truthy (env "APP_USER_AGENT") = false -> userAgent config = "april-ivy")
  /\ 5000 <= updateIntervalMs config
  /\ 60000 <= cacheTtlMs config.
Proof.
  unfold getConfig, requireEnv.
  destruct (truthy (env "LASTFM_API_KEY")) eqn:E1; [| discriminate].
  destruct (truthy (env "LASTFM_USERNAME")) eqn:E2; [| discriminate].
  destruct (truthy (env "GITHUB_TOKEN")) eqn:E3; [| discriminate].
  destruct (truthy (env "GITHUB_OWNER")) eqn:E4; [| discriminate].
  destruct (truthy (env "GITHUB_REPO")) eqn:E5; [| discriminate].
  cbn [negb]. intros H. injection H as <-.
  cbn [lastfmApiKey lastfmUsername githubToken githubOwner githubRepo
       githubBranch readmePath placeholder userAgent updateIntervalMs
       cacheTtlMs].
  apply truthy_spec in E1, E2, E3, E4, E5.
  destruct E1 as (s1 & -> & N1), E2 as (s2 & -> & N2), E3 as (s3 & -> & N3),
    E4 as (s4 & -> & N4), E5 as (s5 & -> & N5).
  cbn [tmpl].
  split; [auto |]. split; [auto |].
  split; [repeat split; apply or_default_nonempty; discriminate |].
  unfold or_default.
  split; [now intros -> |]. split; [now intros -> |].
  split; [now intros -> |]. split; [now intros -> |].
  split.
  - now apply toNumber_at_least.
  - now apply toNumber_at_least.
Qed.
End ConfigurationProperties.

Lemma toNumber_floor_witness :
  toNumber sampleNumber None 30000 5000 = Z.max 5000 30000
  /\ toNumber sampleNumber (Some "1000") 30000 5000 = Z.max 5000 1000
  /\ toNumber sampleNumber (Some "soon") 600000 60000 = 600000
  /\ 5000 <= toNumber sampleNumber (Some "1000") 30000 5000.
Proof.
  split; [| split; [| split]].
  - apply (proj1 (toNumber_floor sampleNumber None 30000 5000)).
    reflexivity.
  - apply (proj1 (proj2 (toNumber_floor sampleNumber (Some "1000") 30000 5000))
             "1000" 1000); [reflexivity | discriminate | reflexivity].
  - apply (proj1 (proj2 (proj2 (toNumber_floor sampleNumber (Some "soon")
                                   600000 60000))) "soon");
      [reflexivity | discriminate | reflexivity].
  - apply (proj2 (proj2 (proj2 (toNumber_floor sampleNumber (Some "1000")
                                   30000 5000)))).
    lia.
Defined.

Lemma getConfig_required_witness :
  (exists config, getConfig sampleNumber (fun p => p) sampleEnv = Returned config)
  /\ getConfig sampleNumber (fun p => p)
       (env_of [ ("LASTFM_API_KEY", "key"); ("LASTFM_USERNAME", "");
                 ("GITHUB_OWNER", "april-ivy") ])
     = Threw (Error ("Missing required env var " ++ "LASTFM_USERNAME")).
Proof.
  split.
  - apply (proj1 (getConfig_required sampleNumber (fun p => p) sampleEnv)).
    intros name H. simpl in H.
    destruct H as [<- | [<- | [<- | [<- | [<- | []]]]]]; reflexivity.
  - apply (proj2 (getConfig_required sampleNumber (fun p => p) _)
             [ "LASTFM_API_KEY" ] "LASTFM_USERNAME"
             [ "GITHUB_TOKEN"; "GITHUB_OWNER"; "GITHUB_REPO" ]).
    + reflexivity.
    + intros n H. simpl in H. destruct H as [<- | []]. reflexivity.
    + reflexivity.
Defined.

Lemma getConfig_invariants_witness :
  exists config,
    getConfig sampleNumber (fun p => p) sampleEnv = Returned config
    /\ placeholder config = "%music%"
    /\ 5000 <= updateIntervalMs config
    /\ 60000 <= cacheTtlMs config.
Proof.
  eexists. split; [reflexivity |].
  pose proof (getConfig_invariants sampleNumber (fun p => p) sampleEnv _ eq_refl)
    as (_ & _ & _ & _ & _ & Hp & _ & Hi & Ht).
  split; [apply Hp; reflexivity | split; [exact Hi | exact Ht]].
Defined.

(** ** Status cache *)

Section CacheProperties.
Context {rt : Runtime}.
Variable config : EnvConfig.

(** The runs of [loadCache]. *)
Lemma loadCache_cases (tr : list Entry) (o : Outcome (option CacheEntry)) :
  behaves (loadCache config) tr o ->
  exists answer : JsError + string,
    match answer with
    | inl e =>
        o = Returned None
        /\ tr = entry (ReadFile (cacheFile config)) answer
                  :: (if opt_neq (code e) (Some "ENOENT")
                      then [ entry (Console_warn "[music] Unable to read cache") tt ]
                      else [])
    | inr raw =>
        match JSON_parse_cache raw with
        | Some cache =>
            o = Returned cache
            /\ tr = [ entry (ReadFile (cacheFile config)) answer ]
        | None =>
            o = Returned None
            /\ tr = [ entry (ReadFile (cacheFile config)) answer;
                      entry (Console_warn "[music] Unable to read cache") tt ]
        end
    end.
Proof.
  intros H. unfold loadCache in H.
  step H. exists x. destruct x as [e | raw].
  - cbn [bind catch] in H. cbn [code] in *.
    destruct (opt_neq (code e) (Some "ENOENT")); repeat step H.
    + destruct x. split; reflexivity.
    + split; reflexivity.
  - cbn [bind catch] in H.
    destruct (JSON_parse_cache raw) as [cache|];
      cbn [bind catch code opt_neq] in H; repeat step H.
    + split; reflexivity.
    + destruct x. split; reflexivity.
Qed.

(** X4. [loadCache] never throws.  A file that cannot be read gives no
    cache, with a warning unless the error is ENOENT; a file whose text
    [JSON.parse] rejects gives no cache, with a warning; otherwise the
    result is what [JSON.parse] returns, and nothing is logged.  The only
    other effect is the one read of the cache file. *)
Theorem loadCache_total (tr : list Entry) (o : Outcome (option CacheEntry)) :
  runs (loadCache config) tr o ->
  exists answer : JsError + string,
    match answer with
    | inl e =>
        o = Returned None
        /\ tr = entry (ReadFile (cacheFile config)) answer
                  :: (if opt_neq (code e) (Some "ENOENT")
                      then [ entry (Console_warn "[music] Unable to read cache") tt ]
                      else [])
    | inr raw =>
        match JSON_parse_cache raw with
        | Some cache =>
            o = Returned cache
            /\ tr = [ entry (ReadFile (cacheFile config)) answer ]
        | None =>
            o = Returned None
            /\ tr = [ entry (ReadFile (cacheFile config)) answer;
                      entry (Console_warn "[music] Unable to read cache") tt ]
        end
    end.
Proof.
  intros H. apply runs_behaves in H. exact (loadCache_cases tr o H).
Qed.

(** The runs of [saveCache]. *)
Lemma saveCache_cases (track : TrackInfo) (tr : list Entry)
    (o : Outcome unit) :
  behaves (saveCache config track) tr o ->
  (exists e : JsError,
      tr = [ entry (Mkdir (path_dirname (cacheFile config))) (inl e) ]
      /\ o = Threw e)
  \/ (exists (now : Z) (answer : JsError + unit),
        tr = [ entry (Mkdir (path_dirname (cacheFile config))) (inr tt);
               entry Date_now now;
               entry (WriteFile (cacheFile config)
                        (JSON_stringify_cache (cache_entry_of track now)))
                 answer ]
        /\ same_fields track (cache_entry_of track now)
        /\ lastUpdatedIso (cache_entry_of track now) = Date_toISOString now
        /\ o = match answer with
               | inl e => Threw e
               | inr _ => Returned tt
               end).
Proof.
  intros H. unfold saveCache in H.
  repeat step H;
    repeat match goal with u : unit |- _ => destruct u end.
  - left. eauto.
  - right. do 2 eexists. split; [reflexivity |]. repeat split.
  - right. do 2 eexists. split; [reflexivity |]. repeat split.
Qed.

(** X5. [saveCache] makes the directory of the cache file, reads the clock
    and writes the file, in this order.  What it writes is the text of an
    entry that has the five compared fields of the track and the time of
    the clock reading; when the directory cannot be made, nothing is
    written and the error is thrown; an error of the write is thrown
    too. *)
Theorem saveCache_writes (track : TrackInfo) (tr : list Entry)
    (o : Outcome unit) :
  runs (saveCache config track) tr o ->
  (exists e : JsError,
      tr = [ entry (Mkdir (path_dirname (cacheFile config))) (inl e) ]
      /\ o = Threw e)
  \/ (exists (now : Z) (answer : JsError + unit),
        tr = [ entry (Mkdir (path_dirname (cacheFile config))) (inr tt);
               entry Date_now now;
               entry (WriteFile (cacheFile config)
                        (JSON_stringify_cache (cache_entry_of track now)))
                 answer ]
        /\ same_fields track (cache_entry_of track now)
        /\ lastUpdatedIso (cache_entry_of track now) = Date_toISOString now
        /\ o = match answer with
               | inl e => Threw e
               | inr _ => Returned tt
               end).
Proof.
  intros H. apply runs_behaves in H. exact (saveCache_cases track tr o H).
Qed.

(** X6. Round trip of the cache.  When the cache file holds the text that
    [saveCache] wrote for a track at the clock reading [savedAt], and the
    runtime reads its own JSON text and its own ISO date back, [loadCache]
    returns the entry of that track, and [shouldUpdate] for a status with
    the same five fields, whatever its played-at time, is true exactly
    when more than the time to live has passed since [savedAt]. *)
Theorem cache_round_trip (track : TrackInfo) (savedAt : Z) (tr : list Entry)
    (o : Outcome (option CacheEntry)) :
  JSON_parse_cache (JSON_stringify_cache (cache_entry_of track savedAt))
    = Some (Some (cache_entry_of track savedAt)) ->
  Date_parse (Date_toISOString savedAt) = Some savedAt ->
  runs (loadCache config) tr o ->
  read_answers tr
    = [ inr (JSON_stringify_cache (cache_entry_of track savedAt)) ] ->
  o = Returned (Some (cache_entry_of track savedAt))
  /\ forall (now playedAt : Z),
       shouldUpdate config now (set_playedAt track playedAt)
         (Some (cache_entry_of track savedAt))
       = (now - savedAt >? cacheTtlMs config).
Proof.
  intros Hjson Hdate H Hread.
  apply runs_behaves in H.
  destruct (loadCache_cases tr o H) as (answer & Ha).
  destruct answer as [e | raw].
  - destruct Ha as [_ ->].
    destruct (opt_neq (code e) (Some "ENOENT")); discriminate Hread.
  - assert (raw = JSON_stringify_cache (cache_entry_of track savedAt)) as ->.
    { destruct (JSON_parse_cache raw); destruct Ha as [_ ->];
        cbn in Hread; congruence. }
    rewrite Hjson in Ha. destruct Ha as [-> _].
    split; [reflexivity |].
    intros now playedAt. unfold shouldUpdate.
    rewrite (same_fields_no_change (set_playedAt track playedAt)
               (cache_entry_of track savedAt))
      by (repeat split).
    cbn [cache_entry_of lastUpdatedIso]. now rewrite Hdate.
Qed.
End CacheProperties.

Lemma cache_round_trip_witness :
  let track := mkTrackInfo "Song A" "Artist X" (Some "Album Y")
                 (Some "https://x/a.jpg") true 1704067200000 in
  let data := JSON_stringify_cache (Runtime := storingRuntime)
                (cache_entry_of (rt := storingRuntime) track 1704067200000) in
  let r := run sampleWorld (loadCache (rt := storingRuntime) sampleConfig)
             (cachedHost (Some data)) in
  outcome r
    = Returned (Some (cache_entry_of (rt := storingRuntime) track 1704067200000))
  /\ forall now playedAt : Z,
       shouldUpdate (rt := storingRuntime) sampleConfig now
         (set_playedAt track playedAt)
         (Some (cache_entry_of (rt := storingRuntime) track 1704067200000))
       = (now - 1704067200000 >? cacheTtlMs sampleConfig).
Proof.
  intros track data r.
  apply (@cache_round_trip storingRuntime sampleConfig track 1704067200000
           (trace r) (outcome r));
    [ vm_compute; reflexivity
    | vm_compute; reflexivity
    | exact (run_runs sampleWorld (loadCache (rt := storingRuntime) sampleConfig)
               (cachedHost (Some data)))
    | vm_compute; reflexivity ].
Defined.

Lemma loadCache_total_witness :
  let r := run sampleWorld (loadCache (rt := storingRuntime) sampleConfig)
             (cachedHost (Some "not a cache")) in
  exists answer : JsError + string,
    match answer with
    | inl e =>
        outcome r = Returned None
        /\ trace r = entry (ReadFile (cacheFile sampleConfig)) answer
                       :: (if opt_neq (code e) (Some "ENOENT")
                           then [ entry (Console_warn "[music] Unable to read cache") tt ]
                           else [])
    | inr raw =>
        match JSON_parse_cache (Runtime := storingRuntime) raw with
        | Some cache =>
            outcome r = Returned cache
            /\ trace r = [ entry (ReadFile (cacheFile sampleConfig)) answer ]
        | None =>
            outcome r = Returned None
            /\ trace r = [ entry (ReadFile (cacheFile sampleConfig)) answer;
                           entry (Console_warn "[music] Unable to read cache") tt ]
        end
    end.
Proof.
  intros r.
  exact (@loadCache_total storingRuntime sampleConfig (trace r) (outcome r)
           (run_runs sampleWorld (loadCache (rt := storingRuntime) sampleConfig)
              (cachedHost (Some "not a cache")))).
Defined.

Lemma saveCache_writes_witness :
  let r := run sampleWorld
             (saveCache (rt := storingRuntime) sampleConfig sampleTrack)
             (cachedHost None) in
  (exists e : JsError,
      trace r = [ entry (Mkdir (path_dirname (Runtime := storingRuntime)
                                  (cacheFile sampleConfig))) (inl e) ]
      /\ outcome r = Threw e)
  \/ (exists (now : Z) (answer : JsError + unit),
        trace r
        = [ entry (Mkdir (path_dirname (Runtime := storingRuntime)
                            (cacheFile sampleConfig))) (inr tt);
            entry Date_now now;
            entry (WriteFile (cacheFile sampleConfig)
                     (JSON_stringify_cache (Runtime := storingRuntime)
                        (cache_entry_of (rt := storingRuntime) sampleTrack now)))
              answer ]
        /\ same_fields sampleTrack
             (cache_entry_of (rt := storingRuntime) sampleTrack now)
        /\ lastUpdatedIso (cache_entry_of (rt := storingRuntime) sampleTrack now)
           = Date_toISOString (Runtime := storingRuntime) now
        /\ outcome r = match answer with
                       | inl e => Threw e
                       | inr _ => Returned tt
                       end).
Proof.
  intros r.
  exact (@saveCache_writes storingRuntime sampleConfig sampleTrack (trace r)
           (outcome r)
           (run_runs sampleWorld
              (saveCache (rt := storingRuntime) sampleConfig sampleTrack)
              (cachedHost None))).
Defined.

(** ** Status provider *)

Lemma find_image_in (images : list LastFmImage) (wanted url : string) :
  find_image images wanted = Some url ->
  exists img, In img images /\ size img = Some wanted
              /\ image_text img = Some url.
Proof.
  unfold find_image.
  destruct (find _ images) as [img|] eqn:E; [| discriminate].
  intros H. apply find_some in E. destruct E as [Hin Hs].
  exists img. split; [exact Hin |]. split; [| exact H].
  apply negb_true_iff, opt_neq_false in Hs. exact Hs.
Qed.

(** X7. The artwork of a status is never taken from an image of another
    size than extralarge, large or medium: when it is not empty, it is the
    address of an image of the record that has one of these sizes.  The
    first image of size extralarge wins when its address is not empty, then
    the first of size large, then the first of size medium. *)
Theorem pick_albumArt_sizes (images : list LastFmImage) :
  (forall url : string,
     pick_albumArt images = Some url -> url <> "" ->
     exists img,
       In img images /\ image_text img = Some url
       /\ (size img = Some "extralarge" \/ size img = Some "large"
           \/ size img = Some "medium"))
  /\ (truthy (find_image images "extralarge") = true ->
      pick_albumArt images = find_image images "extralarge")
  /\ (truthy (find_image images "extralarge") = false ->
      truthy (find_image images "large") = true ->
      pick_albumArt images = find_image images "large")
  /\ (truthy (find_image images "extralarge") = false ->
      truthy (find_image images "large") = false ->
      pick_albumArt images = find_image images "medium").
Proof.
  unfold pick_albumArt, js_or. split; [| split; [| split]].
  - intros url H Hurl.
    destruct (truthy (find_image images "extralarge")).
    + destruct (find_image_in _ _ _ H) as (img & Hin & Hs & Ht). eauto 6.
    + destruct (truthy (find_image images "large")).
      * destruct (find_image_in _ _ _ H) as (img & Hin & Hs & Ht). eauto 6.
      * destruct (find_image_in _ _ _ H) as (img & Hin & Hs & Ht). eauto 6.
  - intros H. now rewrite H.
  - intros H1 H2. now rewrite H1, H2.
  - intros H1 H2. now rewrite H1, H2.
Qed.

Lemma pick_albumArt_sizes_witness :
  pick_albumArt
    [ mkLastFmImage (Some "https://x/s.jpg") (Some "small");
      mkLastFmImage (Some "https://x/l.jpg") (Some "large");
      mkLastFmImage (Some "") (Some "extralarge") ]
  = find_image
      [ mkLastFmImage (Some "https://x/s.jpg") (Some "small");
        mkLastFmImage (Some "https://x/l.jpg") (Some "large");
        mkLastFmImage (Some "") (Some "extralarge") ]
      "large".
Proof.
  apply (proj1 (proj2 (proj2 (pick_albumArt_sizes _)))); reflexivity.
Defined.

Section ProviderProperties.
Context {rt : Runtime}.
Variable config : EnvConfig.

(** The runs of [fetchRecentTrack]. *)
Lemma fetchRecentTrack_cases (tr : list Entry)
    (o : Outcome (option TrackInfo)) :
  behaves (fetchRecentTrack config) tr o ->
  exists (answer : JsError + Response LastFmResponse) (tr' : list Entry),
    tr = entry (Fetch_lastfm (lastfmApiKey config) (lastfmUsername config)
                  (mkHeaders None None (userAgent config))) answer :: tr'
    /\ match answer with
       | inl e => tr' = [] /\ o = Threw e
       | inr response =>
           if ok response then
             match json response with
             | None => tr' = [] /\ exists e, o = Threw e
             | Some payload =>
                 match most_recent payload with
                 | None => tr' = [] /\ o = Returned None
                 | Some recent =>
                     if truthy (date_uts recent) then
                       tr' = []
                       /\ o = Returned
                                (Some (track_of_record recent
                                         (Number_of_string (tmpl (date_uts recent))
                                          * 1000)))
                     else
                       exists now : Z,
                         tr' = [ entry Date_now now ]
                         /\ o = Returned (Some (track_of_record recent now))
                 end
             end
           else
             tr' = []
             /\ o = Threw (Error ("Last.fm request failed ("
                                    ++ string_of_Z (status response) ++ ")"))
       end.
Proof.
  unfold fetchRecentTrack. intros H.
  step H. match goal with |- context [entry (Fetch_lastfm _ _ _) ?a :: ?t] =>
    exists a, t; split; [reflexivity |]; destruct a as [e | response] end;
    [now repeat step H |].
  cbn [bind] in H. destruct (ok response); cbn [negb] in H;
    [| now repeat step H].
  unfold response_json in H.
  destruct (json response) as [payload|]; [| repeat step H; eauto].
  cbn [bind] in H.
  destruct (most_recent payload) as [recent|]; [| now repeat step H].
  destruct (truthy (date_uts recent)); repeat step H.
  - split; reflexivity.
  - eexists. split; reflexivity.
Qed.

(** X8. [fetchRecentTrack] asks the provider once, before anything else.
    When the answer is not a success it throws "Last.fm request failed"
    with the status, and when the answer has no track record it returns
    null; in both cases the request is its only effect: the clock is not
    read. *)
Theorem fetchRecentTrack_nothing (tr : list Entry)
    (o : Outcome (option TrackInfo)) :
  runs (fetchRecentTrack config) tr o ->
  (exists (answer : JsError + Response LastFmResponse) (tr' : list Entry),
      tr = entry (Fetch_lastfm (lastfmApiKey config) (lastfmUsername config)
                    (mkHeaders None None (userAgent config))) answer :: tr'
      /\ existsb is_lastfm tr' = false
      /\ (forall response,
            answer = inr response -> ok response = false ->
            tr' = []
            /\ o = Threw (Error ("Last.fm request failed ("
                                   ++ string_of_Z (status response) ++ ")")))
      /\ (forall response payload,
            answer = inr response -> ok response = true ->
            json response = Some payload -> most_recent payload = None ->
            tr' = [] /\ o = Returned None))
  /\ (o = Returned None -> List.length tr = 1%nat)
  /\ (forall track, o = Returned (Some track) -> (List.length tr <= 2)%nat).
Proof.
  intros H. apply runs_behaves, fetchRecentTrack_cases in H.
  destruct H as (answer & tr' & -> & H).
  split; [exists answer, tr'; split; [reflexivity |]; split; [| split] |].
  - destruct answer as [e | response]; [now destruct H as [-> _] |].
    destruct (ok response); [| now destruct H as [-> _]].
    destruct (json response) as [payload|]; [| now destruct H as [-> _]].
    destruct (most_recent payload) as [recent|]; [| now destruct H as [-> _]].
    destruct (truthy (date_uts recent)); [now destruct H as [-> _] |].
    now destruct H as (now & -> & _).
  - intros response -> Hok. now rewrite Hok in H.
  - intros response payload -> Hok Hj Hr. now rewrite Hok, Hj, Hr in H.
  - destruct answer as [e | response].
    + destruct H as [-> ->]. split; [discriminate | discriminate].
    + destruct (ok response).
      * destruct (json response) as [payload|].
        -- destruct (most_recent payload) as [recent|].
           ++ destruct (truthy (date_uts recent)).
              ** destruct H as [-> ->]. split; [discriminate | simpl; lia].
              ** destruct H as (now & -> & ->).
                 split; [discriminate | simpl; lia].
           ++ destruct H as [-> ->]. split; [reflexivity | discriminate].
        -- destruct H as [-> (e & ->)]. split; discriminate.
      * destruct H as [-> ->]. split; discriminate.
Qed.

End ProviderProperties.

Lemma fetchRecentTrack_nothing_witness :
  let r := run sampleWorld (fetchRecentTrack (rt := sampleRuntime) sampleConfig)
             emptyHost in
  List.length (trace r) = 1%nat.
Proof.
  intros r.
  apply (proj1 (proj2 (@fetchRecentTrack_nothing sampleRuntime sampleConfig
                         (trace r) (outcome r)
                         (run_runs sampleWorld
                            (fetchRecentTrack (rt := sampleRuntime) sampleConfig)
                            emptyHost)))).
  reflexivity.
Defined.


(** The next effect of a run, with names for its answer and for the rest
    of the trace. *)
Ltac peel H x tr :=
  unfold await, perform in H;
  cbn [behaves bind catch] in H;
  destruct H as (x & tr & -> & H).

(** ** Document patcher: the runs of [updateReadme] *)

Section UpdateProperties.
Context {rt : Runtime}.
Variable config : EnvConfig.

(** The runs of [updateReadme], effect by effect. *)
Lemma updateReadme_structure (track : TrackInfo) (tr : list Entry)
    (o : Outcome bool) :
  behaves (updateReadme config track) tr o ->
  exists (answer : JsError + Response GithubContentResponse)
         (tr' : list Entry),
    tr = entry (Fetch_get (endpoint config ++ "?ref=" ++ githubBranch config)
                  (headers config)) answer :: tr'
    /\ match answer with
       | inl e => tr' = [] /\ o = Threw e
       | inr response =>
           if ok response then
             match json response with
             | None => tr' = [] /\ exists e, o = Threw e
             | Some data =>
                 if opt_neq (type data) (Some "file")
                    || negb (truthy (content data))
                 then
                   tr' = []
                   /\ o = Threw (Error "README content missing in GitHub response")
                 else
                   exists (now : Z) (tr'' : list Entry),
                     tr' = entry Date_now now :: tr''
                     /\ match nextReadme config (decoded data)
                                (formatTrack now track) with
                        | None =>
                            tr'' = [ entry
                                       (Console_warn
                                          ("[music] Placeholder "
                                             ++ placeholder config
                                             ++ " or data-music span not found – skipping update"))
                                       tt ]
                            /\ o = Returned false
                        | Some next =>
                            if (next =? decoded data)%string then
                              tr'' = [ entry
                                         (Console_log
                                            "[music] README already up-to-date")
                                         tt ]
                              /\ o = Returned false
                            else
                              exists putAnswer : JsError + Response unit,
                                tr'' = [ entry
                                           (Fetch_put (endpoint config)
                                              (headers config)
                                              (put_body config track data next))
                                           putAnswer ]
                                /\ o = match putAnswer with
                                       | inl e => Threw e
                                       | inr r =>
                                           if ok r then Returned true
                                           else
                                             Threw
                                               (Error
                                                  ("GitHub README update failed ("
                                                     ++ string_of_Z (status r)
                                                     ++ ")"))
                                       end
                        end
             end
           else
             tr' = []
             /\ o = Threw (Error ("GitHub README fetch failed ("
                                    ++ string_of_Z (status response) ++ ")"))
       end.
Proof.
  unfold updateReadme. intros H.
  peel H answer tr'. exists answer, tr'. split; [reflexivity |].
  destruct answer as [e | response]; [now repeat step H |].
  cbn [bind] in H. destruct (ok response); cbn [negb] in H;
    [| now repeat step H].
  unfold response_json in H.
  destruct (json response) as [data|]; [| repeat step H; eauto].
  cbn [bind] in H.
  destruct (opt_neq (type data) (Some "file") || negb (truthy (content data)));
    [now repeat step H |].
  peel H now tr''. exists now, tr''. split; [reflexivity |].
  destruct (nextReadme config (decoded data) (formatTrack now track))
    as [next|].
  - destruct (next =? decoded data)%string.
    + peel H u tr3. destruct u. now repeat step H.
    + peel H putAnswer tr3. exists putAnswer.
      destruct putAnswer as [e | r]; [now repeat step H |].
      cbn [bind] in H. destruct (ok r); cbn [negb] in H; now repeat step H.
  - peel H u tr3. destruct u. now repeat step H.
Qed.
End UpdateProperties.

Section UpdateOutcomes.
Context {rt : Runtime}.
Variable config : EnvConfig.


(** X11. [updateReadme] returns false in two cases only, and sends no write
    in either: the README has neither a tagged region nor the placeholder,
    and a warning that names the placeholder is logged; or the text
    computed for the README is the text that was read, and "README already
    up-to-date" is logged. *)
Theorem updateReadme_false (track : TrackInfo) (tr : list Entry) :
  runs (updateReadme config track) tr (Returned false) ->
  existsb is_put tr = false
  /\ exists response data now,
       json response = Some data
       /\ ((nextReadme config (decoded data) (formatTrack now track) = None
            /\ test spanPattern spanGroups (decoded data) = false
            /\ includes (decoded data) (placeholder config) = false
            /\ tr = [ entry (Fetch_get
                               (endpoint config ++ "?ref=" ++ githubBranch config)
                               (headers config)) (inr response);
                      entry Date_now now;
                      entry (Console_warn
                               ("[music] Placeholder " ++ placeholder config
                                  ++ " or data-music span not found – skipping update"))
                        tt ])
           \/ (nextReadme config (decoded data) (formatTrack now track)
               = Some (decoded data)
               /\ tr = [ entry (Fetch_get
                                  (endpoint config ++ "?ref="
                                     ++ githubBranch config)
                                  (headers config)) (inr response);
                         entry Date_now now;
                         entry (Console_log "[music] README already up-to-date")
                           tt ])).
Proof.
  intros H. apply runs_behaves, updateReadme_structure in H.
  destruct H as (answer & tr' & -> & H).
  destruct answer as [e | response]; [destruct H as [_ H]; discriminate |].
  destruct (ok response); [| destruct H as [_ H]; discriminate].
  destruct (json response) as [data|] eqn:Hj;
    [| destruct H as [_ (e & H)]; discriminate].
  destruct (opt_neq (type data) (Some "file") || negb (truthy (content data)));
    [destruct H as [_ H]; discriminate |].
  destruct H as (now & tr'' & -> & H).
  destruct (nextReadme config (decoded data) (formatTrack now track))
    as [next|] eqn:Hn.
  - destruct (next =? decoded data)%string eqn:Hsame.
    + destruct H as [-> _]. split; [reflexivity |].
      exists response, data, now. split; [exact Hj |]. right.
      apply String.eqb_eq in Hsame. subst next. rewrite Hn. auto.
    + destruct H as (putAnswer & -> & H). exfalso.
      destruct putAnswer as [e | r]; [discriminate |].
      destruct (ok r); discriminate.
  - destruct H as [-> _]. split; [reflexivity |].
    exists response, data, now. split; [exact Hj |]. left.
    rewrite Hn. unfold nextReadme, includes in *.
    destruct (test spanPattern spanGroups (decoded data)); [discriminate |].
    destruct (indexOf (placeholder config) (decoded data)); [discriminate |].
    auto.
Qed.

(** The runs of [updateReadme] that return true. *)
Lemma updateReadme_returns_true (track : TrackInfo) (tr : list Entry) :
  behaves (updateReadme config track) tr (Returned true) ->
  exists response data now next putResponse,
    tr = [ entry (Fetch_get (endpoint config ++ "?ref=" ++ githubBranch config)
                    (headers config)) (inr response);
           entry Date_now now;
           entry (Fetch_put (endpoint config) (headers config)
                    (put_body config track data next)) (inr putResponse) ]
    /\ ok response = true
    /\ json response = Some data
    /\ type data = Some "file"
    /\ truthy (content data) = true
    /\ nextReadme config (decoded data) (formatTrack now track) = Some next
    /\ next <> decoded data
    /\ ok putResponse = true.
Proof.
  intros H. apply updateReadme_structure in H.
  destruct H as (answer & tr' & -> & H).
  destruct answer as [e | response]; [destruct H as [_ H]; discriminate |].
  destruct (ok response) eqn:Hok; [| destruct H as [_ H]; discriminate].
  destruct (json response) as [data|] eqn:Hj;
    [| destruct H as [_ (e & H)]; discriminate].
  destruct (opt_neq (type data) (Some "file")) eqn:Ht;
    [destruct H as [_ H]; discriminate |].
  destruct (truthy (content data)) eqn:Hc;
    [| destruct H as [_ H]; discriminate].
  cbn [negb orb] in H.
  destruct H as (now & tr'' & -> & H).
  destruct (nextReadme config (decoded data) (formatTrack now track))
    as [next|] eqn:Hn; [| destruct H as [_ H]; discriminate].
  destruct (next =? decoded data)%string eqn:Hsame;
    [destruct H as [_ H]; discriminate |].
  destruct H as (putAnswer & -> & H).
  destruct putAnswer as [e | r]; [discriminate |].
  destruct (ok r) eqn:Hr; [| discriminate].
  exists response, data, now, next, r.
  split; [reflexivity |]. split; [exact Hok |]. split; [exact Hj |].
  split; [now apply opt_neq_false |]. split; [exact Hc |].
  split; [exact Hn |]. split; [now apply String.eqb_neq | exact Hr].
Qed.

(** X12. [updateReadme] returns true only after a write that the host has
    answered with a success.  The run is the read of the README, a reading
    of the clock and that write; the write goes to the address of the file
    without [ref] and carries the commit message "docs(readme): music ->
    title by artist", the base64 text of the new README, the revision token
    of the read and the branch; and the new README differs from the text
    that was read. *)
Theorem updateReadme_true (track : TrackInfo) (tr : list Entry) :
  runs (updateReadme config track) tr (Returned true) ->
  exists response data now next putResponse,
    tr = [ entry (Fetch_get (endpoint config ++ "?ref=" ++ githubBranch config)
                    (headers config)) (inr response);
           entry Date_now now;
           entry (Fetch_put (endpoint config) (headers config)
                    (put_body config track data next)) (inr putResponse) ]
    /\ ok response = true
    /\ json response = Some data
    /\ type data = Some "file"
    /\ truthy (content data) = true
    /\ nextReadme config (decoded data) (formatTrack now track) = Some next
    /\ next <> decoded data
    /\ ok putResponse = true.
Proof.
  intros H. apply runs_behaves in H.
  exact (updateReadme_returns_true track tr H).
Qed.
End UpdateOutcomes.


Lemma updateReadme_false_witness :
  let r := run sampleWorld
             (updateReadme (rt := sampleRuntime) sampleConfig sampleTrack)
             bareHost in
  existsb is_put (trace r) = false.
Proof.
  intros r.
  pose proof (run_runs sampleWorld
                (updateReadme (rt := sampleRuntime) sampleConfig sampleTrack)
                bareHost) as R.
  replace (snd (fst (run sampleWorld
                       (updateReadme (rt := sampleRuntime) sampleConfig
                          sampleTrack) bareHost)))
    with (@Returned bool false) in R by (vm_compute; reflexivity).
  exact (proj1 (@updateReadme_false sampleRuntime sampleConfig sampleTrack
                  (trace r) R)).
Defined.

Lemma updateReadme_true_witness :
  let r := run sampleWorld
             (updateReadme (rt := sampleRuntime) sampleConfig sampleTrack)
             (sampleHost "x %music% y" false) in
  List.length (trace r) = 3%nat.
Proof.
  intros r.
  pose proof (run_runs sampleWorld
                (updateReadme (rt := sampleRuntime) sampleConfig sampleTrack)
                (sampleHost "x %music% y" false)) as R.
  replace (snd (fst (run sampleWorld
                       (updateReadme (rt := sampleRuntime) sampleConfig
                          sampleTrack) (sampleHost "x %music% y" false))))
    with (@Returned bool true) in R by (vm_compute; reflexivity).
  destruct (@updateReadme_true sampleRuntime sampleConfig sampleTrack
              (trace r) R) as (response & data & now & next & putResponse
                               & E & _).
  rewrite E. reflexivity.
Defined.

(** ** Poll cycle *)

Section CycleProperties.
Context {rt : Runtime}.
Variable config : EnvConfig.

Lemma loadCache_returns (tr : list Entry) (o : Outcome (option CacheEntry)) :
  behaves (loadCache config) tr o -> exists cache, o = Returned cache.
Proof.
  intros H.
  destruct (loadCache_cases config tr o H) as (answer & Ha).
  destruct answer as [e | raw]; [destruct Ha as [-> _]; eauto |].
  destruct (JSON_parse_cache raw); destruct Ha as [-> _]; eauto.
Qed.

(** The runs of a poll cycle, part by part. *)
Lemma tick_structure (tr : list Entry) (o : Outcome unit) :
  behaves (tick config) tr o ->
  (exists e, behaves (fetchRecentTrack config) tr (Threw e) /\ o = Threw e)
  \/ (exists tr_f,
        behaves (fetchRecentTrack config) tr_f (Returned None)
        /\ tr = (tr_f ++ [ entry (Console_warn "[music] No recent tracks found")
                             tt ])%list
        /\ o = Returned tt)
  \/ (exists tr_f track tr_c cache now rest,
        behaves (fetchRecentTrack config) tr_f (Returned (Some track))
        /\ behaves (loadCache config) tr_c (Returned cache)
        /\ tr = (tr_f ++ tr_c ++ entry Date_now now :: rest)%list
        /\ if shouldUpdate config now track cache then
             exists tr_u o_u,
               behaves (updateReadme config track) tr_u o_u
               /\ match o_u with
                  | Threw e => rest = tr_u /\ o = Threw e
                  | Returned false => rest = tr_u /\ o = Returned tt
                  | Returned true =>
                      exists tr_s o_s,
                        behaves (saveCache config track) tr_s o_s
                        /\ match o_s with
                           | Threw e =>
                               rest = (tr_u ++ tr_s)%list /\ o = Threw e
                           | Returned _ =>
                               rest = (tr_u ++ tr_s
                                         ++ [ entry (Console_log
                                                       (updated_log track)) tt ])%list
                               /\ o = Returned tt
                           end
                  end
           else
             rest = [ entry (Console_log (no_change_log track)) tt ]
             /\ o = Returned tt).
Proof.
  unfold tick. intros H. apply behaves_bind in H.
  destruct H as [(a & tr_f & tr2 & Hf & H & ->) | (e & Hf & ->)];
    [| left; eauto].
  right. destruct a as [track|].
  - right. apply behaves_bind in H.
    destruct H as [(cache & tr_c & tr3 & Hc & H & ->) | (e & Hc & ->)];
      [| destruct (loadCache_returns _ _ Hc); discriminate].
    peel H now rest.
    exists tr_f, track, tr_c, cache, now, rest.
    split; [exact Hf |]. split; [exact Hc |]. split; [reflexivity |].
    destruct (shouldUpdate config now track cache); cbn [negb] in H.
    + apply behaves_bind in H.
      destruct H as [(updated & tr_u & tr4 & Hu & H & ->) | (e & Hu & ->)].
      * exists tr_u, (Returned updated). split; [exact Hu |].
        destruct updated.
        -- apply behaves_bind in H.
           destruct H as [(u & tr_s & tr5 & Hs & H & ->) | (e & Hs & ->)].
           ++ exists tr_s, (Returned u). split; [exact Hs |].
              peel H v tr6. destruct v. destruct H as [-> ->].
              split; reflexivity.
           ++ exists tr4, (Threw e). split; [exact Hs |].
              split; reflexivity.
        -- destruct H as [-> ->]. rewrite app_nil_r. split; reflexivity.
      * exists rest, (Threw e). split; [exact Hu |]. split; reflexivity.
    + peel H u tr4. destruct u. destruct H as [-> ->]. split; reflexivity.
  - left. peel H u tr3. destruct u. destruct H as [-> ->].
    exists tr_f. auto.
Qed.
End CycleProperties.

Lemma lastfm_empty_is_lastfm (en : Entry) :
  lastfm_empty en = true -> is_lastfm en = true.
Proof. destruct en as [X eff answer]. destruct eff; simpl; auto. Qed.

Lemma none_of (P Q : Entry -> bool) (tr : list Entry) :
  (forall en, Q en = true -> P en = false) ->
  forallb P tr = true -> existsb Q tr = false.
Proof.
  intros HPQ. induction tr as [|en tr IH]; simpl; [reflexivity |].
  rewrite andb_true_iff. intros [Hen Htr].
  destruct (Q en) eqn:E; [apply HPQ in E; congruence |]. now apply IH.
Qed.

Section CycleOutcomes.
Context {rt : Runtime}.
Variable config : EnvConfig.

(** The provider's answer is a success without a track record exactly in
    the runs of [fetchRecentTrack] that return null. *)
Lemma fetchRecentTrack_empty (tr : list Entry)
    (o : Outcome (option TrackInfo)) :
  behaves (fetchRecentTrack config) tr o ->
  (existsb lastfm_empty tr = true -> o = Returned None)
  /\ (o = Returned None ->
      exists response,
        tr = [ entry (Fetch_lastfm (lastfmApiKey config)
                        (lastfmUsername config)
                        (mkHeaders None None (userAgent config)))
                 (inr response) ]
        /\ lastfm_empty
             (entry (Fetch_lastfm (lastfmApiKey config)
                       (lastfmUsername config)
                       (mkHeaders None None (userAgent config)))
                (inr response)) = true).
Proof.
  intros H. apply fetchRecentTrack_cases in H.
  destruct H as (answer & tr' & -> & H). cbn [existsb lastfm_empty].
  destruct answer as [e | response].
  { destruct H as [-> ->]. split; discriminate. }
  destruct (ok response) eqn:Hok;
    [| destruct H as [-> ->]; split; discriminate].
  destruct (json response) as [payload|] eqn:Hj;
    [| destruct H as [-> (e & ->)]; split; discriminate].
  destruct (most_recent payload) as [recent|] eqn:Hr.
  - destruct (truthy (date_uts recent)).
    + destruct H as [-> ->]. split; discriminate.
    + destruct H as (now & -> & ->). split; discriminate.
  - destruct H as [-> ->]. split; [reflexivity |].
    intros _. exists response. split; [reflexivity |].
    cbn [lastfm_empty]. now rewrite Hok, Hj, Hr.
Qed.

Lemma after_fetch_not_provider (track : TrackInfo) :
  effects_in (fun en => negb (is_lastfm en))
    (cache <- loadCache config ;;
     now <- perform Date_now ;;
     if negb (shouldUpdate config now track cache) then
       perform (Console_log ("[music] No change (" ++ title track
                               ++ " - " ++ artist track ++ ")"))
     else
       updated <- updateReadme config track ;;
       if updated : bool then
         saveCache config track ;;;
         perform (Console_log ("[music] README updated -> "
                                 ++ title track ++ " - " ++ artist track))
       else Ret tt).
Proof.
  unfold loadCache, updateReadme, saveCache, await, perform, response_json.
  effects.
Qed.

(** X13. A cycle in which the provider answers with a success that has no
    track record ends at once: after the request it logs the warning
    "[music] No recent tracks found" and returns; the cache is not read,
    the README is neither read nor written. *)
Theorem tick_no_track (tr : list Entry) (o : Outcome unit) :
  runs (tick config) tr o ->
  existsb lastfm_empty tr = true ->
  exists response : Response LastFmResponse,
    tr = [ entry (Fetch_lastfm (lastfmApiKey config) (lastfmUsername config)
                    (mkHeaders None None (userAgent config)))
             (inr response);
           entry (Console_warn "[music] No recent tracks found") tt ]
    /\ o = Returned tt.
Proof.
  intros H Hempty. apply runs_behaves in H. unfold tick in H.
  apply behaves_bind in H.
  destruct H as [(a & tr_f & tr2 & Hf & H & ->) | (e & Hf & ->)].
  - destruct (fetchRecentTrack_empty _ _ Hf) as [Hin Hout].
    destruct a as [track|].
    + rewrite existsb_app in Hempty. apply orb_true_iff in Hempty.
      destruct Hempty as [Hempty | Hempty];
        [apply Hin in Hempty; discriminate |].
      apply (effects_in_behaves _ _ _ _ (after_fetch_not_provider track))
        in H.
      rewrite (none_of (fun en => negb (is_lastfm en)) lastfm_empty tr2)
        in Hempty; [discriminate | | exact H].
      intros en Hen. now rewrite (lastfm_empty_is_lastfm en Hen).
    + destruct (Hout eq_refl) as (response & -> & _).
      peel H u tr3. destruct u. destruct H as [-> ->].
      exists response. split; reflexivity.
  - destruct (fetchRecentTrack_empty _ _ Hf) as [Hin _].
    apply Hin in Hempty. discriminate.
Qed.
Lemma effects_none {A : Type} (P : Entry -> bool) (p : Prog A)
    (tr : list Entry) (o : Outcome A) :
  effects_in (fun en => negb (P en)) p -> behaves p tr o ->
  existsb P tr = false.
Proof.
  intros E H. apply (effects_in_behaves _ _ _ _ E) in H.
  apply (none_of (fun en => negb (P en)) P); [| exact H].
  now intros en ->.
Qed.



Lemma updateReadme_effects (track : TrackInfo) :
  effects_in (fun en => negb (is_writeFile en)) (updateReadme config track).
Proof. unfold updateReadme, await, perform, response_json. effects. Qed.



(** X15. The cache is written only at the end of a cycle whose write to
    the README the host accepted, and what is written is the entry of the
    track that this cycle fetched, stamped with the clock reading taken
    after the write to the README.  The log "README updated" follows when
    the file was written; an error of the write ends the cycle. *)
Theorem tick_saves (tr : list Entry) (o : Outcome unit) :
  runs (tick config) tr o ->
  existsb is_writeFile tr = true ->
  exists (tr_f : list Entry) (track : TrackInfo) (before : list Entry)
         (data : GithubContentResponse) (next : string)
         (putResponse : Response unit) (savedAt : Z)
         (answer : JsError + unit),
    runs (fetchRecentTrack config) tr_f (Returned (Some track))
    /\ tr = (tr_f ++ before
             ++ [ entry (Fetch_put (endpoint config) (headers config)
                           (put_body config track data next))
                    (inr putResponse);
                  entry (Mkdir (path_dirname (cacheFile config))) (inr tt);
                  entry Date_now savedAt;
                  entry (WriteFile (cacheFile config)
                           (JSON_stringify_cache
                              (cache_entry_of track savedAt)))
                    answer ]
             ++ match answer with
                | inl _ => []
                | inr _ => [ entry (Console_log (updated_log track)) tt ]
                end)%list
    /\ ok putResponse = true
    /\ existsb is_writeFile (tr_f ++ before) = false
    /\ o = match answer with
           | inl e => Threw e
           | inr _ => Returned tt
           end.
Proof.
  intros H Hwrite. apply runs_behaves, tick_structure in H.
  pose proof (fun tr o (H : behaves (fetchRecentTrack config) tr o) =>
                quiet_no_writeFile tr
                  (effects_in_behaves _ _ _ _ (fetchRecentTrack_quiet config) H))
    as Qf.
  destruct H as [(e & Hf & ->) | [(tr_f & Hf & -> & ->) | H]].
  - rewrite (Qf _ _ Hf) in Hwrite. discriminate.
  - rewrite existsb_app, (Qf _ _ Hf) in Hwrite. discriminate.
  - destruct H as (tr_f & track & tr_c & cache & now & rest & Hf & Hc & -> & H).
    pose proof (quiet_no_writeFile tr_c
                  (effects_in_behaves _ _ _ _ (loadCache_quiet config) Hc))
      as Qc.
    rewrite !existsb_app, (Qf _ _ Hf), Qc in Hwrite.
    cbn [existsb is_writeFile orb] in Hwrite.
    destruct (shouldUpdate config now track cache);
      [| destruct H as [-> _]; discriminate].
    destruct H as (tr_u & o_u & Hu & H).
    pose proof (effects_none _ _ _ _ (updateReadme_effects track) Hu) as Qu.
    destruct o_u as [[|] | e];
      [| destruct H as [-> _]; congruence
       | destruct H as [-> _]; congruence].
    destruct H as (tr_s & o_s & Hs & H).
    apply updateReadme_returns_true in Hu.
    destruct Hu as (response & data & now' & next & putResponse & -> & _ & _
                    & _ & _ & _ & _ & Hok).
    apply saveCache_cases in Hs.
    destruct Hs as [(e & -> & ->) | (savedAt & answer & -> & _ & _ & ->)].
    { destruct H as [-> _]. discriminate. }
    exists tr_f, track,
      (tr_c ++ [ entry Date_now now;
                 entry (Fetch_get
                          (endpoint config ++ "?ref=" ++ githubBranch config)
                          (headers config)) (inr response);
                 entry Date_now now' ])%list,
      data, next, putResponse, savedAt, answer.
    split; [now apply runs_behaves |].
    split; [| split; [exact Hok | split]].
    + destruct answer; destruct H as [-> _];
        now rewrite <- !app_assoc.
    + now rewrite !existsb_app, (Qf _ _ Hf), Qc.
    + destruct answer; now destruct H as [_ ->].
Qed.
End CycleOutcomes.

Lemma tick_no_track_witness :
  let r := run sampleWorld (tick (rt := sampleRuntime) sampleConfig)
             emptyHost in
  existsb lastfm_empty (trace r) = true /\ outcome r = Returned tt.
Proof.
  intros r.
  assert (E : existsb lastfm_empty (trace r) = true)
    by (vm_compute; reflexivity).
  split; [exact E |].
  destruct (@tick_no_track sampleRuntime sampleConfig (trace r) (outcome r)
              (run_runs sampleWorld (tick (rt := sampleRuntime) sampleConfig)
                 emptyHost) E) as (response & _ & Ho).
  exact Ho.
Defined.


Lemma tick_saves_witness :
  let r := run sampleWorld (tick (rt := sampleRuntime) sampleConfig)
             (sampleHost "x %music% y" false) in
  existsb is_writeFile (trace r) = true
  /\ exists answer : JsError + unit,
       outcome r = match answer with
                   | inl e => Threw e
                   | inr _ => Returned tt
                   end.
Proof.
  intros r.
  assert (E : existsb is_writeFile (trace r) = true)
    by (vm_compute; reflexivity).
  split; [exact E |].
  destruct (@tick_saves sampleRuntime sampleConfig (trace r) (outcome r)
              (run_runs sampleWorld (tick (rt := sampleRuntime) sampleConfig)
                 (sampleHost "x %music% y" false)) E)
    as (tr_f & track & before & data & next & putResponse & savedAt & answer
        & _ & _ & _ & _ & Ho).
  exists answer. exact Ho.
Defined.

(** ** Patch of a tagged region *)

Lemma getSubstitution_step (mt s : string) (p : nat) (cs : captures_t)
    (c : ascii) (t1 : string) :
  getSubstitution mt s p cs (String c t1)
  = if negb (Ascii.eqb c dollar) then
      String c (getSubstitution mt s p cs t1)
    else
      match t1 with
      | EmptyString => "$"
      | String d t2 =>
          if Ascii.eqb d dollar then
            "$" ++ getSubstitution mt s p cs t2
          else if Ascii.eqb d "`"%char then
            take p s ++ getSubstitution mt s p cs t2
          else if Ascii.eqb d "&"%char then
            mt ++ getSubstitution mt s p cs t2
          else if Ascii.eqb d "'"%char then
            skip (Nat.min (p + String.length mt) (String.length s)) s
              ++ getSubstitution mt s p cs t2
          else if is_digit d then
            match t2 with
            | String d2 t3 =>
                if is_digit d2 then
                  if (List.length cs <? 10 * digit_val d + digit_val d2)%nat
                  then
                    capture_ref cs (digit_val d) (String dollar (String d ""))
                      ++ getSubstitution mt s p cs t2
                  else
                    capture_ref cs (10 * digit_val d + digit_val d2)
                        (String dollar (String d (String d2 "")))
                      ++ getSubstitution mt s p cs t3
                else
                  capture_ref cs (digit_val d) (String dollar (String d ""))
                    ++ getSubstitution mt s p cs t2
            | EmptyString =>
                capture_ref cs (digit_val d) (String dollar (String d ""))
                  ++ getSubstitution mt s p cs t2
            end
          else
            "$" ++ getSubstitution mt s p cs t1
      end.
Proof.
  destruct t1 as [|d [|d2 t3]]; reflexivity.
Qed.

(** A [>] of the template is never part of a dollar pattern: what comes
    before it is expanded on its own, and the expansion goes on after
    it. *)
Lemma getSubstitution_cut (mt s : string) (p : nat) (cs : captures_t)
    (T : string) (n : nat) :
  forall A : string, (String.length A <= n)%nat ->
  exists Y : string,
    getSubstitution mt s p cs (A ++ String ">" T)
    = Y ++ String ">" (getSubstitution mt s p cs T).
Proof.
  induction n as [|n IH]; intros A HA.
  { destruct A; [| simpl in HA; lia]. exists "". reflexivity. }
  destruct A as [|c A1]; [exists ""; reflexivity |].
  cbn [String.length] in HA.
  pose proof (getSubstitution_step mt s p cs c (A1 ++ String ">" T)) as E.
  cbn [append].
  assert (finish : forall (pre A' : string),
             (String.length A' <= n)%nat ->
             getSubstitution mt s p cs (String c (A1 ++ String ">" T))
             = pre ++ getSubstitution mt s p cs (A' ++ String ">" T) ->
             exists Y : string,
               getSubstitution mt s p cs (String c (A1 ++ String ">" T))
               = Y ++ String ">" (getSubstitution mt s p cs T)).
  { intros pre A' HA' E'. destruct (IH A' HA') as (Y & HY).
    exists (pre ++ Y). rewrite E', HY. symmetry. apply append_assoc. }
  destruct (Ascii.eqb c dollar) eqn:Ec; cbn [negb] in E.
  2:{ apply (finish (String c "") A1); [lia | exact E]. }
  destruct A1 as [|d A2]; cbn [append String.length] in *.
  { exists "$". rewrite E. reflexivity. }
  destruct (Ascii.eqb d dollar).
  { apply (finish "$" A2); [lia | exact E]. }
  destruct (Ascii.eqb d "`"%char).
  { apply (finish (take p s) A2); [lia | exact E]. }
  destruct (Ascii.eqb d "&"%char).
  { apply (finish mt A2); [lia | exact E]. }
  destruct (Ascii.eqb d "'"%char).
  { apply (finish (skip (Nat.min (p + String.length mt) (String.length s)) s)
             A2); [lia | exact E]. }
  destruct (is_digit d).
  2:{ apply (finish "$" (String d A2)); [simpl; lia | exact E]. }
  destruct A2 as [|d2 A3]; cbn [append String.length] in *.
  { apply (finish (capture_ref cs (digit_val d) (String dollar (String d "")))
             ""); [simpl; lia | exact E]. }
  destruct (is_digit d2).
  2:{ apply (finish (capture_ref cs (digit_val d)
                       (String dollar (String d ""))) (String d2 A3));
        [simpl; lia | exact E]. }
  destruct (List.length cs <? 10 * digit_val d + digit_val d2)%nat.
  - apply (finish (capture_ref cs (digit_val d)
                     (String dollar (String d ""))) (String d2 A3));
      [simpl; lia | exact E].
  - apply (finish (capture_ref cs (10 * digit_val d + digit_val d2)
                     (String dollar (String d (String d2 "")))) A3);
      [lia | exact E].
Qed.

Lemma formatTrack_ends (now : Z) (track : TrackInfo) :
  exists A : string, formatTrack now track = A ++ "</samp>".
Proof.
  destruct (truthy (albumArt track)) eqn:H.
  - rewrite (formatTrack_image now track H).
    eexists. rewrite <- !append_assoc. reflexivity.
  - rewrite (formatTrack_text now track H). unfold text_block.
    eexists. rewrite <- !append_assoc. reflexivity.
Qed.

Lemma getSubstitution_group2 (mt s : string) (p : nat) (g1 g2 : string) :
  getSubstitution mt s p [Some g1; Some g2] "$2" = g2.
Proof. cbn. apply append_nil_r. Qed.

(** X16. What the patch of a tagged region keeps, whatever the track.  In
    a README with a tagged region the patch finds the leftmost opening
    marker from which the pattern matches and the first closing marker
    after it, and the new text has the text before the region, both
    markers and the text after the region as they were, also when the
    title or the artist has dollar signs; the placeholder plays no part.
    When the rendered snippet has no dollar sign, what stands between the
    markers is the snippet. *)
Theorem region_patch_frame (config : EnvConfig) (d : string) (now : Z)
    (track : TrackInfo) :
  test spanPattern spanGroups d = true ->
  exists pre g1 mid g2 post X : string,
    d = pre ++ g1 ++ mid ++ g2 ++ post
    /\ open_marker g1
    /\ ci_eq g2 "</span>" = true
    /\ first_closing mid (g2 ++ post)
    /\ (forall a b, pre = a ++ b -> b <> "" ->
          matchR spanPattern (b ++ g1 ++ mid ++ g2 ++ post) [None; None]
            (fun s' cs => Some (s', cs)) = None)
    /\ nextReadme config d (formatTrack now track)
       = Some (pre ++ g1 ++ X ++ g2 ++ post)
    /\ (no_dollar (formatTrack now track) = true ->
        X = formatTrack now track).
Proof.
  intros Ht. rewrite (nextReadme_span config d _ Ht).
  unfold test in Ht.
  destruct (exec spanPattern spanGroups d) as [m|] eqn:E; [| discriminate].
  pose proof E as E'. apply exec_from_inv in E'.
  destruct E' as (pre & s2 & rest & cs & Hd & Hm & -> & Hfirst).
  change (repeat None spanGroups) with (@nil (option string) ++ [None; None])%list
    in Hm, Hfirst.
  cbn [List.app] in Hm, Hfirst.
  destruct (span_match_inv s2 rest cs Hm)
    as (g1 & mid & g2 & -> & Hg1 & Hg2 & Hmid & ->).
  rewrite (replace_regex_at d pre rest _ spanPattern spanGroups _ E);
    [| cbn [matched]; rewrite taken_region, Hd, !append_assoc; reflexivity
     | reflexivity].
  cbn [matched captures index]. rewrite getSubstitution_group1.
  assert (HX : exists X : string,
             getSubstitution (taken (g1 ++ mid ++ g2 ++ rest) rest) d
               (0 + String.length pre) [Some g1; Some g2]
               (formatTrack now track ++ "$2")
             = X ++ g2
             /\ (no_dollar (formatTrack now track) = true ->
                 X = formatTrack now track)).
  { destruct (no_dollar (formatTrack now track)) eqn:HF.
    - exists (formatTrack now track). split; [| reflexivity].
      rewrite (getSubstitution_plain _ _ _ _ _ _ HF).
      now rewrite getSubstitution_group2.
    - destruct (formatTrack_ends now track) as (A & ->).
      replace ((A ++ "</samp>") ++ "$2")
        with ((A ++ "</samp") ++ String ">" "$2")
        by (now rewrite !append_assoc).
      destruct (getSubstitution_cut
                  (taken (g1 ++ mid ++ g2 ++ rest) rest) d
                  (0 + String.length pre) [Some g1; Some g2] "$2"
                  (String.length (A ++ "</samp"))
                  (A ++ "</samp") (le_n _)) as (Y & HY).
      exists (Y ++ ">"). split; [| discriminate].
      rewrite HY, getSubstitution_group2. now rewrite append_assoc. }
  destruct HX as (X & HX & Hplain).
  exists pre, g1, mid, g2, rest, X.
  repeat (split; [assumption |]).
  split; [| exact Hplain].
  rewrite HX, !append_assoc. reflexivity.
Qed.

Lemma region_patch_frame_witness :
  let d := "# Hi <span data-music>old</span> bye" in
  let track := mkTrackInfo "$1 Coffee" "Artist X" None None false 0 in
  test spanPattern spanGroups d = true
  /\ exists pre g1 X g2 post : string,
       nextReadme sampleConfig d (formatTrack 0 track)
       = Some (pre ++ g1 ++ X ++ g2 ++ post)
       /\ open_marker g1
       /\ ci_eq g2 "</span>" = true.
Proof.
  intros d track.
  assert (Ht : test spanPattern spanGroups d = true)
    by (vm_compute; reflexivity).
  split; [exact Ht |].
  destruct (region_patch_frame sampleConfig d 0 track Ht)
    as (pre & g1 & mid & g2 & post & X & _ & Hg1 & Hg2 & _ & _ & Hnext & _).
  exists pre, g1, X, g2, post. auto.
Defined.

(** ** Main loop *)

Lemma main_runs_bind {A B : Type} (p : MainProg A) (f : A -> MainProg B)
    (tr : list MainEntry) (o : Outcome B) :
  main_runs (mbind p f) tr o ->
  (exists a tr1 tr2,
      main_runs p tr1 (Returned a) /\ main_runs (f a) tr2 o
      /\ tr = (tr1 ++ tr2)%list)
  \/ (exists e, main_runs p tr (Threw e) /\ o = Threw e).
Proof.
  revert tr. induction p as [a | e | X eff k IH]; simpl; intros tr H.
  - left. exists a, [], tr. auto.
  - right. exists e. destruct H as [-> ->]. auto.
  - destruct H as (x & tr' & -> & H).
    destruct (IH x tr' H) as [(a & tr1 & tr2 & H1 & H2 & ->) | (e & H1 & ->)].
    + left. exists a, (main_entry eff x :: tr1), tr2. eauto 10.
    + right. exists e. eauto 10.
Qed.

Lemma main_runs_catch {A : Type} (p : MainProg A) (h : JsError -> MainProg A)
    (tr : list MainEntry) (o : Outcome A) :
  main_runs (mcatch p h) tr o ->
  (exists a, main_runs p tr (Returned a) /\ o = Returned a)
  \/ (exists e tr1 tr2,
        main_runs p tr1 (Threw e) /\ main_runs (h e) tr2 o
        /\ tr = (tr1 ++ tr2)%list).
Proof.
  revert tr. induction p as [a | e | X eff k IH]; simpl; intros tr H.
  - left. exists a. destruct H as [-> ->]. auto.
  - right. exists e, [], tr. auto.
  - destruct H as (x & tr' & -> & H).
    destruct (IH x tr' H) as [(a & H1 & ->) | (e & tr1 & tr2 & H1 & H2 & ->)].
    + left. exists a. eauto 10.
    + right. exists e, (main_entry eff x :: tr1), tr2. eauto 10.
Qed.

Lemma main_runs_lift {A : Type} (p : Prog A) (tr : list MainEntry)
    (o : Outcome A) :
  main_runs (lift p) tr o ->
  exists tr0, behaves p tr0 o /\ tr = map of_tick tr0.
Proof.
  revert tr. induction p as [a | e | X eff k IH]; simpl; intros tr H.
  - exists []. destruct H as [-> ->]. auto.
  - exists []. destruct H as [-> ->]. auto.
  - destruct H as (x & tr' & -> & H).
    destruct (IH x tr' H) as (tr0 & H0 & ->).
    exists (entry eff x :: tr0). split; [| reflexivity].
    exists x, tr0. auto.
Qed.

Lemma main_run_runs {A S : Type} (w : MainWorld S) (p : MainProg A) (s : S) :
  main_runs p (fst (fst (main_run w p s))) (snd (fst (main_run w p s))).
Proof.
  revert s. induction p as [a | e | X eff k IH]; intros s; simpl.
  - auto.
  - auto.
  - destruct (w X eff s) as [x s'] eqn:E.
    specialize (IH x s').
    destruct (main_run w (k x) s') as [[tr o] s'']. simpl in *.
    exists x, tr. auto.
Qed.

Lemma filter_of_tick_sleep (tr : list Entry) :
  filter is_sleep (map of_tick tr) = [].
Proof.
  induction tr as [|[X eff x] tr IH]; [reflexivity | exact IH].
Qed.

Lemma filter_of_tick_poll (tr : list Entry) :
  List.length (filter is_poll (map of_tick tr))
  = List.length (filter is_lastfm tr).
Proof.
  induction tr as [|[X eff x] tr IH]; [reflexivity |].
  destruct eff; simpl; now rewrite IH.
Qed.

Lemma filter_none (P : Entry -> bool) (tr : list Entry) :
  forallb (fun en => negb (P en)) tr = true -> filter P tr = [].
Proof.
  induction tr as [|en tr IH]; simpl; [reflexivity |].
  rewrite andb_true_iff. intros [Hen Htr].
  destruct (P en); [discriminate | now apply IH].
Qed.

Section MainProperties.
Context {rt : Runtime}.
Variable config : EnvConfig.
Variable seconds_text : Z -> string.

(** A poll cycle makes one request to the provider, whatever happens. *)
Lemma tick_polls_once (tr : list Entry) (o : Outcome unit) :
  behaves (tick config) tr o ->
  List.length (filter is_lastfm tr) = 1%nat.
Proof.
  unfold tick. intros H. apply behaves_bind in H.
  assert (Hf : forall tr_f o_f,
             behaves (fetchRecentTrack config) tr_f o_f ->
             List.length (filter is_lastfm tr_f) = 1%nat).
  { intros tr_f o_f Hf. apply fetchRecentTrack_cases in Hf.
    destruct Hf as (answer & tr' & -> & Hf).
    cbn [filter is_lastfm List.length]. f_equal.
    destruct answer as [e | response]; [now destruct Hf as [-> _] |].
    destruct (ok response); [| now destruct Hf as [-> _]].
    destruct (json response) as [payload|]; [| now destruct Hf as [-> _]].
    destruct (most_recent payload) as [recent|];
      [| now destruct Hf as [-> _]].
    destruct (truthy (date_uts recent)); [now destruct Hf as [-> _] |].
    now destruct Hf as (now & -> & _). }
  destruct H as [(a & tr_f & tr2 & H1 & H & ->) | (e & H1 & ->)];
    [| exact (Hf _ _ H1)].
  rewrite filter_app, length_app, (Hf _ _ H1).
  destruct a as [track|].
  - apply (effects_in_behaves _ _ _ _ (after_fetch_not_provider config track))
      in H.
    now rewrite (filter_none is_lastfm tr2 H).
  - peel H u tr3. destruct u. now destruct H as [-> _].
Qed.

(** The runs of one turn of the loop. *)
Lemma turn_cases (tr : list MainEntry) (o : Outcome unit) :
  main_runs (turn config) tr o ->
  exists (startedAt : Z) (tr_t : list Entry) (o_t : Outcome unit)
         (finishedAt : Z),
    behaves (tick config) tr_t o_t
    /\ tr = (main_entry (Of_tick Date_now) startedAt
             :: map of_tick tr_t
             ++ match o_t with
                | Threw e =>
                    [ main_entry
                        (Console_error ("[music] tick failed: " ++ message e))
                        tt ]
                | Returned _ => []
                end
             ++ [ main_entry (Of_tick Date_now) finishedAt;
                  main_entry
                    (SetTimeout
                       (Z.max 0 (updateIntervalMs config
                                 - (finishedAt - startedAt)))) tt ])%list
    /\ o = Returned tt.
Proof.
  unfold turn, sleep, perform. cbn [lift mbind main_runs].
  intros (startedAt & tr1 & -> & H).
  apply main_runs_bind in H.
  destruct H as [(u & tr_a & tr_b & Ha & Hb & ->) | (e & Ha & ->)].
  - cbn [main_runs] in Hb.
    destruct Hb as (finishedAt & tr2 & -> & v & tr3 & -> & -> & ->).
    destruct v.
    apply main_runs_catch in Ha.
    destruct Ha as [(a & Ha & _) | (e & tr_c & tr_d & Ha & Hd & ->)].
    + apply main_runs_lift in Ha. destruct Ha as (tr_t & Ht & ->).
      exists startedAt, tr_t, (Returned a), finishedAt.
      split; [exact Ht |]. split; reflexivity.
    + apply main_runs_lift in Ha. destruct Ha as (tr_t & Ht & ->).
      cbn [main_runs] in Hd. destruct Hd as (v & tr4 & -> & -> & _).
      destruct v.
      exists startedAt, tr_t, (Threw e), finishedAt.
      split; [exact Ht |]. split; [| reflexivity].
      now rewrite <- !app_assoc.
  - apply main_runs_catch in Ha.
    destruct Ha as [(a & _ & Ha) | (e' & tr_c & tr_d & _ & Hd & _)];
      [discriminate |].
    cbn [main_runs] in Hd. destruct Hd as (v & tr4 & _ & _ & Hd).
    discriminate.
Qed.

(** X17. One turn of the loop of [main] never throws.  It reads the clock,
    runs one poll cycle, logs "[music] tick failed: " with the message
    when the cycle threw, reads the clock again and sets one timer, to
    the poll interval less the time that the cycle took, and to 0 when
    the cycle took longer.  So the delay is never negative; it is at most
    the interval, if that is not negative and the clock did not go back;
    and when the cycle took
    no longer than the interval, the timer is due one interval after the
    start of the turn. *)
Theorem turn_sleeps (tr : list MainEntry) (o : Outcome unit) :
  main_runs (turn config) tr o ->
  exists (startedAt : Z) (tr_t : list Entry) (o_t : Outcome unit)
         (finishedAt ms : Z),
    runs (tick config) tr_t o_t
    /\ tr = (main_entry (Of_tick Date_now) startedAt
             :: map of_tick tr_t
             ++ match o_t with
                | Threw e =>
                    [ main_entry
                        (Console_error ("[music] tick failed: " ++ message e))
                        tt ]
                | Returned _ => []
                end
             ++ [ main_entry (Of_tick Date_now) finishedAt;
                  main_entry (SetTimeout ms) tt ])%list
    /\ o = Returned tt
    /\ 0 <= ms
    /\ (0 <= updateIntervalMs config -> startedAt <= finishedAt ->
        ms <= updateIntervalMs config)
    /\ (finishedAt - startedAt <= updateIntervalMs config ->
        finishedAt + ms = startedAt + updateIntervalMs config)
    /\ (updateIntervalMs config <= finishedAt - startedAt -> ms = 0).
Proof.
  intros H. apply turn_cases in H.
  destruct H as (startedAt & tr_t & o_t & finishedAt & Ht & -> & ->).
  exists startedAt, tr_t, o_t, finishedAt,
    (Z.max 0 (updateIntervalMs config - (finishedAt - startedAt))).
  split; [now apply runs_behaves |].
  split; [reflexivity |]. split; [reflexivity |].
  repeat split; lia.
Qed.

(** X18. [main] logs its start and enters the loop; however many turns of
    the loop have run, none of them has thrown, and each has made one
    request to the provider and set one timer, with a delay that is not
    negative: a cycle that fails does not end the loop, and is not tried
    again before the next sleep. *)
Theorem main_steady (n : nat) (tr : list MainEntry) (o : Outcome unit) :
  main_runs (main config seconds_text n) tr o ->
  o = Returned tt
  /\ (exists tr',
        tr = main_entry
               (Of_tick
                  (Console_log ("[music] updater started – interval "
                                  ++ seconds_text (updateIntervalMs config)
                                  ++ "s"))) tt :: tr')
  /\ List.length (filter is_poll tr) = n
  /\ List.length (filter is_sleep tr) = n
  /\ forallb (fun en => match sleep_ms en with
                        | Some ms => 0 <=? ms
                        | None => true
                        end) tr = true.
Proof.
  unfold main, perform. cbn [lift mbind main_runs].
  intros (u & tr' & -> & H). destruct u.
  cbn [filter is_poll is_sleep sleep_ms forallb andb].
  enough (G : o = Returned tt
              /\ List.length (filter is_poll tr') = n
              /\ List.length (filter is_sleep tr') = n
              /\ forallb (fun en => match sleep_ms en with
                                    | Some ms => 0 <=? ms
                                    | None => true
                                    end) tr' = true)
    by (destruct G as (G1 & G2 & G3 & G4); eauto 10).
  clear seconds_text. revert tr' H.
  induction n as [|n IH]; intros tr H.
  - destruct H as [-> ->]. auto.
  - cbn [turns] in H. apply main_runs_bind in H.
    destruct H as [(u & tr1 & tr2 & H1 & H2 & ->) | (e & H1 & ->)].
    + apply turn_cases in H1.
      destruct H1 as (startedAt & tr_t & o_t & finishedAt & Ht & -> & _).
      destruct (IH tr2 H2) as (-> & Hp & Hs & Hd).
      split; [reflexivity |].
      cbn [filter is_poll is_sleep sleep_ms List.app forallb andb].
      rewrite !filter_app, !length_app, !forallb_app, !Hp, !Hs, !Hd.
      rewrite filter_of_tick_sleep, filter_of_tick_poll,
        (tick_polls_once _ _ Ht).
      assert (Q : forallb (fun en => match sleep_ms en with
                                      | Some ms => 0 <=? ms
                                      | None => true
                                      end) (map of_tick tr_t) = true).
      { clear. induction tr_t as [|[X eff x] tr_t IHt]; [reflexivity |].
        exact IHt. }
      rewrite Q.
      destruct o_t as [a | e];
        cbn [filter is_poll is_sleep sleep_ms List.length List.app forallb
             andb Nat.add];
        (split; [reflexivity |]); (split; [reflexivity |]);
        cbn [andb]; rewrite ?andb_true_r; apply Z.leb_le; lia.
    + apply turn_cases in H1. destruct H1 as (? & ? & ? & ? & _ & _ & H1).
      discriminate.
Qed.
End MainProperties.

Lemma turn_sleeps_witness :
  let r := main_run sampleMainWorld (turn (rt := sampleRuntime) sampleConfig)
             (sampleHost "x %music% y" false) in
  snd (fst r) = Returned tt.
Proof.
  intros r.
  destruct (@turn_sleeps sampleRuntime sampleConfig (fst (fst r))
              (snd (fst r))
              (main_run_runs sampleMainWorld
                 (turn (rt := sampleRuntime) sampleConfig)
                 (sampleHost "x %music% y" false)))
    as (startedAt & tr_t & o_t & finishedAt & ms & _ & _ & Ho & _).
  exact Ho.
Defined.

Lemma main_steady_witness :
  let r := main_run sampleMainWorld
             (main (rt := sampleRuntime) sampleConfig sampleSeconds 2)
             (sampleHost "x %music% y" false) in
  snd (fst r) = Returned tt
  /\ List.length (filter is_poll (fst (fst r))) = 2%nat
  /\ List.length (filter is_sleep (fst (fst r))) = 2%nat.
Proof.
  intros r.
  destruct (@main_steady sampleRuntime sampleConfig sampleSeconds 2
              (fst (fst r)) (snd (fst r))
              (main_run_runs sampleMainWorld
                 (main (rt := sampleRuntime) sampleConfig sampleSeconds 2)
                 (sampleHost "x %music% y" false)))
    as (Ho & _ & Hp & Hs & _).
  split; [exact Ho |]. split; [exact Hp | exact Hs].
Defined.
